(** * Quiz storage: synchronisation and duplicate removal

    A shallow embedding of the in-memory storage class [MemStorage] of
    [dist/index.js] (quiz CRUD, [createContentHash],
    [removeDuplicateQuizzes], [syncQuizzes]), of its user table and of two
    handlers of [registerRoutes], with the properties that the design
    document states and further properties of the code. *)

From Stdlib Require Import ZArith Ascii List Lia.
From Stdlib Require String DecimalString.
From stdpp Require Import base option list gmap sets strings sorting.

Local Open Scope Z_scope.
#[local] Set Warnings "-clear-no-such-hyp,-level-tolerance".

(** ** JavaScript strings

    A JavaScript string is a sequence of UTF-16 code units.  The embedding
    covers the strings whose code units are below 256, one [ascii] per code
    unit (the Latin-1 range).  [toLowerCase], [trim], the default
    [Array.prototype.sort] order and [JSON.stringify] on strings are written
    out for that range as ECMAScript defines them. *)
Module JsString.

Definition chars (s : string) : list ascii := String.list_ascii_of_string s.
Definition ofChars (l : list ascii) : string := String.string_of_list_ascii l.

Definition codeUnit (c : ascii) : nat := nat_of_ascii c.

(** [String.prototype.toLowerCase] on one code unit: A-Z, and the Latin-1
    capitals U+00C0..U+00DE except the multiplication sign U+00D7. *)
Definition lowerChar (c : ascii) : ascii :=
  let n := codeUnit c in
  if ((65 <=? n) && (n <=? 90))%nat
     || ((192 <=? n) && (n <=? 222) && negb (n =? 215))%nat
  then ascii_of_nat (n + 32) else c.

Definition toLowerCase (s : string) : string :=
  ofChars (map lowerChar (chars s)).

(** White space and line terminators of ECMAScript below 256:
    TAB, LF, VT, FF, CR, SP and NBSP. *)
Definition isWhiteSpace (c : ascii) : bool :=
  let n := codeUnit c in
  (((9 <=? n) && (n <=? 13)) || (n =? 32) || (n =? 160))%nat.

Fixpoint trimStartChars (l : list ascii) : list ascii :=
  match l with
  | [] => []
  | c :: l' => if isWhiteSpace c then trimStartChars l' else l
  end.

Definition trimChars (l : list ascii) : list ascii :=
  rev (trimStartChars (rev (trimStartChars l))).

Definition trim (s : string) : string := ofChars (trimChars (chars s)).

(** The order of the default [sort()] on strings: code units, left to
    right. *)
Fixpoint compareChars (a b : list ascii) : comparison :=
  match a, b with
  | [], [] => Eq
  | [], _ :: _ => Lt
  | _ :: _, [] => Gt
  | x :: a', y :: b' =>
      match Nat.compare (codeUnit x) (codeUnit y) with
      | Eq => compareChars a' b'
      | c => c
      end
  end.

Definition compare (a b : string) : comparison :=
  compareChars (chars a) (chars b).

(** [Array.prototype.join]. *)
Fixpoint joinChars (sep : list ascii) (l : list (list ascii)) : list ascii :=
  match l with
  | [] => []
  | [x] => x
  | x :: l' => x ++ sep ++ joinChars sep l'
  end.

Definition join (sep : string) (l : list string) : string :=
  ofChars (joinChars (chars sep) (map chars l)).

(** [Number.prototype.toString] for an array length. *)
Definition ofNat (n : nat) : string :=
  DecimalString.NilZero.string_of_uint (Nat.to_uint n).

End JsString.

(** [Array.prototype.sort] is stable; with a comparator [cmp] it keeps the
    relative order of the elements that [cmp] does not put apart.  Insertion
    from the right end of the array gives that result. *)
Section Sort.
Context {A : Type} (cmp : A → A → comparison).

Fixpoint sortInsert (x : A) (l : list A) : list A :=
  match l with
  | [] => [x]
  | y :: l' =>
      match cmp x y with
      | Gt => y :: sortInsert x l'
      | _ => x :: l
      end
  end.

Fixpoint sort (l : list A) : list A :=
  match l with
  | [] => []
  | x :: l' => sortInsert x (sort l')
  end.
End Sort.

(** ** JSON.stringify on strings

    [QuoteJSONString]: the quotation mark and the reverse solidus are escaped
    with a reverse solidus, the control characters are written as their short
    escape or as [\u00xx], every other code unit is copied. *)
Module Json.
Import JsString.

Definition dquote : ascii := ascii_of_nat 34.
Definition backslash : ascii := ascii_of_nat 92.

Definition hexDigit (n : nat) : ascii :=
  ascii_of_nat (if (n <? 10)%nat then 48 + n else 87 + n).

Definition quoteChar (c : ascii) : list ascii :=
  let n := codeUnit c in
  if (n =? 34)%nat then [backslash; dquote]
  else if (n =? 92)%nat then [backslash; backslash]
  else if (n =? 8)%nat then backslash :: chars "b"
  else if (n =? 9)%nat then backslash :: chars "t"
  else if (n =? 10)%nat then backslash :: chars "n"
  else if (n =? 12)%nat then backslash :: chars "f"
  else if (n =? 13)%nat then backslash :: chars "r"
  else if (n <? 32)%nat
       then backslash :: chars "u00" ++ [hexDigit (n / 16); hexDigit (n mod 16)]
  else [c].

Definition quoteChars (l : list ascii) : list ascii :=
  dquote :: concat (map quoteChar l) ++ [dquote].

Definition quote (s : string) : string := ofChars (quoteChars (chars s)).

(** Every quotation mark of [w] is followed by a reverse solidus. *)
Fixpoint escaped (w : list ascii) : bool :=
  match w with
  | [] => true
  | c :: w' =>
      if bool_decide (c = dquote)
      then match w' with
           | c' :: _ => bool_decide (c' = backslash) && escaped w'
           | [] => false
           end
      else escaped w'
  end.
End Json.

(** ** Truthiness

    The tests [!x], [x && ...] and [x || ...] of the source on a field that
    can be missing: a missing field, the empty string and the number 0 are
    falsy, a [Date] object is always truthy. *)
Module Js.
Definition truthyStr (o : option string) : bool :=
  match o with
  | Some s => negb (bool_decide (s = EmptyString))
  | None => false
  end.

Definition truthyNum (o : option Z) : bool :=
  match o with
  | Some n => negb (n =? 0)
  | None => false
  end.

(** The string of a field that passes the test. *)
Definition whenTruthy (o : option string) : option string :=
  match o with
  | Some s => if truthyStr (Some s) then Some s else None
  | None => None
  end.

Definition truthyBool (o : option bool) : bool :=
  match o with
  | Some b => b
  | None => false
  end.
End Js.

(** ** Insertion-ordered maps

    A JavaScript [Map] whose iteration order is observed ([values()],
    [entries()]): the entries in insertion order.  [set] on a key that is
    present replaces the value in place. *)
Module JsMap.
Section JsMap.
Context {K V : Type} `{EqDecision K}.

Definition get (k : K) (m : list (K * V)) : option V :=
  snd <$> find (λ p, bool_decide (p.1 = k)) m.

Definition has (k : K) (m : list (K * V)) : bool :=
  bool_decide (is_Some (get k m)).

Fixpoint set (k : K) (v : V) (m : list (K * V)) : list (K * V) :=
  match m with
  | [] => [(k, v)]
  | p :: m' => if decide (p.1 = k) then (k, v) :: m' else p :: set k v m'
  end.

(** [delete] answers whether an entry was there. *)
Definition delete (k : K) (m : list (K * V)) : list (K * V) * bool :=
  (filter (λ p, p.1 ≠ k) m, has k m).

Definition values (m : list (K * V)) : list V := m.*2.
Definition keys (m : list (K * V)) : list K := m.*1.
End JsMap.
End JsMap.

(** ** Data model *)

(** [QuestionSchema]; the description and the image lists are not read by
    the storage layer. *)
Module Question.
Record t := mk {
  question : string;
  options : list string;
  correctAnswer : string
}.
End Question.

(** A stored quiz.  [createdAt] is the time value of the [Date], in
    milliseconds.  The fields that the storage layer only copies
    (description, timer, category, history, lastTaken, createdBy) are left
    out. *)
Module Quiz.
Record t := mk {
  id : Z;
  uniqueId : option string;
  title : string;
  questions : option (list Question.t);
  isPublic : option bool;
  version : option Z;
  createdAt : option Z;
  password : option string
}.
End Quiz.

(** A quiz as a client submits it ([insertQuizSchema], which omits [id]).
    [password] can be missing, [null] or a string. *)
Module InsertQuiz.
Record t := mk {
  uniqueId : option string;
  title : string;
  questions : option (list Question.t);
  isPublic : option bool;
  version : option Z;
  createdAt : option Z;
  password : option (option string)
}.
End InsertQuiz.

(** The argument of [updateQuiz]: an object with any subset of the fields
    of an [InsertQuiz]; [None] is a property that the object does not
    have. *)
Module QuizUpdate.
Record t := mk {
  uniqueId : option string;
  title : option string;
  questions : option (list Question.t);
  isPublic : option bool;
  version : option Z;
  createdAt : option Z;
  password : option (option string)
}.

(** A submitted quiz passed as an update ([syncQuizzes]). *)
Definition ofInsert (q : InsertQuiz.t) : t :=
  {| uniqueId := InsertQuiz.uniqueId q;
     title := Some (InsertQuiz.title q);
     questions := InsertQuiz.questions q;
     isPublic := InsertQuiz.isPublic q;
     version := InsertQuiz.version q;
     createdAt := InsertQuiz.createdAt q;
     password := InsertQuiz.password q |}.
End QuizUpdate.

(** The quiz part of the state of a [MemStorage] object (the user table is
    [UserTable] below). *)
Record MemStorage := mkMemStorage {
  quizCollection : list (Z * Quiz.t);
  quizCurrentId : Z
}.

(** [new MemStorage()]. *)
Definition newMemStorage : MemStorage :=
  {| quizCollection := []; quizCurrentId := 1 |}.

(** [{...a, ...b}] on one field: the property of [b] when [b] has it. *)
Definition spread {A} (a b : option A) : option A :=
  match b with
  | Some x => Some x
  | None => a
  end.

(** ** Content fingerprint and similarity *)

(** [s.toLowerCase().trim()]. *)
Definition normalize (s : string) : string :=
  JsString.trim (JsString.toLowerCase s).

(** An element of [questionsData] in [createContentHash]. *)
Module QuestionData.
Record t := mk {
  question : string;
  options : string;
  correctAnswer : string
}.
End QuestionData.

(** The [typeof ... === "string"] and [Array.isArray] tests of the source
    hold for every question that [QuestionSchema] admits. *)
Definition questionData (q : Question.t) : QuestionData.t :=
  {| QuestionData.question := normalize (Question.question q);
     QuestionData.options :=
       JsString.join "|"
         (sort JsString.compare (map normalize (Question.options q)));
     QuestionData.correctAnswer := normalize (Question.correctAnswer q) |}.

(** [JSON.stringify] on [questionsData]: an array of objects with the three
    string properties, in the order in which the object literal has them. *)
Module Stringify.
Import JsString Json.

Definition property (name : string) (value : string) : list ascii :=
  dquote :: chars name ++ dquote :: chars ":" ++ quoteChars (chars value).

Definition object (d : QuestionData.t) : list ascii :=
  chars "{" ++ property "question" (QuestionData.question d)
  ++ chars "," ++ property "options" (QuestionData.options d)
  ++ chars "," ++ property "correctAnswer" (QuestionData.correctAnswer d)
  ++ chars "}".

Definition arrayChars (l : list QuestionData.t) : list ascii :=
  chars "[" ++ joinChars (chars ",") (map object l) ++ chars "]".

Definition array (l : list QuestionData.t) : string :=
  ofChars (arrayChars l).

(** The objects of an array from the last to the first, as the reversed
    text has them. *)
Fixpoint revJoin (l : list QuestionData.t) : list ascii :=
  match l with
  | [] => []
  | [d] => rev (object d)
  | d :: l' => rev (object d) ++ rev (chars ",") ++ revJoin l'
  end.
End Stringify.

(** The test of the innermost loop of the third pass. *)
Definition questionMatches (q1 q2 : Question.t) : bool :=
  bool_decide (normalize (Question.question q1) = normalize (Question.question q2))
  || bool_decide (normalize (Question.correctAnswer q1)
                  = normalize (Question.correctAnswer q2)).

(** [matchCount] after the two loops over the questions: the inner loop
    stops at the first question of the second quiz that matches. *)
Definition matchCount (questions1 questions2 : list Question.t) : Z :=
  fold_left
    (λ matchCount q1,
       if existsb (questionMatches q1) questions2
       then matchCount + 1 else matchCount)
    questions1 0.

(** [matchCount >= Math.min(n1, n2) * 0.8].  The product is a double.  For
    an array length it is four fifths of the minimum when that is an integer
    (so [5 * 0.8] is 4 and [0 * 0.8] is 0), and otherwise it lies between
    the same two integers as four fifths of the minimum; hence an integer is
    at least the product exactly when five times the integer is at least
    four times the minimum. *)
Definition reachesThreshold (matchCount n1 n2 : Z) : bool :=
  4 * Z.min n1 n2 <=? 5 * matchCount.

(** The record has a [uniqueId] (the tests [!quiz.uniqueId] and
    [quiz1.uniqueId && ...]). *)
Definition uidOf (quiz : Quiz.t) : option string :=
  Js.whenTruthy (Quiz.uniqueId quiz).

(** [quiz1.uniqueId && quiz2.uniqueId && quiz1.uniqueId !== quiz2.uniqueId]. *)
Definition distinctUniqueIds (quiz1 quiz2 : Quiz.t) : bool :=
  match uidOf quiz1, uidOf quiz2 with
  | Some u1, Some u2 => negb (bool_decide (u1 = u2))
  | _, _ => false
  end.

(** The two nested conditions on the questions of a pair in the third pass,
    down to [matchCount >= threshold]. *)
Definition similarQuestions (quiz1 quiz2 : Quiz.t) : bool :=
  match Quiz.questions quiz1, Quiz.questions quiz2 with
  | Some questions1, Some questions2 =>
      let n1 := Z.of_nat (length questions1) in
      let n2 := Z.of_nat (length questions2) in
      if Z.abs (n1 - n2) <=? 1
      then reachesThreshold (matchCount questions1 questions2) n1 n2
      else false
  | _, _ => false
  end.

(** The expression that all three passes evaluate on the record at hand and
    the record it competes with ([keepNew], [keepQuiz1]). *)
Definition keepNew (quiz existingQuiz : Quiz.t) : bool :=
  (Js.truthyNum (Quiz.version quiz) && Js.truthyNum (Quiz.version existingQuiz)
   && match Quiz.version quiz, Quiz.version existingQuiz with
      | Some v, Some v' => v' <? v
      | _, _ => false
      end)
  || match Quiz.createdAt quiz, Quiz.createdAt existingQuiz with
     | Some d, Some d' => d' <? d
     | _, _ => false
     end.

(** ** Storage operations *)

(** What the host supplies: [uuidv4 k] is the token that [uuidv4()] draws
    and [now k] the time that [new Date()] reads while the record with id
    [k] is created; [localeCompare] is the collation of
    [String.prototype.localeCompare]. *)
Record Host := mkHost {
  uuidv4 : Z → string;
  now : Z → Z;
  localeCompare : string → string → comparison
}.

Section Storage.
Variable host : Host.

Definition getQuiz (s : MemStorage) (id : Z) : option Quiz.t :=
  JsMap.get id (quizCollection s).

Definition getQuizByUniqueId (s : MemStorage) (uniqueId : string)
  : option Quiz.t :=
  find (λ quiz, bool_decide (Quiz.uniqueId quiz = Some uniqueId))
       (JsMap.values (quizCollection s)).

Definition getAllQuizzes (s : MemStorage) : list Quiz.t :=
  JsMap.values (quizCollection s).

Definition getPublicQuizzes (s : MemStorage) : list Quiz.t :=
  filter (λ quiz, Quiz.isPublic quiz = Some true)
         (JsMap.values (quizCollection s)).

Definition createQuiz (s : MemStorage) (quiz : InsertQuiz.t)
  : MemStorage * Quiz.t :=
  let id := quizCurrentId s in
  let uniqueId :=
    if Js.truthyStr (InsertQuiz.uniqueId quiz)
    then InsertQuiz.uniqueId quiz else Some (uuidv4 host id) in
  let version :=
    if Js.truthyNum (InsertQuiz.version quiz)
    then InsertQuiz.version quiz else Some 1 in
  let password :=
    match InsertQuiz.password quiz with
    | None => None
    | Some p => p
    end in
  let newQuiz :=
    {| Quiz.id := id;
       Quiz.uniqueId := uniqueId;
       Quiz.title := InsertQuiz.title quiz;
       Quiz.questions := InsertQuiz.questions quiz;
       Quiz.isPublic := InsertQuiz.isPublic quiz;
       Quiz.version := version;
       Quiz.createdAt :=
         match InsertQuiz.createdAt quiz with
         | Some d => Some d
         | None => Some (now host id)
         end;
       Quiz.password := password |} in
  ({| quizCollection := JsMap.set id newQuiz (quizCollection s);
      quizCurrentId := id + 1 |}, newQuiz).

(** [updatedQuiz] in [updateQuiz]: the stored record, the properties of
    [quizUpdate] over it, and the next version. *)
Definition updated (existingQuiz : Quiz.t) (quizUpdate : QuizUpdate.t)
  : Quiz.t :=
  {| Quiz.id := Quiz.id existingQuiz;
     Quiz.uniqueId :=
       spread (Quiz.uniqueId existingQuiz) (QuizUpdate.uniqueId quizUpdate);
     Quiz.title :=
       default (Quiz.title existingQuiz) (QuizUpdate.title quizUpdate);
     Quiz.questions :=
       spread (Quiz.questions existingQuiz) (QuizUpdate.questions quizUpdate);
     Quiz.isPublic :=
       spread (Quiz.isPublic existingQuiz) (QuizUpdate.isPublic quizUpdate);
     Quiz.version :=
       if Js.truthyNum (Quiz.version existingQuiz)
       then (λ v, v + 1) <$> Quiz.version existingQuiz
       else Some 1;
     Quiz.createdAt :=
       spread (Quiz.createdAt existingQuiz) (QuizUpdate.createdAt quizUpdate);
     Quiz.password :=
       default (Quiz.password existingQuiz) (QuizUpdate.password quizUpdate)
  |}.

Definition updateQuiz (s : MemStorage) (id : Z) (quizUpdate : QuizUpdate.t)
  : MemStorage * option Quiz.t :=
  match JsMap.get id (quizCollection s) with
  | None => (s, None)
  | Some existingQuiz =>
      let updatedQuiz := updated existingQuiz quizUpdate in
      ({| quizCollection := JsMap.set id updatedQuiz (quizCollection s);
          quizCurrentId := quizCurrentId s |}, Some updatedQuiz)
  end.

Definition deleteQuiz (s : MemStorage) (id : Z) : MemStorage * bool :=
  let '(m, deleted) := JsMap.delete id (quizCollection s) in
  ({| quizCollection := m; quizCurrentId := quizCurrentId s |}, deleted).

(** The loops [for (quiz of l) if (delete(quiz.id)) count++]. *)
Definition deleteStep (acc : MemStorage * Z) (quiz : Quiz.t)
  : MemStorage * Z :=
  let '(s, count) := acc in
  let '(s', deleted) := deleteQuiz s (Quiz.id quiz) in
  (s', if deleted then count + 1 else count).

Definition deleteEach (l : list Quiz.t) (s : MemStorage) : MemStorage * Z :=
  fold_left deleteStep l (s, 0).

Definition deletePrivateQuizzes (s : MemStorage) : MemStorage * Z :=
  let privateQuizzes :=
    filter (λ quiz, Js.truthyBool (Quiz.isPublic quiz) = false)
           (JsMap.values (quizCollection s)) in
  deleteEach privateQuizzes s.

Definition createContentHash (quiz : Quiz.t) : string :=
  let titleNormalized := normalize (Quiz.title quiz) in
  let questionsData :=
    match Quiz.questions quiz with
    | Some questions => map questionData questions
    | None => []
    end in
  let sorted :=
    if (0 <? length questionsData)%nat
    then sort (λ a b, localeCompare host (QuestionData.question a)
                                         (QuestionData.question b))
              questionsData
    else questionsData in
  titleNormalized +:+ ":" +:+ JsString.ofNat (length sorted) +:+ ":"
  +:+ Stringify.array sorted.

(** *** removeDuplicateQuizzes *)

(** First pass, one iteration: the state is [uniqueIdMap],
    [uniqueQuizIds] and [duplicatesRemoved]. *)
Definition pass1Step
    (st : gmap string Quiz.t * gset Z * list Quiz.t) (quiz : Quiz.t)
  : gmap string Quiz.t * gset Z * list Quiz.t :=
  let '(uniqueIdMap, uniqueQuizIds, duplicatesRemoved) := st in
  match uidOf quiz with
  | None => (uniqueIdMap, {[Quiz.id quiz]} ∪ uniqueQuizIds, duplicatesRemoved)
  | Some u =>
      match uniqueIdMap !! u with
      | None =>
          (<[u := quiz]> uniqueIdMap, {[Quiz.id quiz]} ∪ uniqueQuizIds,
           duplicatesRemoved)
      | Some existingQuiz =>
          if keepNew quiz existingQuiz
          then (<[u := quiz]> uniqueIdMap,
                {[Quiz.id quiz]} ∪ (uniqueQuizIds ∖ {[Quiz.id existingQuiz]}),
                duplicatesRemoved ++ [existingQuiz])
          else (uniqueIdMap, uniqueQuizIds, duplicatesRemoved ++ [quiz])
      end
  end.

(** Second pass, one iteration: the state is [contentHashMap],
    [uniqueQuizIds] and [duplicatesRemoved]. *)
Definition pass2Step
    (st : gmap string Quiz.t * gset Z * list Quiz.t) (quiz : Quiz.t)
  : gmap string Quiz.t * gset Z * list Quiz.t :=
  let '(contentHashMap, uniqueQuizIds, duplicatesRemoved) := st in
  if decide (Quiz.id quiz ∈ uniqueQuizIds) then
    match uidOf quiz with
    | Some _ => st
    | None =>
        let contentHash := createContentHash quiz in
        match contentHashMap !! contentHash with
        | None =>
            (<[contentHash := quiz]> contentHashMap, uniqueQuizIds,
             duplicatesRemoved)
        | Some existingQuiz =>
            if keepNew quiz existingQuiz
            then (<[contentHash := quiz]> contentHashMap,
                  {[Quiz.id quiz]} ∪ (uniqueQuizIds ∖ {[Quiz.id existingQuiz]}),
                  duplicatesRemoved ++ [existingQuiz])
            else (contentHashMap, uniqueQuizIds ∖ {[Quiz.id quiz]},
                  duplicatesRemoved ++ [quiz])
        end
    end
  else st.

(** The loop that fills [titleMap]. *)
Definition titleStep (uniqueQuizIds : gset Z)
    (titleMap : list (string * list Quiz.t)) (quiz : Quiz.t)
  : list (string * list Quiz.t) :=
  if decide (Quiz.id quiz ∈ uniqueQuizIds) then
    let normalizedTitle := normalize (Quiz.title quiz) in
    match JsMap.get normalizedTitle titleMap with
    | None => JsMap.set normalizedTitle [quiz] titleMap
    | Some quizzes => JsMap.set normalizedTitle (quizzes ++ [quiz]) titleMap
    end
  else titleMap.

(** Third pass, the loop over [j] for a fixed [quiz1]: [rest] is
    [quizzesWithSameTitle] from index [i + 1] on; the state is
    [finalUniqueQuizIds] and [duplicatesRemoved].  The loop ends at the
    [break]. *)
Fixpoint pass3Inner (quiz1 : Quiz.t) (rest : list Quiz.t)
    (st : gset Z * list Quiz.t) : gset Z * list Quiz.t :=
  match rest with
  | [] => st
  | quiz2 :: rest' =>
      if decide (Quiz.id quiz2 ∈ st.1) then
        if distinctUniqueIds quiz1 quiz2 then pass3Inner quiz1 rest' st
        else if similarQuestions quiz1 quiz2 then
          if keepNew quiz1 quiz2
          then pass3Inner quiz1 rest'
                 (st.1 ∖ {[Quiz.id quiz2]}, st.2 ++ [quiz2])
          else (st.1 ∖ {[Quiz.id quiz1]}, st.2 ++ [quiz1])
        else pass3Inner quiz1 rest' st
      else pass3Inner quiz1 rest' st
  end.

(** Third pass, the loop over [i]. *)
Fixpoint pass3Outer (quizzesWithSameTitle : list Quiz.t)
    (st : gset Z * list Quiz.t) : gset Z * list Quiz.t :=
  match quizzesWithSameTitle with
  | [] => st
  | quiz1 :: rest =>
      pass3Outer rest
        (if decide (Quiz.id quiz1 ∈ st.1) then pass3Inner quiz1 rest st
         else st)
  end.

(** Third pass, one entry of [titleMap]. *)
Definition pass3Step (st : gset Z * list Quiz.t)
    (entry : string * list Quiz.t) : gset Z * list Quiz.t :=
  if (1 <? length entry.2)%nat then pass3Outer entry.2 st else st.

Definition pass1 (allQuizzes : list Quiz.t)
  : gmap string Quiz.t * gset Z * list Quiz.t :=
  fold_left pass1Step allQuizzes (∅, ∅, []).

Definition pass2 (allQuizzes : list Quiz.t)
    (uniqueQuizIds : gset Z) (duplicatesRemoved : list Quiz.t)
  : gmap string Quiz.t * gset Z * list Quiz.t :=
  fold_left pass2Step allQuizzes (∅, uniqueQuizIds, duplicatesRemoved).

Definition buildTitleMap (allQuizzes : list Quiz.t) (uniqueQuizIds : gset Z)
  : list (string * list Quiz.t) :=
  fold_left (titleStep uniqueQuizIds) allQuizzes [].

Definition pass3 (allQuizzes : list Quiz.t)
    (uniqueQuizIds : gset Z) (duplicatesRemoved : list Quiz.t)
  : gset Z * list Quiz.t :=
  fold_left pass3Step (buildTitleMap allQuizzes uniqueQuizIds)
            (uniqueQuizIds, duplicatesRemoved).

(** The records that the three passes put on [duplicatesRemoved], and
    [finalUniqueQuizIds]. *)
Definition findDuplicates (allQuizzes : list Quiz.t)
  : gset Z * list Quiz.t :=
  let '(_, uniqueQuizIds, duplicatesRemoved) := pass1 allQuizzes in
  let '(_, uniqueQuizIds, duplicatesRemoved) :=
    pass2 allQuizzes uniqueQuizIds duplicatesRemoved in
  pass3 allQuizzes uniqueQuizIds duplicatesRemoved.

Definition removeDuplicateQuizzes (s : MemStorage) : MemStorage * Z :=
  let allQuizzes := JsMap.values (quizCollection s) in
  let '(_, duplicatesRemoved) := findDuplicates allQuizzes in
  deleteEach duplicatesRemoved s.

(** *** syncQuizzes *)

(** The first loop, over the public quizzes of the batch.  (When
    [createQuiz] is reached the quiz has a [uniqueId], so the assignment
    to the submitted object in [createQuiz] does not happen.) *)
Definition syncPublicStep (s : MemStorage) (quizToSync : InsertQuiz.t)
  : MemStorage :=
  match Js.whenTruthy (InsertQuiz.uniqueId quizToSync) with
  | None => s
  | Some u =>
      match getQuizByUniqueId s u with
      | Some existingQuiz =>
          (updateQuiz s (Quiz.id existingQuiz)
                      (QuizUpdate.ofInsert quizToSync)).1
      | None => (createQuiz s quizToSync).1
      end
  end.

(** The second loop, over the whole batch. *)
Definition syncPrivateStep (s : MemStorage) (quizToSync : InsertQuiz.t)
  : MemStorage :=
  if negb (Js.truthyBool (InsertQuiz.isPublic quizToSync)) then
    match Js.whenTruthy (InsertQuiz.uniqueId quizToSync) with
    | None => s
    | Some u =>
        match getQuizByUniqueId s u with
        | Some existingQuiz => (deleteQuiz s (Quiz.id existingQuiz)).1
        | None => s
        end
    end
  else s.

Definition syncQuizzes (s : MemStorage) (quizzesToSync : list InsertQuiz.t)
  : MemStorage * list Quiz.t :=
  let publicQuizzesToSync :=
    filter (λ quiz, InsertQuiz.isPublic quiz = Some true) quizzesToSync in
  let s1 := fold_left syncPublicStep publicQuizzesToSync s in
  let s2 := fold_left syncPrivateStep quizzesToSync s1 in
  let s3 := (deletePrivateQuizzes s2).1 in
  (s3, getPublicQuizzes s3).
(** *** The handler of [POST /api/quizzes/sync]

    Before the batch reaches [syncQuizzes], a quiz without [createdAt] gets
    the time at which the handler reads the clock, [requestTime i] for the
    quiz at index [i]; the stored collection is deduplicated after the
    synchronisation and the public quizzes are sent back.  (The handler
    also converts [lastTaken] and the dates of [history], which the storage
    layer only copies.) *)
Definition processQuiz (requestTime : nat → Z) (i : nat) (quiz : InsertQuiz.t)
  : InsertQuiz.t :=
  {| InsertQuiz.uniqueId := InsertQuiz.uniqueId quiz;
     InsertQuiz.title := InsertQuiz.title quiz;
     InsertQuiz.questions := InsertQuiz.questions quiz;
     InsertQuiz.isPublic := InsertQuiz.isPublic quiz;
     InsertQuiz.version := InsertQuiz.version quiz;
     InsertQuiz.createdAt :=
       match InsertQuiz.createdAt quiz with
       | Some d => Some d
       | None => Some (requestTime i)
       end;
     InsertQuiz.password := InsertQuiz.password quiz |}.

Definition syncRoute (requestTime : nat → Z) (s : MemStorage)
    (quizzes : list InsertQuiz.t) : MemStorage * list Quiz.t :=
  let processedData := imap (processQuiz requestTime) quizzes in
  let s1 := (syncQuizzes s processedData).1 in
  let s2 := (removeDuplicateQuizzes s1).1 in
  (s2, getPublicQuizzes s2).
End Storage.

(** The number of stored records that carry the [uniqueId] [u]. *)
Definition uidCount (u : string) (m : list (Z * Quiz.t)) : nat :=
  length (filter (λ p, Quiz.uniqueId p.2 = Some u) m).

(** ** Well-formed stores

    What every operation of [MemStorage] keeps: the keys of
    [quizCollection] are distinct, each record is stored under its own [id],
    and [quizCurrentId] is above every key. *)
Record wf (s : MemStorage) : Prop := mkWf {
  wf_nodup : NoDup (JsMap.keys (quizCollection s));
  wf_key : ∀ k quiz, (k, quiz) ∈ quizCollection s → Quiz.id quiz = k;
  wf_fresh : ∀ k, k ∈ JsMap.keys (quizCollection s) → k < quizCurrentId s
}.

(** [wf] as a test. *)
Definition wfb (s : MemStorage) : bool :=
  bool_decide (NoDup (JsMap.keys (quizCollection s)))
  && forallb (λ p, (p.1 =? Quiz.id p.2) && (p.1 <? quizCurrentId s))
             (quizCollection s).

(** ** Duplicates

    What [removeDuplicateQuizzes] looks for, stated on pairs of records. *)

(** [OrdPairs R l]: [R a b] for every [a] that comes before [b] in [l]. *)
Inductive OrdPairs {A} (R : A → A → Prop) : list A → Prop :=
  | OrdPairs_nil : OrdPairs R []
  | OrdPairs_cons a l : Forall (R a) l → OrdPairs R l → OrdPairs R (a :: l).

(** The ids of a list of records, as a set. *)
Definition idset (l : list Quiz.t) : gset Z := list_to_set (Quiz.id <$> l).

(** The third pass takes the pair for one quiz: the [uniqueId]s do not
    tell the two apart and the questions are similar. *)
Definition pass3Duplicate (quiz1 quiz2 : Quiz.t) : bool :=
  negb (distinctUniqueIds quiz1 quiz2) && similarQuestions quiz1 quiz2.

(** [b], which comes after [a] in the collection, is a duplicate of [a] for
    one of the three passes: the same [uniqueId]; no [uniqueId] and the
    same fingerprint; the same normalized title and a pair that the third
    pass takes for one quiz. *)
Definition duplicates (host : Host) (a b : Quiz.t) : Prop :=
  (∃ u, uidOf a = Some u ∧ uidOf b = Some u)
  ∨ (uidOf a = None ∧ uidOf b = None
     ∧ createContentHash host a = createContentHash host b)
  ∨ (normalize (Quiz.title a) = normalize (Quiz.title b)
     ∧ pass3Duplicate a b = true).

Definition duplicateFree (host : Host) (l : list Quiz.t) : Prop :=
  OrdPairs (λ a b, ¬ duplicates host a b) l.

(** The number of positions at which two quizzes have the same normalized
    correct answer. *)
Fixpoint agreeCount (questions1 questions2 : list Question.t) : nat :=
  match questions1, questions2 with
  | q1 :: rest1, q2 :: rest2 =>
      ((if bool_decide (normalize (Question.correctAnswer q1)
                        = normalize (Question.correctAnswer q2))
        then 1 else 0) + agreeCount rest1 rest2)%nat
  | _, _ => 0%nat
  end.

(** ** Invariants of the three passes *)

(** The state of the first pass after the records [P]: the kept ids are
    ids of [P], the removed records are the others, and [uniqueIdMap] holds
    for each [uniqueId] the kept record that carries it. *)
Record Inv1 (P : list Quiz.t)
    (st : gmap string Quiz.t * gset Z * list Quiz.t) : Prop := mkInv1 {
  inv1_ids : st.1.2 ⊆ idset P;
  inv1_removed : idset st.2 = idset P ∖ st.1.2;
  inv1_map : ∀ u q, st.1.1 !! u = Some q →
                    q ∈ P ∧ uidOf q = Some u ∧ Quiz.id q ∈ st.1.2;
  inv1_kept : ∀ q u, q ∈ P → Quiz.id q ∈ st.1.2 → uidOf q = Some u →
                     st.1.1 !! u = Some q;
  inv1_nonempty : P ≠ [] → ∃ k, k ∈ st.1.2
}.

(** The state of the second pass after the records [P] of the collection
    [l]: the kept ids only shrink, the removed records are the records of
    [l] that are not kept, and [contentHashMap] holds for each fingerprint
    the kept record without [uniqueId] that has it. *)
Record Inv2 (host : Host) (l : list Quiz.t) (ids0 : gset Z) (P : list Quiz.t)
    (st : gmap string Quiz.t * gset Z * list Quiz.t) : Prop := mkInv2 {
  inv2_ids : st.1.2 ⊆ idset l;
  inv2_shrink : st.1.2 ⊆ ids0;
  inv2_removed : idset st.2 = idset l ∖ st.1.2;
  inv2_map : ∀ h q, st.1.1 !! h = Some q →
                    q ∈ P ∧ uidOf q = None ∧ createContentHash host q = h
                    ∧ Quiz.id q ∈ st.1.2;
  inv2_kept : ∀ q, q ∈ P → Quiz.id q ∈ st.1.2 → uidOf q = None →
                   st.1.1 !! createContentHash host q = Some q;
  inv2_nonempty : l ≠ [] → ∃ k, k ∈ st.1.2
}.

(** The state of the third pass: the kept ids are ids of the collection and
    the removed records are the records that are not kept. *)
Record Good (l : list Quiz.t) (st : gset Z * list Quiz.t) : Prop := mkGood {
  good_ids : st.1 ⊆ idset l;
  good_removed : idset st.2 = idset l ∖ st.1
}.

(** [titleMap] after the records [P]: one entry for each normalized title
    of a kept record, with the kept records of that title in the order of
    the collection. *)
Record TitleMap (ids : gset Z) (P : list Quiz.t)
    (titleMap : list (string * list Quiz.t)) : Prop := mkTitleMap {
  tm_nodup : NoDup (JsMap.keys titleMap);
  tm_group : ∀ t g, (t, g) ∈ titleMap →
    g = filter (λ q, normalize (Quiz.title q) = t)
               (filter (λ q, Quiz.id q ∈ ids) P);
  tm_key : ∀ q, q ∈ P → Quiz.id q ∈ ids →
                normalize (Quiz.title q) ∈ JsMap.keys titleMap
}.

(** ** Stores that a server goes through

    The states of a [MemStorage] object: the constructor gives the first
    one, and every method that writes gives the next. *)
Inductive reachable (host : Host) : MemStorage → Prop :=
  | reachable_new : reachable host newMemStorage
  | reachable_createQuiz s quiz :
      reachable host s → reachable host (createQuiz host s quiz).1
  | reachable_updateQuiz s id quizUpdate :
      reachable host s → reachable host (updateQuiz s id quizUpdate).1
  | reachable_deleteQuiz s id :
      reachable host s → reachable host (deleteQuiz s id).1
  | reachable_deletePrivateQuizzes s :
      reachable host s → reachable host (deletePrivateQuizzes s).1
  | reachable_removeDuplicateQuizzes s :
      reachable host s → reachable host (removeDuplicateQuizzes host s).1
  | reachable_syncQuizzes s quizzesToSync :
      reachable host s → reachable host (syncQuizzes host s quizzesToSync).1.

(** The record has the three properties that [createQuiz] fills in. *)
Definition filledIn (quiz : Quiz.t) : Prop :=
  is_Some (Quiz.uniqueId quiz) ∧ is_Some (Quiz.version quiz)
  ∧ is_Some (Quiz.createdAt quiz).

(** The version that [updateQuiz] stores over the version [v]:
    [(existingQuiz.version || 0) + 1]. *)
Definition nextVersion (v : option Z) : Z :=
  match v with
  | Some n => if n =? 0 then 1 else n + 1
  | None => 1
  end.

(** The quizzes of a batch that [syncQuizzes] can act on: the others have
    no [uniqueId]. *)
Definition identified (quizzesToSync : list InsertQuiz.t)
  : list InsertQuiz.t :=
  filter (λ quiz, Js.truthyStr (InsertQuiz.uniqueId quiz) = true)
         quizzesToSync.

(** The [uniqueId]s of the stored records that have one. *)
Definition uniqueIds (l : list Quiz.t) : list string := omap uidOf l.

(** Two questions that differ in what [createContentHash] normalizes
    away: case and surrounding white space of the three texts, and the
    order of the options. *)
Definition sameNormalized (q1 q2 : Question.t) : Prop :=
  normalize (Question.question q1) = normalize (Question.question q2)
  ∧ map normalize (Question.options q1) ≡ₚ map normalize (Question.options q2)
  ∧ normalize (Question.correctAnswer q1)
    = normalize (Question.correctAnswer q2).

(** The collation orders the strings: it is total, transitive, and only a
    string itself is on a par with it. *)
Record Collation (cmp : string → string → comparison) : Prop := mkCollation {
  collation_total : ∀ a b, cmp a b = Gt → cmp b a ≠ Gt;
  collation_trans : ∀ a b c, cmp a b ≠ Gt → cmp b c ≠ Gt → cmp a c ≠ Gt;
  collation_antisym : ∀ a b, cmp a b ≠ Gt → cmp b a ≠ Gt → a = b
}.

(** [quiz] has a duplicate among the records [l]: another record that
    one of the three passes takes for the same quiz, whichever of the two
    comes first. *)
Definition hasDuplicate (host : Host) (l : list Quiz.t) (quiz : Quiz.t)
  : Prop :=
  ∃ other, other ∈ l ∧ Quiz.id other ≠ Quiz.id quiz
           ∧ (duplicates host other quiz ∨ duplicates host quiz other).

(** ** The user table of [MemStorage] *)

Module InsertUser.
Record t := mk {
  username : string;
  password : string
}.
End InsertUser.

Module User.
Record t := mk {
  id : Z;
  username : string;
  password : string
}.
End User.

(** The fields [users] and [userCurrentId] of a [MemStorage] object. *)
Record UserTable := mkUserTable {
  users : list (Z * User.t);
  userCurrentId : Z
}.

Definition newUserTable : UserTable :=
  {| users := []; userCurrentId := 1 |}.

Definition getUser (t : UserTable) (id : Z) : option User.t :=
  JsMap.get id (users t).

Definition getUserByUsername (t : UserTable) (username : string)
  : option User.t :=
  find (λ user, bool_decide (User.username user = username))
       (JsMap.values (users t)).

Definition createUser (t : UserTable) (insertUser : InsertUser.t)
  : UserTable * User.t :=
  let id := userCurrentId t in
  let user :=
    {| User.id := id;
       User.username := InsertUser.username insertUser;
       User.password := InsertUser.password insertUser |} in
  ({| users := JsMap.set id user (users t); userCurrentId := id + 1 |}, user).

(** The user tables that [createUser] builds. *)
Inductive usersReachable : UserTable → Prop :=
  | usersReachable_new : usersReachable newUserTable
  | usersReachable_createUser t insertUser :
      usersReachable t → usersReachable (createUser t insertUser).1.

(** ** Route handlers

    The handlers of [registerRoutes] on a [MemStorage]: the next store and
    the response, which is a status and the value passed to [res.json]. *)
Module Response.
Inductive body :=
  | OneQuiz (quiz : Quiz.t)
  | Message (message : string)
  | Success.

Record t := mk {
  status : Z;
  json : body
}.
End Response.

(** [GET /api/quizzes/unique/:uniqueId]. *)
Definition getQuizByUniqueIdRoute (s : MemStorage) (uniqueId : string)
  : Response.t :=
  match getQuizByUniqueId s uniqueId with
  | None => Response.mk 404 (Response.Message "Quiz not found")
  | Some quiz => Response.mk 200 (Response.OneQuiz quiz)
  end.

(** [DELETE /api/quizzes/unique/:uniqueId]. *)
Definition deleteQuizByUniqueIdRoute (s : MemStorage) (uniqueId : string)
  : MemStorage * Response.t :=
  match getQuizByUniqueId s uniqueId with
  | None => (s, Response.mk 404 (Response.Message "Quiz not found"))
  | Some quiz =>
      let '(s', success) := deleteQuiz s (Quiz.id quiz) in
      if success then (s', Response.mk 200 Response.Success)
      else (s', Response.mk 500 (Response.Message "Failed to delete quiz"))
  end.

(** ** The request log

    The last step on [logLine] before it is written: a line of more than 80
    code units is cut to its first 79, and the ellipsis U+2026 is put
    behind them.  The line is a list of code units of any range here. *)
Definition truncated {A} (ellipsis : A) (logLine : list A) : list A :=
  if (80 <? length logLine)%nat then take 79 logLine ++ [ellipsis]
  else logLine.

(** ** Example records *)
Module Examples.
(** A host with a fixed token, a clock that advances with the ids and the
    code-unit order as collation. *)
Definition host : Host :=
  {| uuidv4 := λ _, "generated";
     now := λ k, 1000 + k;
     localeCompare := JsString.compare |}.

Definition question (prompt answer : string) : Question.t :=
  {| Question.question := prompt;
     Question.options := [];
     Question.correctAnswer := answer |}.

Definition quiz (id : Z) (uniqueId : option string) (title : string)
    (questions : list Question.t) (version createdAt : option Z) : Quiz.t :=
  {| Quiz.id := id;
     Quiz.uniqueId := uniqueId;
     Quiz.title := title;
     Quiz.questions := Some questions;
     Quiz.isPublic := Some true;
     Quiz.version := version;
     Quiz.createdAt := createdAt;
     Quiz.password := None |}.

Definition submitted (uniqueId : option string) (title : string)
    (questions : list Question.t) (isPublic : bool) : InsertQuiz.t :=
  {| InsertQuiz.uniqueId := uniqueId;
     InsertQuiz.title := title;
     InsertQuiz.questions := Some questions;
     InsertQuiz.isPublic := Some isPublic;
     InsertQuiz.version := None;
     InsertQuiz.createdAt := None;
     InsertQuiz.password := None |}.

(** The same submission with a creation date. *)
Definition withCreatedAt (d : Z) (q : InsertQuiz.t) : InsertQuiz.t :=
  {| InsertQuiz.uniqueId := InsertQuiz.uniqueId q;
     InsertQuiz.title := InsertQuiz.title q;
     InsertQuiz.questions := InsertQuiz.questions q;
     InsertQuiz.isPublic := InsertQuiz.isPublic q;
     InsertQuiz.version := InsertQuiz.version q;
     InsertQuiz.createdAt := Some d;
     InsertQuiz.password := InsertQuiz.password q |}.

(** The same submission with a version. *)
Definition withVersion (v : Z) (q : InsertQuiz.t) : InsertQuiz.t :=
  {| InsertQuiz.uniqueId := InsertQuiz.uniqueId q;
     InsertQuiz.title := InsertQuiz.title q;
     InsertQuiz.questions := InsertQuiz.questions q;
     InsertQuiz.isPublic := InsertQuiz.isPublic q;
     InsertQuiz.version := Some v;
     InsertQuiz.createdAt := InsertQuiz.createdAt q;
     InsertQuiz.password := InsertQuiz.password q |}.

(** An update that carries no property. *)
Definition noUpdate : QuizUpdate.t :=
  {| QuizUpdate.uniqueId := None;
     QuizUpdate.title := None;
     QuizUpdate.questions := None;
     QuizUpdate.isPublic := None;
     QuizUpdate.version := None;
     QuizUpdate.createdAt := None;
     QuizUpdate.password := None |}.

(** An update that empties the [uniqueId]. *)
Definition emptyUniqueId : QuizUpdate.t :=
  {| QuizUpdate.uniqueId := Some EmptyString;
     QuizUpdate.title := None;
     QuizUpdate.questions := None;
     QuizUpdate.isPublic := None;
     QuizUpdate.version := None;
     QuizUpdate.createdAt := None;
     QuizUpdate.password := None |}.

(** Five questions, and questions with other prompts whose correct
    answers agree with them at four and at three positions. *)
Definition five : list Question.t :=
  [question "p1" "A"; question "p2" "B"; question "p3" "C";
   question "p4" "D"; question "p5" "E"].
Definition fiveAgree4 : list Question.t :=
  [question "r1" "a"; question "r2" "b"; question "r3" "c";
   question "r4" "d"; question "r5" "x"].
Definition fiveAgree3 : list Question.t :=
  [question "r1" "a"; question "r2" "b"; question "r3" "c";
   question "r4" "x"; question "r5" "y"].

(** Five questions of which three have the correct answer ["A"]. *)
Definition fiveRepeated : list Question.t :=
  [question "p1" "A"; question "p2" "B"; question "p3" "C";
   question "p4" "A"; question "p5" "A"].

(** Two quizzes with the title ["Math Quiz"] are created and the
    [uniqueId] of both is emptied by an update. *)
Definition mathQuizzes (questions1 questions2 : list Question.t)
  : MemStorage :=
  let s1 := (createQuiz host newMemStorage
               (submitted (Some "u1") "Math Quiz" questions1 true)).1 in
  let s2 := (createQuiz host s1
               (submitted (Some "u2") "math quiz " questions2 true)).1 in
  let s3 := (updateQuiz s2 1 emptyUniqueId).1 in
  (updateQuiz s3 2 emptyUniqueId).1.

Definition store (l : list Quiz.t) (next : Z) : MemStorage :=
  {| quizCollection := map (λ q, (Quiz.id q, q)) l; quizCurrentId := next |}.
End Examples.

(** * Properties *)

Example toLowerCase_ex : JsString.toLowerCase " Math QUIZ " = " math quiz ".
Proof. reflexivity. Qed.

Example trim_ex : JsString.trim "  Math Quiz  " = "Math Quiz".
Proof. reflexivity. Qed.

Example sort_ex : sort JsString.compare ["b"; "a"; "C"] = ["C"; "a"; "b"].
Proof. reflexivity. Qed.

Example ofNat_ex : JsString.ofNat 12 = "12".
Proof. reflexivity. Qed.

Example quote_ex :
  JsString.chars (Json.quote "a\b")
  = [Json.dquote] ++ JsString.chars "a\\b" ++ [Json.dquote].
Proof. reflexivity. Qed.

(** ** The recency test *)

Lemma whenTruthy_Some o u :
  Js.whenTruthy o = Some u ↔ o = Some u ∧ u ≠ EmptyString.
Proof.
  destruct o as [s|]; simpl.
  - case_bool_decide as Hs; simpl; split.
    + done.
    + intros [[= ->] ?]. done.
    + intros [= ->]. done.
    + intros [[= ->] ?]. done.
  - split; [done|]. by intros [? _].
Qed.

Lemma whenTruthy_None o :
  Js.whenTruthy o = None ↔ o = None ∨ o = Some EmptyString.
Proof.
  destruct o as [s|]; simpl.
  - case_bool_decide as Hs; simpl; split.
    + intros _. right. by rewrite Hs.
    + done.
    + done.
    + intros [|[= ->]]; done.
  - split; [by left|done].
Qed.

Lemma keepNew_iff (quiz existingQuiz : Quiz.t) :
  keepNew quiz existingQuiz = true ↔
    (∃ v v', Quiz.version quiz = Some v ∧ Quiz.version existingQuiz = Some v'
             ∧ v ≠ 0 ∧ v' ≠ 0 ∧ v' < v)
    ∨ (∃ d d', Quiz.createdAt quiz = Some d
               ∧ Quiz.createdAt existingQuiz = Some d' ∧ d' < d).
Proof.
  unfold keepNew. rewrite orb_true_iff, !andb_true_iff.
  destruct (Quiz.version quiz) as [v|], (Quiz.version existingQuiz) as [v'|],
    (Quiz.createdAt quiz) as [d|], (Quiz.createdAt existingQuiz) as [d'|];
    simpl; rewrite ?negb_true_iff, ?Z.eqb_neq, ?Z.ltb_lt;
    split; intros H; try (destruct H as [H|H]; [|try discriminate]);
    try discriminate;
    repeat match goal with
           | H : _ ∧ _ |- _ => destruct H
           | H : ∃ _, _ |- _ => destruct H
           | H : _ ∨ _ |- _ => destruct H
           | H : Some _ = Some _ |- _ => injection H as ->
           end; try discriminate; try lia; eauto 10.
Qed.

(** C4 (as amended).  The recency test is one function of the two records,
    the record at hand [a] and the record it competes with [b]; all three
    passes decide with it which of the two goes on [duplicatesRemoved].
    It keeps [a] exactly when both versions are present and not 0 and that
    of [a] is the greater, or both creation dates are present and that of
    [a] is strictly later; otherwise it keeps [b]. *)
Theorem recency_tie_break (a b : Quiz.t) :
  (keepNew a b = true ↔
     (∃ v v', Quiz.version a = Some v ∧ Quiz.version b = Some v'
              ∧ v ≠ 0 ∧ v' ≠ 0 ∧ v' < v)
     ∨ (∃ d d', Quiz.createdAt a = Some d ∧ Quiz.createdAt b = Some d'
                ∧ d' < d))
  ∧ (∀ uniqueIdMap ids removed u,
       uidOf a = Some u → uniqueIdMap !! u = Some b →
       (pass1Step (uniqueIdMap, ids, removed) a).2
       = removed ++ [if keepNew a b then b else a])
  ∧ (∀ host contentHashMap ids removed,
       Quiz.id a ∈ ids → uidOf a = None →
       contentHashMap !! createContentHash host a = Some b →
       (pass2Step host (contentHashMap, ids, removed) a).2
       = removed ++ [if keepNew a b then b else a])
  ∧ (∀ ids removed,
       Quiz.id b ∈ ids → distinctUniqueIds a b = false →
       similarQuestions a b = true →
       (pass3Inner a [b] (ids, removed)).2
       = removed ++ [if keepNew a b then b else a]).
Proof.
  split; [apply keepNew_iff|]. split; [|split].
  - intros m ids removed u Hu Hm. unfold pass1Step. rewrite Hu, Hm.
    by destruct (keepNew a b).
  - intros host m ids removed Hin Hu Hm. unfold pass2Step.
    rewrite decide_True by done. rewrite Hu, Hm. by destruct (keepNew a b).
  - intros ids removed Hin Hd Hs. simpl.
    rewrite decide_True by done. rewrite Hd, Hs. by destruct (keepNew a b).
Qed.


(** ** The similarity count *)

Lemma matchCount_fold (qs1 qs2 : list Question.t) (n : Z) :
  fold_left
    (λ matchCount q1,
       if existsb (questionMatches q1) qs2 then matchCount + 1 else matchCount)
    qs1 n
  = n + Z.of_nat (length (filter (λ q1, existsb (questionMatches q1) qs2 = true) qs1)).
Proof.
  revert n. induction qs1 as [|q1 qs1 IH]; intros n; simpl; [lia|].
  rewrite IH, filter_cons.
  destruct (existsb (questionMatches q1) qs2); case_decide; try done;
    simpl; lia.
Qed.

Lemma matchCount_filter (qs1 qs2 : list Question.t) :
  matchCount qs1 qs2
  = Z.of_nat (length (filter (λ q1, existsb (questionMatches q1) qs2 = true) qs1)).
Proof. unfold matchCount. by rewrite matchCount_fold. Qed.

(** C8 (as amended).  Every question of the first quiz adds at most one to
    [matchCount]: the count is the number of questions of the first quiz
    that match some question of the second, so it is at most the number of
    questions of the first quiz. *)
Theorem matchCount_first_quiz (qs1 qs2 : list Question.t) :
  matchCount qs1 qs2
  = Z.of_nat (length (filter (λ q1, existsb (questionMatches q1) qs2 = true) qs1))
  ∧ 0 ≤ matchCount qs1 qs2 ≤ Z.of_nat (length qs1).
Proof.
  split; [apply matchCount_filter|].
  rewrite matchCount_filter.
  pose proof (length_filter (λ q1, existsb (questionMatches q1) qs2 = true) qs1).
  lia.
Qed.

(** C8, the claim as it is written fails: one question of the second quiz
    is counted for two questions of the first, and the count is above the
    number of questions of the second quiz, in a pair that the third pass
    compares. *)
Lemma matchCount_double_counting_counterexample :
  let qs1 := [Examples.question "p1" "x"; Examples.question "p2" "x"] in
  let qs2 := [Examples.question "p3" "x"] in
  matchCount qs1 qs2 = 2
  ∧ Z.of_nat (length qs2) < matchCount qs1 qs2
  ∧ similarQuestions (Examples.quiz 1 None "t" qs1 None None)
                     (Examples.quiz 2 None "t" qs2 None None) = true.
Proof. vm_compute. repeat split. Qed.

(** ** Lists: first match and ordered pairs *)

Lemma find_app_cons {A} (f : A → bool) (l1 l2 : list A) (x : A) :
  Forall (λ y, f y = false) l1 → f x = true →
  find f (l1 ++ x :: l2) = Some x.
Proof.
  induction 1 as [|y l1 Hy _ IH]; intros Hx; simpl.
  - by rewrite Hx.
  - rewrite Hy. by apply IH.
Qed.

Lemma find_Some_split {A} (f : A → bool) (l : list A) (x : A) :
  find f l = Some x →
  ∃ l1 l2, l = l1 ++ x :: l2 ∧ Forall (λ y, f y = false) l1 ∧ f x = true.
Proof.
  induction l as [|y l IH]; simpl; [done|].
  destruct (f y) eqn:Hy.
  - intros [= ->]. exists [], l. by repeat split.
  - intros (l1 & l2 & -> & Hl1 & Hx)%IH.
    exists (y :: l1), l2. repeat split; [|done]. by constructor.
Qed.

Lemma find_None_Forall {A} (f : A → bool) (l : list A) :
  find f l = None ↔ Forall (λ y, f y = false) l.
Proof.
  induction l as [|y l IH]; simpl; [by split; [constructor|]|].
  destruct (f y) eqn:Hy.
  - split; [done|]. intros [? _]%Forall_cons. congruence.
  - rewrite IH. split; [by constructor|]. by intros [_ ?]%Forall_cons.
Qed.

Lemma OrdPairs_split {A} (R : A → A → Prop) l1 a l2 b l3 :
  OrdPairs R (l1 ++ a :: l2 ++ b :: l3) → R a b.
Proof.
  induction l1 as [|x l1 IH]; simpl; inversion 1 as [|? ? Hall Hrest]; subst.
  - rewrite Forall_app, Forall_cons in Hall. tauto.
  - by apply IH.
Qed.

Lemma OrdPairs_intro {A} (R : A → A → Prop) l :
  (∀ l1 a l2 b l3, l = l1 ++ a :: l2 ++ b :: l3 → R a b) → OrdPairs R l.
Proof.
  induction l as [|x l IH]; intros H; constructor.
  - apply Forall_forall. intros b (l2 & l3 & ->)%list_elem_of_split.
    by apply (H [] x l2 b l3).
  - apply IH. intros l1 a l2 b l3 ->. by apply (H (x :: l1) a l2 b l3).
Qed.

Lemma OrdPairs_impl {A} (R R' : A → A → Prop) l :
  OrdPairs R l → (∀ a b, a ∈ l → b ∈ l → R a b → R' a b) → OrdPairs R' l.
Proof.
  induction 1 as [|a l Hall _ IH]; intros H; constructor.
  - rewrite Forall_forall in *. intros b Hb.
    apply H; [left|by right|by apply Hall].
  - apply IH. intros ? ? ? ?. apply H; by right.
Qed.

Lemma OrdPairs_filter {A} (R : A → A → Prop) (P : A → Prop)
    `{∀ x, Decision (P x)} l :
  OrdPairs (λ a b, P a → P b → R a b) l → OrdPairs R (filter P l).
Proof.
  induction 1 as [|a l Hall _ IH]; [constructor|].
  rewrite filter_cons. case_decide; [|done]. constructor; [|done].
  apply Forall_forall. intros b [Hb Hin]%list_elem_of_filter.
  rewrite Forall_forall in Hall. by apply Hall.
Qed.

Lemma OrdPairs_singleton {A} (R : A → A → Prop) l :
  (length l ≤ 1)%nat → OrdPairs R l.
Proof.
  destruct l as [|a [|b l]]; simpl; intros; try lia;
    repeat constructor.
Qed.

(** ** Insertion-ordered maps *)
Section JsMapFacts.
Context {K V : Type} `{EqDecision K}.
Implicit Types (m : list (K * V)) (k : K) (v : V).

Lemma JsMap_get_elem_of k v m : JsMap.get k m = Some v → (k, v) ∈ m.
Proof.
  unfold JsMap.get. destruct (find _ m) as [[k' v']|] eqn:Hf; [|done].
  intros [= <-]. apply find_Some_split in Hf as (l1 & l2 & -> & _ & Hk).
  apply bool_decide_eq_true in Hk. simpl in Hk. subst.
  apply elem_of_app. right. left.
Qed.

Lemma JsMap_get_None k m : JsMap.get k m = None ↔ k ∉ JsMap.keys m.
Proof.
  unfold JsMap.get, JsMap.keys.
  destruct (find _ m) as [p|] eqn:Hf; simpl.
  - split; [done|]. intros Hk. exfalso. apply Hk.
    apply find_Some_split in Hf as (l1 & l2 & -> & _ & Hp).
    apply bool_decide_eq_true in Hp. subst.
    rewrite fmap_app, fmap_cons. apply elem_of_app. right. left.
  - split; [|done]. intros _ (p & -> & Hp)%list_elem_of_fmap.
    apply find_None_Forall in Hf. rewrite Forall_forall in Hf.
    apply Hf in Hp. by apply bool_decide_eq_false in Hp.
Qed.

Lemma JsMap_get_split k v m1 m2 :
  k ∉ JsMap.keys m1 → JsMap.get k (m1 ++ (k, v) :: m2) = Some v.
Proof.
  intros Hk. unfold JsMap.get. rewrite find_app_cons; [done| |].
  - apply Forall_forall. intros p Hp. apply bool_decide_eq_false.
    intros <-. apply Hk. by apply list_elem_of_fmap_2.
  - by apply bool_decide_eq_true.
Qed.

Lemma JsMap_get_NoDup k v m :
  NoDup (JsMap.keys m) → (k, v) ∈ m → JsMap.get k m = Some v.
Proof.
  intros Hnd (m1 & m2 & ->)%list_elem_of_split.
  apply JsMap_get_split.
  unfold JsMap.keys in Hnd. rewrite fmap_app, fmap_cons in Hnd.
  apply NoDup_app in Hnd as (_ & Hnd & _).
  intros Hk. apply (Hnd _ Hk). left.
Qed.

Lemma JsMap_set_fresh k v m :
  k ∉ JsMap.keys m → JsMap.set k v m = m ++ [(k, v)].
Proof.
  induction m as [|p m IH]; simpl; [done|].
  intros Hk. rewrite decide_False.
  - f_equal. apply IH. intros ?. apply Hk. by right.
  - intros Hp. apply Hk. rewrite <- Hp. left.
Qed.

Lemma JsMap_set_split k v v0 m1 m2 :
  k ∉ JsMap.keys m1 →
  JsMap.set k v (m1 ++ (k, v0) :: m2) = m1 ++ (k, v) :: m2.
Proof.
  induction m1 as [|p m1 IH]; simpl; intros Hk.
  - by rewrite decide_True.
  - rewrite decide_False.
    + f_equal. apply IH. intros ?. apply Hk. by right.
    + intros Hp. apply Hk. rewrite <- Hp. left.
Qed.

Lemma JsMap_has_true k m : JsMap.has k m = true ↔ k ∈ JsMap.keys m.
Proof.
  unfold JsMap.has. rewrite bool_decide_eq_true.
  destruct (JsMap.get k m) as [v|] eqn:Hg.
  - split; [|by eauto]. intros _. apply JsMap_get_elem_of in Hg.
    by apply (list_elem_of_fmap_2 fst) in Hg.
  - apply JsMap_get_None in Hg. split; [by intros [? ?]|done].
Qed.
End JsMapFacts.

Section JsMapMore.
Context {K V : Type} `{EqDecision K}.
Implicit Types (m : list (K * V)) (k : K) (v : V).

Lemma JsMap_get_Some_split k v m :
  JsMap.get k m = Some v →
  ∃ m1 m2, m = m1 ++ (k, v) :: m2 ∧ k ∉ JsMap.keys m1.
Proof.
  unfold JsMap.get. destruct (find _ m) as [[k' v']|] eqn:Hf; [|done].
  intros [= <-]. apply find_Some_split in Hf as (m1 & m2 & -> & Hm1 & Hk).
  apply bool_decide_eq_true in Hk. simpl in Hk. subst k'.
  exists m1, m2. split; [done|].
  intros (p & -> & Hp)%list_elem_of_fmap.
  rewrite Forall_forall in Hm1. apply Hm1 in Hp.
  by apply bool_decide_eq_false in Hp.
Qed.

Lemma JsMap_filter_absent k m :
  k ∉ JsMap.keys m → filter (λ p, p.1 ≠ k) m = m.
Proof.
  unfold JsMap.keys. induction m as [|p m IH]; [done|].
  rewrite fmap_cons. intros Hp. rewrite filter_cons_True.
  - f_equal. apply IH. intros ?. apply Hp. by right.
  - intros Hk. apply Hp. rewrite <- Hk. left.
Qed.

Lemma JsMap_delete_length k m :
  NoDup (JsMap.keys m) →
  length m
  = (length (JsMap.delete k m).1 + (if (JsMap.delete k m).2 then 1 else 0))%nat.
Proof.
  unfold JsMap.delete. simpl. intros Hnd.
  destruct (JsMap.has k m) eqn:Hhas.
  - apply JsMap_has_true in Hhas.
    apply list_elem_of_fmap in Hhas as ([k' v] & -> & Hin). simpl.
    apply list_elem_of_split in Hin as (m1 & m2 & ->).
    unfold JsMap.keys in Hnd. rewrite fmap_app, fmap_cons in Hnd.
    apply NoDup_app in Hnd as (_ & H1 & [H2 _]%NoDup_cons).
    rewrite filter_app, filter_cons_False by (simpl; tauto).
    rewrite !length_app. simpl.
    rewrite !JsMap_filter_absent; [lia|done|].
    intros Hk. apply (H1 _ Hk). left.
  - rewrite JsMap_filter_absent; [lia|].
    intros Hk%JsMap_has_true. congruence.
Qed.

Lemma JsMap_keys_filter (P : K * V → Prop) `{∀ p, Decision (P p)} m :
  NoDup (JsMap.keys m) → NoDup (JsMap.keys (filter P m)).
Proof.
  unfold JsMap.keys. induction m as [|p m IH]; [done|].
  rewrite fmap_cons, NoDup_cons. intros [Hp Hnd].
  rewrite filter_cons. case_decide; [|by apply IH].
  rewrite fmap_cons, NoDup_cons. split; [|by apply IH].
  intros (q & Hq & [_ Hin]%list_elem_of_filter)%list_elem_of_fmap.
  apply Hp. rewrite Hq. by apply list_elem_of_fmap_2.
Qed.
End JsMapMore.

(** ** Stores

    [wf] holds of [new MemStorage()] and every operation keeps it:
    [createQuiz], [updateQuiz], [deleteQuiz], [deletePrivateQuizzes],
    [syncQuizzes] and [removeDuplicateQuizzes] (the lemmas [wf_...]). *)

Lemma wf_newMemStorage : wf newMemStorage.
Proof.
  split; simpl.
  - apply NoDup_nil_2.
  - by intros ? ? ?%elem_of_nil.
  - by intros ? ?%elem_of_nil.
Qed.

Lemma wf_filter (P : Z * Quiz.t → Prop) `{∀ p, Decision (P p)} s :
  wf s →
  wf {| quizCollection := filter P (quizCollection s);
        quizCurrentId := quizCurrentId s |}.
Proof.
  intros [Hnd Hkey Hfresh]. split; simpl.
  - by apply JsMap_keys_filter.
  - intros k quiz [_ Hin]%list_elem_of_filter. by apply Hkey.
  - intros k (p & -> & [_ Hin]%list_elem_of_filter)%list_elem_of_fmap.
    apply Hfresh. by apply list_elem_of_fmap_2.
Qed.

Lemma deleteQuiz_collection s k :
  (deleteQuiz s k).1
  = {| quizCollection := filter (λ p, p.1 ≠ k) (quizCollection s);
       quizCurrentId := quizCurrentId s |}.
Proof. done. Qed.

Lemma wf_deleteQuiz s k : wf s → wf (deleteQuiz s k).1.
Proof. rewrite deleteQuiz_collection. apply wf_filter. Qed.

Lemma deleteStep_eq s n quiz :
  deleteStep (s, n) quiz
  = ({| quizCollection :=
          filter (λ p, p.1 ≠ Quiz.id quiz) (quizCollection s);
        quizCurrentId := quizCurrentId s |},
     if JsMap.has (Quiz.id quiz) (quizCollection s) then n + 1 else n).
Proof. done. Qed.

Lemma deleteEach_fold l s n :
  let r := fold_left deleteStep l (s, n) in
  quizCollection r.1 = filter (λ p, p.1 ∉ Quiz.id <$> l) (quizCollection s)
  ∧ quizCurrentId r.1 = quizCurrentId s
  ∧ (NoDup (JsMap.keys (quizCollection s)) →
     r.2 = n + Z.of_nat (length (quizCollection s))
             - Z.of_nat (length (quizCollection r.1))).
Proof.
  revert s n. induction l as [|quiz l IH]; intros s n; cbn [fold_left].
  - cbn. split; [|split; [done|lia]].
    symmetry. induction (quizCollection s) as [|p m IHm]; [done|].
    rewrite filter_cons_True; [by f_equal|]. by intros ?%elem_of_nil.
  - rewrite deleteStep_eq.
    specialize (IH {| quizCollection := filter (λ p, p.1 ≠ Quiz.id quiz) (quizCollection s);
                      quizCurrentId := quizCurrentId s |}
                   (if JsMap.has (Quiz.id quiz) (quizCollection s) then n + 1 else n)).
    cbn zeta in *. cbn [quizCollection quizCurrentId] in IH.
    destruct IH as (Hc & Hi & Hn).
    split; [|split; [done|]].
    + rewrite Hc, list_filter_filter. apply list_filter_iff.
      intros p. rewrite fmap_cons, elem_of_cons. tauto.
    + intros Hnd. rewrite Hn by by apply JsMap_keys_filter.
      pose proof (JsMap_delete_length (Quiz.id quiz) _ Hnd) as Hlen.
      unfold JsMap.delete in Hlen. simpl in Hlen.
      destruct (JsMap.has _ _); lia.
Qed.

Lemma deleteEach_spec l s :
  (deleteEach l s).1
  = {| quizCollection := filter (λ p, p.1 ∉ Quiz.id <$> l) (quizCollection s);
       quizCurrentId := quizCurrentId s |}
  ∧ (NoDup (JsMap.keys (quizCollection s)) →
     (deleteEach l s).2
     = Z.of_nat (length (quizCollection s))
       - Z.of_nat (length (quizCollection (deleteEach l s).1))).
Proof.
  destruct (deleteEach_fold l s 0) as (Hc & Hi & Hn). fold (deleteEach l s) in *.
  cbn zeta in *.
  split.
  - destruct (deleteEach l s).1 as [c i]. simpl in *. by subst.
  - intros Hnd. rewrite Hn by done. lia.
Qed.

Lemma wf_deleteEach l s : wf s → wf (deleteEach l s).1.
Proof. rewrite (proj1 (deleteEach_spec l s)). apply wf_filter. Qed.

Lemma filter_ext_elem {A} (P Q : A → Prop)
    `{∀ x, Decision (P x)} `{∀ x, Decision (Q x)} (l : list A) :
  (∀ x, x ∈ l → P x ↔ Q x) → filter P l = filter Q l.
Proof.
  induction l as [|x l IH]; intros HPQ; [done|].
  rewrite !filter_cons.
  assert (P x ↔ Q x) as Hx by (apply HPQ; left).
  rewrite IH by (intros; apply HPQ; by right).
  repeat case_decide; tauto.
Qed.

Lemma wf_lookup_unique s k q q' :
  wf s → (k, q) ∈ quizCollection s → (k, q') ∈ quizCollection s → q = q'.
Proof.
  intros [Hnd _ _] H1 H2.
  apply (JsMap_get_NoDup _ _ _ Hnd) in H1, H2. congruence.
Qed.

Lemma elem_of_values s q :
  wf s → q ∈ JsMap.values (quizCollection s) ↔ (Quiz.id q, q) ∈ quizCollection s.
Proof.
  intros Hwf. unfold JsMap.values. rewrite list_elem_of_fmap. split.
  - intros ([k q'] & -> & Hin). simpl.
    by rewrite (wf_key _ Hwf _ _ Hin).
  - intros Hin. by exists (Quiz.id q, q).
Qed.

Lemma values_filter (P : Z * Quiz.t → Prop) (Q : Quiz.t → Prop)
    `{∀ p, Decision (P p)} `{∀ q, Decision (Q q)} (m : list (Z * Quiz.t)) :
  (∀ p, p ∈ m → P p ↔ Q p.2) →
  JsMap.values (filter P m) = filter Q (JsMap.values m).
Proof.
  unfold JsMap.values. induction m as [|p m IH]; intros HPQ; [done|].
  rewrite fmap_cons, !filter_cons.
  assert (P p ↔ Q p.2) as Hp by (apply HPQ; left).
  rewrite <- IH by (intros; apply HPQ; by right).
  repeat case_decide; tauto || done.
Qed.

Lemma NoDup_values_id s :
  wf s → NoDup (Quiz.id <$> JsMap.values (quizCollection s)).
Proof.
  intros [Hnd Hkey _]. unfold JsMap.values, JsMap.keys in *.
  assert (Quiz.id <$> (quizCollection s).*2 = (quizCollection s).*1) as ->;
    [|done].
  clear Hnd. induction (quizCollection s) as [|[k q] m IH]; [done|].
  rewrite !fmap_cons. simpl. f_equal.
  - apply Hkey. left.
  - apply IH. intros. apply Hkey. by right.
Qed.

Section StoreFacts.
Context (host : Host).

Lemma deletePrivateQuizzes_spec s :
  wf s →
  (deletePrivateQuizzes s).1
  = {| quizCollection :=
         filter (λ p, Js.truthyBool (Quiz.isPublic p.2) = true)
                (quizCollection s);
       quizCurrentId := quizCurrentId s |}.
Proof.
  intros Hwf. unfold deletePrivateQuizzes.
  rewrite (proj1 (deleteEach_spec _ s)). f_equal.
  apply filter_ext_elem. intros [k q] Hin. simpl.
  rewrite list_elem_of_fmap. split.
  - intros Hk. destruct (Js.truthyBool (Quiz.isPublic q)) eqn:Hq; [done|].
    exfalso. apply Hk. exists q. split.
    + symmetry. by apply (wf_key _ Hwf).
    + apply list_elem_of_filter. split; [done|].
      by apply (list_elem_of_fmap_2 snd) in Hin.
  - intros Hq (q' & -> & [Hq' Hin']%list_elem_of_filter).
    apply elem_of_values in Hin'; [|done].
    rewrite (wf_lookup_unique _ _ _ _ Hwf Hin Hin') in Hq. congruence.
Qed.

Lemma createQuiz_collection s quiz :
  wf s →
  quizCollection (createQuiz host s quiz).1
  = quizCollection s ++ [(quizCurrentId s, (createQuiz host s quiz).2)].
Proof.
  intros Hwf. simpl. apply JsMap_set_fresh.
  intros Hk%(wf_fresh _ Hwf). lia.
Qed.

Lemma createQuiz_id s quiz :
  Quiz.id (createQuiz host s quiz).2 = quizCurrentId s
  ∧ quizCurrentId (createQuiz host s quiz).1 = quizCurrentId s + 1.
Proof. done. Qed.

Lemma wf_createQuiz s quiz : wf s → wf (createQuiz host s quiz).1.
Proof.
  intros Hwf. pose proof (createQuiz_collection s quiz Hwf) as Hc.
  destruct (createQuiz_id s quiz) as [Hid Hcur].
  destruct Hwf as [Hnd Hkey Hfresh]. split; rewrite Hc.
  - unfold JsMap.keys in *. rewrite fmap_app. apply NoDup_app.
    split; [done|]. split; [|apply NoDup_singleton].
    intros k Hk%Hfresh [= ->]%list_elem_of_singleton. lia.
  - intros k q [Hin|Hin%list_elem_of_singleton]%elem_of_app.
    + by apply Hkey.
    + injection Hin as -> ->. done.
  - intros k. unfold JsMap.keys in *. rewrite fmap_app, elem_of_app, Hcur.
    intros [Hk%Hfresh|Hk%list_elem_of_singleton]; [lia|].
    simpl in Hk. lia.
Qed.

Lemma updateQuiz_split s id quizUpdate existingQuiz m1 m2 :
  quizCollection s = m1 ++ (id, existingQuiz) :: m2 →
  id ∉ JsMap.keys m1 →
  updateQuiz s id quizUpdate
  = ({| quizCollection := m1 ++ (id, updated existingQuiz quizUpdate) :: m2;
        quizCurrentId := quizCurrentId s |},
     Some (updated existingQuiz quizUpdate)).
Proof.
  intros Hc Hid. unfold updateQuiz. rewrite Hc.
  rewrite JsMap_get_split by done.
  by rewrite JsMap_set_split by done.
Qed.

Lemma wf_split_update s id q q' m1 m2 :
  wf s → quizCollection s = m1 ++ (id, q) :: m2 → Quiz.id q' = id →
  wf {| quizCollection := m1 ++ (id, q') :: m2;
        quizCurrentId := quizCurrentId s |}.
Proof.
  intros [Hnd Hkey Hfresh] Hc Hid. rewrite Hc in *.
  unfold JsMap.keys in *. rewrite fmap_app, fmap_cons in *.
  split; simpl; unfold JsMap.keys; rewrite ?fmap_app, ?fmap_cons; try done.
  intros k quiz. rewrite elem_of_app, elem_of_cons.
  intros [Hin|[[= -> ->]|Hin]]; [|done|].
  - apply Hkey. apply elem_of_app. by left.
  - apply Hkey. apply elem_of_app. right. by right.
Qed.

Lemma wf_updateQuiz s id quizUpdate : wf s → wf (updateQuiz s id quizUpdate).1.
Proof.
  intros Hwf. destruct (JsMap.get id (quizCollection s)) as [q|] eqn:Hg.
  - destruct (JsMap_get_Some_split _ _ _ Hg) as (m1 & m2 & Hc & Hid).
    rewrite (updateQuiz_split _ _ _ _ _ _ Hc Hid). simpl.
    apply (wf_split_update s id q _ m1 m2 Hwf Hc). simpl.
    apply (wf_key _ Hwf). rewrite Hc. apply elem_of_app. right. left.
  - unfold updateQuiz. by rewrite Hg.
Qed.
End StoreFacts.

Lemma fold_left_preserves {A S} (step : S → A → S) (I : S → Prop) l s :
  I s → (∀ s a, I s → I (step s a)) → I (fold_left step l s).
Proof.
  intros Hs Hstep. revert s Hs.
  induction l as [|a l IH]; intros s Hs; simpl; [done|]. apply IH. by apply Hstep.
Qed.

Lemma fold_left_preserves_mem {A S} (step : S → A → S) (I : S → Prop) l s :
  I s → (∀ s a, a ∈ l → I s → I (step s a)) → I (fold_left step l s).
Proof.
  revert s. induction l as [|a l IH]; intros s Hs Hstep; simpl; [done|].
  apply IH.
  - apply Hstep; [left|done].
  - intros s' a' Ha'. apply Hstep. by right.
Qed.

Lemma uidCount_app u m1 m2 :
  uidCount u (m1 ++ m2) = (uidCount u m1 + uidCount u m2)%nat.
Proof. unfold uidCount. by rewrite filter_app, length_app. Qed.

Lemma uidCount_cons u p m :
  uidCount u (p :: m)
  = ((if decide (Quiz.uniqueId p.2 = Some u) then 1 else 0) + uidCount u m)%nat.
Proof. unfold uidCount. rewrite filter_cons. by case_decide. Qed.

Lemma uidCount_filter u (P : Z * Quiz.t → Prop) `{∀ p, Decision (P p)} m :
  (uidCount u (filter P m) ≤ uidCount u m)%nat.
Proof.
  induction m as [|p m IH]; [done|].
  rewrite filter_cons. case_decide; rewrite !uidCount_cons; lia.
Qed.

Lemma uidCount_zero u m :
  uidCount u m = 0%nat ↔ Forall (λ p, Quiz.uniqueId p.2 ≠ Some u) m.
Proof.
  induction m as [|p m IH]; [by split; [constructor|]|].
  rewrite uidCount_cons, Forall_cons, <- IH. case_decide; split.
  - lia.
  - by intros [? _].
  - intros. split; [done|lia].
  - intros [_ ?]. lia.
Qed.

Section SyncFacts.
Context (host : Host).

Lemma getQuizByUniqueId_None s u :
  getQuizByUniqueId s u = None ↔ uidCount u (quizCollection s) = 0%nat.
Proof.
  unfold getQuizByUniqueId, JsMap.values.
  rewrite find_None_Forall, uidCount_zero, Forall_fmap.
  apply Forall_iff. intros p. simpl. by rewrite bool_decide_eq_false.
Qed.

Lemma getQuizByUniqueId_split s u k q m1 m2 :
  quizCollection s = m1 ++ (k, q) :: m2 →
  uidCount u m1 = 0%nat → Quiz.uniqueId q = Some u →
  getQuizByUniqueId s u = Some q.
Proof.
  intros Hc Hm1 Hq. unfold getQuizByUniqueId, JsMap.values.
  rewrite Hc, fmap_app, fmap_cons. simpl. apply find_app_cons.
  - apply uidCount_zero in Hm1. rewrite Forall_fmap.
    eapply Forall_impl; [done|]. intros p Hp. simpl.
    by apply bool_decide_eq_false.
  - by apply bool_decide_eq_true.
Qed.

Lemma getQuizByUniqueId_Some s u q :
  wf s → getQuizByUniqueId s u = Some q →
  ∃ m1 m2, quizCollection s = m1 ++ (Quiz.id q, q) :: m2
           ∧ Quiz.uniqueId q = Some u
           ∧ uidCount u m1 = 0%nat
           ∧ Quiz.id q ∉ JsMap.keys m1.
Proof.
  intros Hwf Hf. unfold getQuizByUniqueId, JsMap.values in Hf.
  apply find_Some_split in Hf as (l1 & l2 & Hl & Hl1 & Hq).
  apply bool_decide_eq_true in Hq.
  apply fmap_app_inv in Hl as (m1 & m' & -> & Hm' & Hc).
  symmetry in Hm'. apply fmap_cons_inv in Hm' as ([k q'] & m2 & Hq' & -> & ->).
  simpl in Hq'. subst q'.
  assert (Quiz.id q = k) as <-.
  { apply (wf_key _ Hwf). rewrite Hc. apply elem_of_app. right. left. }
  exists m1, m2. repeat split; [done..| |].
  - apply uidCount_zero. rewrite Forall_fmap in Hl1.
    eapply Forall_impl; [done|]. intros p Hp. simpl in Hp.
    by apply bool_decide_eq_false in Hp.
  - destruct Hwf as [Hnd _ _]. unfold JsMap.keys in *.
    rewrite Hc, fmap_app, fmap_cons in Hnd.
    apply NoDup_app in Hnd as (_ & Hnd & _).
    intros Hk. apply (Hnd _ Hk). left.
Qed.

Lemma wf_syncPublicStep s quiz : wf s → wf (syncPublicStep host s quiz).
Proof.
  intros Hwf. unfold syncPublicStep.
  destruct (Js.whenTruthy _) as [u|]; [|done].
  destruct (getQuizByUniqueId s u); [by apply wf_updateQuiz|].
  by apply wf_createQuiz.
Qed.

Lemma wf_syncPrivateStep s quiz : wf s → wf (syncPrivateStep s quiz).
Proof.
  intros Hwf. unfold syncPrivateStep.
  destruct (negb _); [|done].
  destruct (Js.whenTruthy _) as [u|]; [|done].
  destruct (getQuizByUniqueId s u); [by apply wf_deleteQuiz|done].
Qed.

Lemma wf_deletePrivateQuizzes s : wf s → wf (deletePrivateQuizzes s).1.
Proof. intros Hwf. by apply wf_deleteEach. Qed.

Lemma wf_syncQuizzes s batch : wf s → wf (syncQuizzes host s batch).1.
Proof.
  intros Hwf. unfold syncQuizzes. simpl. apply wf_deletePrivateQuizzes.
  apply fold_left_preserves; [|intros; by apply wf_syncPrivateStep].
  apply fold_left_preserves; [done|intros; by apply wf_syncPublicStep].
Qed.

(** The first loop never makes a second record for a [uniqueId]. *)
Lemma uidCount_syncPublicStep u s quiz :
  wf s → (uidCount u (quizCollection s) ≤ 1)%nat →
  (uidCount u (quizCollection (syncPublicStep host s quiz)) ≤ 1)%nat.
Proof.
  intros Hwf Hu. unfold syncPublicStep.
  destruct (Js.whenTruthy _) as [u'|] eqn:Hu'; [|done].
  apply whenTruthy_Some in Hu' as [Hu' Hne].
  destruct (getQuizByUniqueId s u') as [q|] eqn:Hg.
  - apply getQuizByUniqueId_Some in Hg as (m1 & m2 & Hc & Hq & _ & Hid); [|done].
    rewrite (updateQuiz_split _ _ _ _ _ _ Hc Hid). simpl.
    rewrite Hc in Hu. rewrite uidCount_app, uidCount_cons in *. simpl in *.
    rewrite Hu'. simpl. by rewrite <- Hq.
  - apply getQuizByUniqueId_None in Hg.
    rewrite createQuiz_collection by done.
    rewrite uidCount_app, uidCount_cons. simpl.
    assert (Js.truthyStr (InsertQuiz.uniqueId quiz) = true) as ->.
    { rewrite Hu'. simpl. apply negb_true_iff. by apply bool_decide_eq_false. }
    rewrite Hu'. case_decide as Heq; [|unfold uidCount at 2; simpl; lia].
    injection Heq as ->. rewrite Hg. unfold uidCount. simpl. lia.
Qed.

Lemma uidCount_syncPrivateStep u s quiz :
  (uidCount u (quizCollection (syncPrivateStep s quiz))
   ≤ uidCount u (quizCollection s))%nat.
Proof.
  unfold syncPrivateStep.
  destruct (negb _); [|done].
  destruct (Js.whenTruthy _) as [u'|]; [|done].
  destruct (getQuizByUniqueId s u'); [|done].
  rewrite deleteQuiz_collection. simpl. apply uidCount_filter.
Qed.

(** The second loop on a private quiz with the [uniqueId] [u], when at
    most one stored record carries [u]. *)
Lemma uidCount_syncPrivateStep_hit u s quiz :
  wf s → (uidCount u (quizCollection s) ≤ 1)%nat →
  Js.truthyBool (InsertQuiz.isPublic quiz) = false →
  Js.whenTruthy (InsertQuiz.uniqueId quiz) = Some u →
  uidCount u (quizCollection (syncPrivateStep s quiz)) = 0%nat.
Proof.
  intros Hwf Hu Hp Hq. unfold syncPrivateStep. rewrite Hp, Hq. simpl.
  destruct (getQuizByUniqueId s u) as [q|] eqn:Hg.
  - apply getQuizByUniqueId_Some in Hg as (m1 & m2 & Hc & Hqu & Hm1 & Hid);
      [|done].
    simpl. rewrite Hc in *.
    rewrite filter_app, filter_cons_False by (simpl; tauto).
    rewrite uidCount_app, uidCount_cons in Hu. simpl in Hu.
    rewrite decide_True in Hu by done.
    rewrite uidCount_app.
    pose proof (uidCount_filter u (λ p, p.1 ≠ Quiz.id q) m1).
    pose proof (uidCount_filter u (λ p, p.1 ≠ Quiz.id q) m2). lia.
  - by apply getQuizByUniqueId_None.
Qed.
End SyncFacts.

(** ** Updates and the creation date *)

(** C9 (as amended).  An update keeps the stored [createdAt] when it
    carries no [createdAt] and stores its own [createdAt] when it carries
    one; the same holds for the update that [syncQuizzes] applies to the
    record it finds by [uniqueId], where the submitted quiz is the update. *)
Theorem updateQuiz_createdAt (s : MemStorage) (id : Z)
    (quizUpdate : QuizUpdate.t) (existingQuiz : Quiz.t) :
  getQuiz s id = Some existingQuiz →
  (∃ s' updatedQuiz,
     updateQuiz s id quizUpdate = (s', Some updatedQuiz)
     ∧ getQuiz s' id = Some updatedQuiz
     ∧ Quiz.createdAt updatedQuiz
       = match QuizUpdate.createdAt quizUpdate with
         | Some d => Some d
         | None => Quiz.createdAt existingQuiz
         end)
  ∧ (∀ host quizToSync u,
       Js.whenTruthy (InsertQuiz.uniqueId quizToSync) = Some u →
       getQuizByUniqueId s u = Some existingQuiz →
       Quiz.id existingQuiz = id →
       ∃ updatedQuiz,
         getQuiz (syncPublicStep host s quizToSync) id = Some updatedQuiz
         ∧ Quiz.createdAt updatedQuiz
           = match InsertQuiz.createdAt quizToSync with
             | Some d => Some d
             | None => Quiz.createdAt existingQuiz
             end).
Proof.
  intros Hg. unfold getQuiz in Hg.
  destruct (JsMap_get_Some_split _ _ _ Hg) as (m1 & m2 & Hc & Hid).
  split.
  - eexists _, _. rewrite (updateQuiz_split _ _ _ _ _ _ Hc Hid).
    split; [done|]. split; [|done].
    unfold getQuiz. simpl. by apply JsMap_get_split.
  - intros host quizToSync u Hu Hf <-. unfold syncPublicStep. rewrite Hu, Hf.
    rewrite (updateQuiz_split _ _ _ _ _ _ Hc Hid). simpl.
    eexists. split; [unfold getQuiz; simpl; by apply JsMap_get_split|done].
Qed.

Lemma updateQuiz_createdAt_witness :
  let s := Examples.store [Examples.quiz 1 (Some "u1") "t" [] (Some 1) (Some 7)] 2 in
  ∃ q, getQuiz (updateQuiz s 1 Examples.noUpdate).1 1 = Some q
       ∧ Quiz.createdAt q = Some 7.
Proof.
  intros s.
  destruct (updateQuiz_createdAt s 1 Examples.noUpdate
              (Examples.quiz 1 (Some "u1") "t" [] (Some 1) (Some 7)) eq_refl)
    as [(s' & q & Hu & Hg & Hc) _].
  exists q. rewrite Hu. by split.
Defined.

(** C9, the claim as it is written fails: a record is created, the same
    quiz is synchronised again with another [createdAt], and the stored
    [createdAt] is the new one.  Through the handler of the sync route the
    same happens for a quiz that is sent without [createdAt]: the stored
    [createdAt] becomes the time of the request. *)
Lemma createdAt_overwritten_counterexample :
  let quiz := Examples.submitted (Some "u1") "Quiz" [] true in
  let s0 := (createQuiz Examples.host newMemStorage quiz).1 in
  let s1 := (syncQuizzes Examples.host s0 [Examples.withCreatedAt 5 quiz]).1 in
  let s2 := (syncRoute Examples.host (λ _, 2000) s0 [quiz]).1 in
  Quiz.createdAt <$> getQuizByUniqueId s0 "u1" = Some (Some 1001)
  ∧ Quiz.createdAt <$> getQuizByUniqueId s1 "u1" = Some (Some 5)
  ∧ Quiz.createdAt <$> getQuizByUniqueId s2 "u1" = Some (Some 2000).
Proof. vm_compute. by repeat split. Qed.

(** ** Synchronisation *)

Section SyncTheorems.
Context (host : Host).

Lemma syncQuizzes_stored_public s batch quiz :
  wf s →
  quiz ∈ getAllQuizzes (syncQuizzes host s batch).1 →
  Quiz.isPublic quiz = Some true.
Proof.
  intros Hwf. unfold syncQuizzes, getAllQuizzes. simpl.
  rewrite deletePrivateQuizzes_spec.
  - simpl. unfold JsMap.values.
    intros ([k q] & -> & [Hq _]%list_elem_of_filter)%list_elem_of_fmap.
    simpl in *. by destruct (Quiz.isPublic q) as [[]|].
  - apply fold_left_preserves; [|intros; by apply wf_syncPrivateStep].
    apply fold_left_preserves; [done|intros; by apply wf_syncPublicStep].
Qed.

Lemma sync_private_uid_removed s batch quizToSync u :
  wf s →
  quizToSync ∈ batch →
  InsertQuiz.isPublic quizToSync = Some false →
  InsertQuiz.uniqueId quizToSync = Some u → u ≠ EmptyString →
  (uidCount u (quizCollection s) ≤ 1)%nat →
  getQuizByUniqueId (syncQuizzes host s batch).1 u = None.
Proof.
  intros Hwf (b1 & b2 & Hb)%list_elem_of_split Hp Hu Hne Hcount.
  apply getQuizByUniqueId_None. unfold syncQuizzes. simpl.
  set (s1 := fold_left (syncPublicStep host) _ s).
  assert (wf s1 ∧ (uidCount u (quizCollection s1) ≤ 1)%nat) as [Hwf1 Hc1].
  { apply (fold_left_preserves _
      (λ s, wf s ∧ (uidCount u (quizCollection s) ≤ 1)%nat)); [done|].
    intros s' q [? ?]. split; [by apply wf_syncPublicStep|].
    by apply uidCount_syncPublicStep. }
  unfold deletePrivateQuizzes.
  rewrite (proj1 (deleteEach_spec _ _)). simpl.
  eapply Nat.le_antisymm; [|lia].
  etrans; [apply uidCount_filter|].
  rewrite Hb, fold_left_app. simpl.
  set (s2 := fold_left syncPrivateStep b1 s1).
  assert (wf s2 ∧ (uidCount u (quizCollection s2) ≤ 1)%nat) as [Hwf2 Hc2].
  { apply (fold_left_preserves _
      (λ s, wf s ∧ (uidCount u (quizCollection s) ≤ 1)%nat)); [done|].
    intros s' q [? ?]. split; [by apply wf_syncPrivateStep|].
    etrans; [apply uidCount_syncPrivateStep|done]. }
  apply (fold_left_preserves _
    (λ s, (uidCount u (quizCollection s) ≤ 0)%nat)).
  - rewrite (uidCount_syncPrivateStep_hit u s2 quizToSync); try done.
    + by rewrite Hp.
    + apply whenTruthy_Some. by split.
  - intros s' q ?. etrans; [apply uidCount_syncPrivateStep|done].
Qed.

(** C3 (as amended).  After [syncQuizzes] every stored record is public;
    and when the batch has a private quiz with the [uniqueId] [u], and at
    most one stored record carried [u] before, no stored record carries
    [u] afterwards. *)
Theorem syncQuizzes_private (s : MemStorage) (batch : list InsertQuiz.t) :
  wf s →
  (∀ quiz, quiz ∈ getAllQuizzes (syncQuizzes host s batch).1 →
           Quiz.isPublic quiz = Some true)
  ∧ (∀ quizToSync u,
       quizToSync ∈ batch →
       InsertQuiz.isPublic quizToSync = Some false →
       InsertQuiz.uniqueId quizToSync = Some u → u ≠ EmptyString →
       (uidCount u (quizCollection s) ≤ 1)%nat →
       getQuizByUniqueId (syncQuizzes host s batch).1 u = None).
Proof.
  intros Hwf. split.
  - intros quiz. by apply syncQuizzes_stored_public.
  - intros quizToSync u. by apply sync_private_uid_removed.
Qed.

(** [syncQuizzes] on a batch of one public quiz. *)
Lemma syncQuizzes_singleton_public s quiz :
  InsertQuiz.isPublic quiz = Some true →
  (syncQuizzes host s [quiz]).1
  = (deletePrivateQuizzes (syncPublicStep host s quiz)).1.
Proof.
  intros Hp. unfold syncQuizzes. simpl.
  rewrite filter_cons_True, filter_nil by done. simpl.
  unfold syncPrivateStep at 1. by rewrite Hp.
Qed.

Lemma syncQuizzes_create s u quiz :
  wf s → u ≠ EmptyString →
  getQuizByUniqueId s u = None →
  InsertQuiz.isPublic quiz = Some true →
  InsertQuiz.uniqueId quiz = Some u →
  getQuizByUniqueId (syncQuizzes host s [quiz]).1 u
  = Some (createQuiz host s quiz).2.
Proof.
  intros Hwf Hne Hnone Hp Hu.
  rewrite syncQuizzes_singleton_public by done.
  unfold syncPublicStep.
  rewrite (proj2 (whenTruthy_Some _ u)) by done. rewrite Hnone.
  rewrite deletePrivateQuizzes_spec by by apply wf_createQuiz.
  eapply getQuizByUniqueId_split.
  - cbn [quizCollection]. rewrite createQuiz_collection by done.
    rewrite filter_app, filter_cons_True, filter_nil; [done|].
    simpl. by rewrite Hp.
  - apply getQuizByUniqueId_None in Hnone.
    pose proof (uidCount_filter u
      (λ p, Js.truthyBool (Quiz.isPublic p.2) = true) (quizCollection s)).
    lia.
  - simpl. rewrite Hu. simpl.
    by rewrite bool_decide_eq_false_2.
Qed.

Lemma syncQuizzes_update s u quiz existingQuiz :
  wf s →
  getQuizByUniqueId s u = Some existingQuiz →
  InsertQuiz.isPublic quiz = Some true →
  Js.whenTruthy (InsertQuiz.uniqueId quiz) = Some u →
  getQuizByUniqueId (syncQuizzes host s [quiz]).1 u
  = Some (updated existingQuiz (QuizUpdate.ofInsert quiz)).
Proof.
  intros Hwf Hg Hp Hu.
  rewrite syncQuizzes_singleton_public by done.
  unfold syncPublicStep. rewrite Hu, Hg.
  rewrite deletePrivateQuizzes_spec by by apply wf_updateQuiz.
  apply getQuizByUniqueId_Some in Hg as (m1 & m2 & Hc & Hq & Hm1 & Hid);
    [|done].
  rewrite (updateQuiz_split _ _ _ _ _ _ Hc Hid).
  apply whenTruthy_Some in Hu as [Hu _].
  eapply getQuizByUniqueId_split.
  - simpl. rewrite filter_app, filter_cons_True; [done|].
    simpl. by rewrite Hp.
  - pose proof (uidCount_filter u
      (λ p, Js.truthyBool (Quiz.isPublic p.2) = true) m1). lia.
  - simpl. by rewrite Hu.
Qed.

(** C2.  A public quiz with the [uniqueId] [u] and no version is
    synchronised into a store that has no record with [u]: the record
    then found by [u] has version 1.  A second synchronisation of a
    public quiz with the same [uniqueId] leaves a record with version 2
    and the title of that second quiz. *)
Theorem syncQuizzes_version (s : MemStorage) (u : string)
    (quiz quiz' : InsertQuiz.t) :
  wf s → u ≠ EmptyString →
  getQuizByUniqueId s u = None →
  InsertQuiz.isPublic quiz = Some true →
  InsertQuiz.uniqueId quiz = Some u →
  InsertQuiz.version quiz = None →
  InsertQuiz.isPublic quiz' = Some true →
  InsertQuiz.uniqueId quiz' = Some u →
  let s1 := (syncQuizzes host s [quiz]).1 in
  let s2 := (syncQuizzes host s1 [quiz']).1 in
  (∃ r1, getQuizByUniqueId s1 u = Some r1 ∧ Quiz.version r1 = Some 1)
  ∧ (∃ r2, getQuizByUniqueId s2 u = Some r2
           ∧ Quiz.version r2 = Some 2
           ∧ Quiz.title r2 = InsertQuiz.title quiz').
Proof.
  intros Hwf Hne Hnone Hp Hu Hv Hp' Hu' s1 s2.
  assert (getQuizByUniqueId s1 u = Some (createQuiz host s quiz).2) as H1
    by by apply syncQuizzes_create.
  split.
  - eexists. split; [done|]. simpl. by rewrite Hv.
  - eexists. split.
    + apply (syncQuizzes_update s1 u quiz' _ (wf_syncQuizzes host s _ Hwf) H1 Hp').
      apply whenTruthy_Some. by split.
    + simpl. by rewrite Hv.
Qed.
End SyncTheorems.

Lemma syncQuizzes_private_witness :
  let s := Examples.store [Examples.quiz 1 (Some "u1") "t" [] (Some 1) (Some 7)] 2 in
  getQuizByUniqueId
    (syncQuizzes Examples.host s [Examples.submitted (Some "u1") "t" [] false]).1
    "u1" = None.
Proof.
  intros s.
  assert (wf s) as Hwf.
  { split; simpl.
    - apply NoDup_singleton.
    - by intros k q [= -> ->]%list_elem_of_singleton.
    - intros k [= ->]%list_elem_of_singleton. lia. }
  apply (proj2 (syncQuizzes_private Examples.host s _ Hwf)
           (Examples.submitted (Some "u1") "t" [] false) "u1");
    [left|done|done|done|vm_compute; lia].
Defined.

(** C3, the claim as it is written fails when two stored records carry the
    [uniqueId]: both are created with ["u1"], a batch marks ["u1"] private,
    and the second record is still stored. *)
Lemma syncQuizzes_private_duplicate_counterexample :
  let quiz := Examples.submitted (Some "u1") "Quiz" [] true in
  let s0 := (createQuiz Examples.host
               (createQuiz Examples.host newMemStorage quiz).1 quiz).1 in
  let batch := [Examples.submitted (Some "u1") "Quiz" [] false] in
  Quiz.id <$> getQuizByUniqueId s0 "u1" = Some 1
  ∧ Quiz.id <$> getQuizByUniqueId (syncQuizzes Examples.host s0 batch).1 "u1"
    = Some 2.
Proof. vm_compute. by split. Qed.

Lemma syncQuizzes_version_witness :
  let quiz := Examples.submitted (Some "u1") "Quiz" [] true in
  let quiz' := Examples.submitted (Some "u1") "Quiz, second edition" [] true in
  let s1 := (syncQuizzes Examples.host newMemStorage [quiz]).1 in
  let s2 := (syncQuizzes Examples.host s1 [quiz']).1 in
  (∃ r1, getQuizByUniqueId s1 "u1" = Some r1 ∧ Quiz.version r1 = Some 1)
  ∧ (∃ r2, getQuizByUniqueId s2 "u1" = Some r2
           ∧ Quiz.version r2 = Some 2
           ∧ Quiz.title r2 = "Quiz, second edition").
Proof.
  intros quiz quiz' s1 s2.
  apply (syncQuizzes_version Examples.host newMemStorage "u1" quiz quiz');
    [apply wf_newMemStorage|done..].
Defined.

(** ** The content fingerprint *)

(** C5.  The fingerprint is not invariant under a permutation of the
    questions: two questions with the same prompt and different correct
    answers stay in the order in which the quiz has them, whatever the
    collation is, and the two orders give different fingerprints. *)
Theorem createContentHash_question_order (host : Host) :
  let q1 := Examples.question "q" "a" in
  let q2 := Examples.question "q" "b" in
  createContentHash host (Examples.quiz 1 None "t" [q1; q2] None None)
  ≠ createContentHash host (Examples.quiz 1 None "t" [q2; q1] None None).
Proof.
  destruct host as [uuid clock cmp]. cbv.
  destruct (cmp _ _); discriminate.
Qed.

(** ** Quizzes without questions *)

(** C7 (as amended).  For two records with an empty [questions] array the
    count 0 reaches the threshold 0: when the second is still kept, the
    third pass puts one of the two on [duplicatesRemoved], unless both
    carry a [uniqueId] and the two differ. *)
Theorem pass3_empty_questions (a b : Quiz.t) (ids : gset Z)
    (removed : list Quiz.t) :
  Quiz.questions a = Some [] → Quiz.questions b = Some [] →
  Quiz.id b ∈ ids →
  similarQuestions a b = true
  ∧ (pass3Inner a [b] (ids, removed)).2
    = if distinctUniqueIds a b then removed
      else removed ++ [if keepNew a b then b else a].
Proof.
  intros Ha Hb Hin.
  assert (similarQuestions a b = true) as Hs.
  { unfold similarQuestions. by rewrite Ha, Hb. }
  split; [done|]. simpl. rewrite decide_True by done.
  destruct (distinctUniqueIds a b); [done|]. rewrite Hs.
  by destruct (keepNew a b).
Qed.

Lemma pass3_empty_questions_witness :
  let a := Examples.quiz 1 (Some "a") "Quiz" [] (Some 1) (Some 1001) in
  let b := Examples.quiz 2 None "Quiz" [] (Some 1) (Some 1002) in
  (pass3Inner a [b] ({[1; 2]}, [])).2 = [a].
Proof.
  intros a b.
  apply (proj2 (pass3_empty_questions a b {[1; 2]} [] eq_refl eq_refl
                  ltac:(vm_compute; set_solver))).
Defined.

(** C7, the claim as it is written fails: two quizzes with the title
    ["Quiz"] and no questions are created, the [uniqueId] of the second is
    emptied by an update, and [removeDuplicateQuizzes] removes the first;
    the first two passes remove nothing. *)
Lemma empty_questions_counterexample :
  let s1 := (createQuiz Examples.host newMemStorage
               (Examples.submitted (Some "a") "Quiz" [] true)).1 in
  let s2 := (createQuiz Examples.host s1
               (Examples.submitted (Some "b") "Quiz" [] true)).1 in
  let s3 := (updateQuiz s2 2 Examples.emptyUniqueId).1 in
  let all := getAllQuizzes s3 in
  Quiz.questions <$> all = [Some []; Some []]
  ∧ (pass1 all).2 = []
  ∧ (pass2 Examples.host all (pass1 all).1.2 (pass1 all).2).2 = []
  ∧ Quiz.id <$> (findDuplicates Examples.host all).2 = [1]
  ∧ (removeDuplicateQuizzes Examples.host s3).2 = 1
  ∧ Quiz.id <$> getAllQuizzes (removeDuplicateQuizzes Examples.host s3).1 = [2].
Proof. vm_compute. by repeat split. Qed.

(** ** The fingerprint determines the title

    Read from its right end, a fingerprint is the array, a colon, the
    length, a colon and the title.  In a quoted string every quotation
    mark follows a reverse solidus, so the closing and the opening mark of
    each property value are found from the right, and the array is read
    back as far as its opening bracket. *)
Module HashFacts.
Import JsString Json Stringify.

Lemma chars_inj s1 s2 : chars s1 = chars s2 → s1 = s2.
Proof.
  unfold chars. intros H.
  rewrite <- (String.string_of_list_ascii_of_string s1),
          <- (String.string_of_list_ascii_of_string s2).
  by rewrite H.
Qed.

Lemma chars_ofChars l : chars (ofChars l) = l.
Proof. apply String.list_ascii_of_string_of_list_ascii. Qed.

Lemma chars_app s1 s2 : chars (s1 +:+ s2) = chars s1 ++ chars s2.
Proof.
  unfold chars. induction s1 as [|c s1 IH]; simpl; [done|].
  by rewrite <- IH.
Qed.

Lemma escaped_app w1 w2 :
  escaped w1 = true → escaped w2 = true → escaped (w1 ++ w2) = true.
Proof.
  induction w1 as [|c w1 IH]; simpl; [done|]. intros H1 H2.
  case_bool_decide.
  - destruct w1 as [|c' w1]; [done|]. simpl in *.
    apply andb_true_iff in H1 as [-> H1]. simpl. by apply IH.
  - by apply IH.
Qed.

Lemma escaped_quoteChar c : escaped (rev (quoteChar c)) = true.
Proof. by destruct c as [[] [] [] [] [] [] [] []]. Qed.

Lemma escaped_quoted l : escaped (rev (concat (map quoteChar l))) = true.
Proof.
  induction l as [|c l IH]; simpl; [done|].
  rewrite rev_app_distr. apply escaped_app; [done|apply escaped_quoteChar].
Qed.

(** The first quotation mark that no reverse solidus follows ends the
    escaped part. *)
Lemma escaped_split w1 w2 x1 x2 r1 r2 :
  escaped w1 = true → escaped w2 = true →
  x1 ≠ backslash → x2 ≠ backslash →
  w1 ++ dquote :: x1 :: r1 = w2 ++ dquote :: x2 :: r2 →
  x1 :: r1 = x2 :: r2.
Proof.
  revert w2. induction w1 as [|c w1 IH]; intros [|c' w2]; simpl;
    intros H1 H2 Hx1 Hx2 Heq.
  - congruence.
  - assert (c' = dquote) as -> by congruence.
    rewrite bool_decide_eq_true_2 in H2 by done.
    destruct w2 as [|c'' w2]; [done|]. simpl in Heq.
    apply andb_true_iff in H2 as [Hc _]. apply bool_decide_eq_true in Hc.
    congruence.
  - assert (c = dquote) as -> by congruence.
    rewrite bool_decide_eq_true_2 in H1 by done.
    destruct w1 as [|c'' w1]; [done|]. simpl in Heq.
    apply andb_true_iff in H1 as [Hc _]. apply bool_decide_eq_true in Hc.
    congruence.
  - assert (c = c') as -> by congruence.
    apply (IH w2); try done; [| |congruence].
    + destruct (bool_decide (c' = dquote)); [|done].
      destruct w1; [done|]. by apply andb_true_iff in H1 as [_ ?].
    + destruct (bool_decide (c' = dquote)); [|done].
      destruct w2; [done|]. by apply andb_true_iff in H2 as [_ ?].
Qed.

(** A property, read from the right: the value between its marks, then
    the colon and the name. *)
Lemma rev_property name v r :
  rev (property name v) ++ r
  = dquote :: rev (concat (map quoteChar (chars v)))
    ++ dquote :: rev (chars ":") ++ dquote :: rev (chars name) ++ dquote :: r.
Proof.
  unfold property, quoteChars.
  repeat (simpl; rewrite ?rev_app_distr, <- ?app_assoc). done.
Qed.

Lemma rev_property_inj name v1 v2 r1 r2 :
  rev (property name v1) ++ r1 = rev (property name v2) ++ r2 → r1 = r2.
Proof.
  rewrite !rev_property. intros [= Heq].
  apply escaped_split in Heq; [|apply escaped_quoted..|done|done].
  injection Heq as Heq. by simplify_list_eq.
Qed.

Lemma rev_object d r :
  rev (object d) ++ r
  = rev (chars "}")
    ++ rev (property "correctAnswer" (QuestionData.correctAnswer d))
    ++ rev (chars ",")
    ++ rev (property "options" (QuestionData.options d))
    ++ rev (chars ",")
    ++ rev (property "question" (QuestionData.question d))
    ++ rev (chars "{") ++ r.
Proof.
  unfold object. by rewrite !rev_app_distr, <- !app_assoc.
Qed.

Lemma rev_object_inj d1 d2 r1 r2 :
  rev (object d1) ++ r1 = rev (object d2) ++ r2 → r1 = r2.
Proof.
  rewrite !rev_object. intros Heq.
  apply app_inv_head, rev_property_inj in Heq.
  apply app_inv_head, rev_property_inj in Heq.
  apply app_inv_head, rev_property_inj in Heq.
  by apply app_inv_head in Heq.
Qed.

Lemma rev_object_head d r : ∃ r', rev (object d) ++ r = rev (chars "}") ++ r'.
Proof. rewrite rev_object. eauto. Qed.

Lemma revJoin_one d : revJoin [d] = rev (object d).
Proof. done. Qed.

Lemma revJoin_cons d d' l :
  revJoin (d :: d' :: l)
  = rev (object d) ++ rev (chars ",") ++ revJoin (d' :: l).
Proof. done. Qed.

Lemma revJoin_snoc l d :
  l ≠ [] → revJoin (l ++ [d]) = revJoin l ++ rev (chars ",") ++ rev (object d).
Proof.
  induction l as [|d' l IH]; [done|]. intros _.
  destruct l as [|d'' l]; [done|].
  rewrite <- !app_comm_cons, !revJoin_cons, app_comm_cons, IH by done.
  by rewrite <- !app_assoc.
Qed.

Lemma rev_joinChars l :
  rev (joinChars (chars ",") (map object l)) = revJoin (rev l).
Proof.
  induction l as [|d l IH]; [done|].
  destruct l as [|d' l]; [done|].
  change (joinChars (chars ",") (map object (d :: d' :: l)))
    with (object d ++ chars "," ++ joinChars (chars ",") (map object (d' :: l))).
  rewrite !rev_app_distr, IH, <- app_assoc.
  change (rev (d :: d' :: l)) with (rev (d' :: l) ++ [d]).
  rewrite revJoin_snoc; [done|].
  simpl. by destruct (rev l).
Qed.

(** After an object the reversed text goes on with a comma or ends with
    the bracket. *)
Lemma revJoin_head d l r :
  ∃ r', revJoin (d :: l) ++ r = rev (chars "}") ++ r'.
Proof.
  destruct l as [|d' l].
  - rewrite revJoin_one. apply rev_object_head.
  - rewrite revJoin_cons, <- app_assoc. apply rev_object_head.
Qed.

Lemma revJoin_inj l1 l2 r1 r2 :
  revJoin l1 ++ rev (chars "[") ++ r1 = revJoin l2 ++ rev (chars "[") ++ r2 →
  length l1 = length l2 ∧ r1 = r2.
Proof.
  revert l2. induction l1 as [|d1 l1 IH]; intros [|d2 l2] Heq.
  - apply app_inv_head in Heq. by apply app_inv_head in Heq.
  - exfalso. destruct (revJoin_head d2 l2 (rev (chars "[") ++ r2)) as [r' Hr].
    rewrite Hr in Heq. discriminate.
  - exfalso. destruct (revJoin_head d1 l1 (rev (chars "[") ++ r1)) as [r' Hr].
    rewrite Hr in Heq. discriminate.
  - destruct l1 as [|d1' l1], l2 as [|d2' l2];
      rewrite ?revJoin_one, ?revJoin_cons, <- ?app_assoc in Heq;
      apply rev_object_inj in Heq.
    + by apply app_inv_head in Heq.
    + discriminate.
    + discriminate.
    + apply app_inv_head, IH in Heq as [Hlen ->].
      split; [|done]. simpl in *. by rewrite Hlen.
Qed.

Lemma rev_arrayChars l r :
  rev (arrayChars l) ++ r
  = rev (chars "]") ++ revJoin (rev l) ++ rev (chars "[") ++ r.
Proof.
  unfold arrayChars. rewrite !rev_app_distr, rev_joinChars.
  by rewrite <- !app_assoc.
Qed.

Lemma arrayChars_inj l1 l2 r1 r2 :
  rev (arrayChars l1) ++ r1 = rev (arrayChars l2) ++ r2 →
  length l1 = length l2 ∧ r1 = r2.
Proof.
  rewrite !rev_arrayChars. intros [= Heq].
  apply revJoin_inj in Heq as [Hlen ->]. split; [|done].
  by rewrite !length_rev in Hlen.
Qed.

(** A fingerprint [title:length:array] gives its title back. *)
Lemma fingerprint_title t1 t2 l1 l2 :
  t1 +:+ ":" +:+ ofNat (length l1) +:+ ":" +:+ array l1
  = t2 +:+ ":" +:+ ofNat (length l2) +:+ ":" +:+ array l2 →
  t1 = t2.
Proof.
  intros Heq. apply (f_equal chars) in Heq.
  unfold array in Heq. rewrite !chars_app, !chars_ofChars in Heq.
  apply (f_equal (@rev ascii)) in Heq.
  rewrite !rev_app_distr, <- !app_assoc in Heq.
  apply arrayChars_inj in Heq as [Hlen Heq].
  rewrite Hlen in Heq.
  apply app_inv_head in Heq. apply app_inv_head in Heq.
  apply app_inv_head in Heq.
  apply chars_inj. by apply rev_inj.
Qed.
End HashFacts.

(** ** The three passes *)

Lemma fold_left_prefix {A S} (step : S → A → S) (I : list A → S → Prop)
    (l : list A) (s0 : S) :
  I [] s0 →
  (∀ P q rest st, l = P ++ q :: rest → I P st → I (P ++ [q]) (step st q)) →
  I l (fold_left step l s0).
Proof.
  intros H0 Hstep.
  assert (∀ rest P st, l = P ++ rest → I P st → I l (fold_left step rest st))
    as H.
  { induction rest as [|q rest IH]; intros P st Hl HI; simpl.
    - by rewrite Hl, app_nil_r.
    - apply (IH (P ++ [q])); [by rewrite <- app_assoc|]. by eapply Hstep. }
  by apply (H l []).
Qed.

Lemma elem_of_idset k l : k ∈ idset l ↔ ∃ q, q ∈ l ∧ Quiz.id q = k.
Proof.
  unfold idset. rewrite elem_of_list_to_set, list_elem_of_fmap. naive_solver.
Qed.

Lemma idset_elem q l : q ∈ l → Quiz.id q ∈ idset l.
Proof. intros. apply elem_of_idset. eauto. Qed.

Lemma idset_nil : idset [] = ∅.
Proof. done. Qed.

Lemma idset_snoc l q : idset (l ++ [q]) = idset l ∪ {[Quiz.id q]}.
Proof.
  unfold idset. rewrite fmap_app, list_to_set_app_L. simpl. set_solver.
Qed.

Lemma NoDup_id_split (l1 l2 : list Quiz.t) q :
  NoDup (Quiz.id <$> (l1 ++ q :: l2)) →
  Quiz.id q ∉ idset l1 ∧ Quiz.id q ∉ idset l2.
Proof.
  rewrite fmap_app, fmap_cons. intros (_ & H1 & [H2 _]%NoDup_cons)%NoDup_app.
  unfold idset. rewrite !elem_of_list_to_set. split; [|done].
  intros Hq. apply (H1 _ Hq). left.
Qed.

Lemma NoDup_id_eq (l : list Quiz.t) q q' :
  NoDup (Quiz.id <$> l) → q ∈ l → q' ∈ l → Quiz.id q = Quiz.id q' → q = q'.
Proof.
  induction l as [|x l IH]; [by intros _ ?%elem_of_nil|].
  rewrite fmap_cons, NoDup_cons.
  intros [Hx Hnd] [->|Hq]%elem_of_cons [->|Hq']%elem_of_cons Heq; try done.
  - exfalso. apply Hx. rewrite Heq. by apply list_elem_of_fmap_2.
  - exfalso. apply Hx. rewrite <- Heq. by apply list_elem_of_fmap_2.
  - by apply IH.
Qed.

Lemma NoDup_id_snoc (l : list Quiz.t) q :
  NoDup (Quiz.id <$> (l ++ [q])) →
  NoDup (Quiz.id <$> l) ∧ Quiz.id q ∉ idset l.
Proof.
  intros Hnd. split.
  - rewrite fmap_app in Hnd. by apply NoDup_app in Hnd as (? & _ & _).
  - by apply NoDup_id_split in Hnd as [? _].
Qed.

#[local] Typeclasses Opaque idset.

(** Set reasoning on the kept ids: the facts on the maps are put aside and
    the ids of the records at hand are taken as unknowns. *)
Ltac abstract_ids :=
  repeat match goal with
         | |- context [Quiz.id ?x] =>
             let k := fresh "k" in set (k := Quiz.id x) in *; clearbody k
         | H : context [Quiz.id ?x] |- _ =>
             let k := fresh "k" in set (k := Quiz.id x) in *; clearbody k
         end.

Ltac ids_solver :=
  repeat match goal with
         | H : ∀ _ _, _ !! _ = Some _ → _ |- _ => clear H
         | H : ∀ _ _, _ ∈ _ → _ |- _ => clear H
         | H : _ ≠ [] → _ |- _ => clear H
         | H : NoDup _ |- _ => clear H
         end;
  abstract_ids; set_solver.

Lemma pass1Step_inv P st q :
  Inv1 P st → NoDup (Quiz.id <$> (P ++ [q])) →
  Inv1 (P ++ [q]) (pass1Step st q).
Proof.
  destruct st as [[m ids] removed].
  intros [Hids Hrem Hmap Hkept Hne] [Hnd Hq]%NoDup_id_snoc.
  simpl in *. unfold pass1Step.
  destruct (uidOf q) as [u|] eqn:Hu; [destruct (m !! u) as [ex|] eqn:Hm;
    [destruct (keepNew q ex)|]|]; split; simpl; rewrite ?idset_snoc.
  - (* the new record replaces the stored one *) ids_solver.
  - destruct (Hmap _ _ Hm) as (Hex & _ & Hexin).
    apply idset_elem in Hex. rewrite Hrem.
    apply set_eq. intros k.
    destruct (decide (k = Quiz.id ex)) as [->|]; ids_solver.
  - intros u' q' Hl. destruct (decide (u = u')) as [<-|Hne'].
    + rewrite lookup_insert_eq in Hl. injection Hl as <-.
      split; [ids_solver|]. split; [done|ids_solver].
    + rewrite lookup_insert_ne in Hl by done.
      destruct (Hmap _ _ Hl) as (Hin & Hu' & Hid).
      split; [ids_solver|]. split; [done|].
      apply elem_of_union. right. apply elem_of_difference. split; [done|].
      intros Heq%elem_of_singleton.
      destruct (Hmap _ _ Hm) as (Hex & Huex & Hexin).
      assert (q' = ex) as -> by by apply (NoDup_id_eq P).
      congruence.
  - intros q' u' [Hin|Hin%list_elem_of_singleton]%elem_of_app Hid Hu'.
    + assert (Quiz.id q' ∈ ids ∧ Quiz.id q' ≠ Quiz.id ex) as [Hid' Hneq].
      { apply idset_elem in Hin. ids_solver. }
      pose proof (Hkept _ _ Hin Hid' Hu') as Hl.
      destruct (decide (u = u')) as [<-|Hne'].
      * rewrite Hm in Hl. congruence.
      * by rewrite lookup_insert_ne.
    + subst q'. assert (u' = u) as -> by congruence. apply lookup_insert_eq.
  - intros _. exists (Quiz.id q). ids_solver.
  - (* the new record is dropped *) ids_solver.
  - rewrite Hrem. ids_solver.
  - intros u' q' Hl. destruct (Hmap _ _ Hl) as (? & ? & ?). ids_solver.
  - intros q' u' [Hin|Hin%list_elem_of_singleton]%elem_of_app Hid Hu'.
    + by apply Hkept.
    + subst q'. ids_solver.
  - intros _. destruct (Hmap _ _ Hm) as (? & ? & ?). eauto.
  - (* a new uniqueId *) ids_solver.
  - rewrite Hrem. ids_solver.
  - intros u' q' Hl. destruct (decide (u = u')) as [<-|Hne'].
    + rewrite lookup_insert_eq in Hl. injection Hl as <-.
      split; [ids_solver|]. split; [done|ids_solver].
    + rewrite lookup_insert_ne in Hl by done.
      destruct (Hmap _ _ Hl) as (? & ? & ?). ids_solver.
  - intros q' u' [Hin|Hin%list_elem_of_singleton]%elem_of_app Hid Hu'.
    + assert (Quiz.id q' ∈ ids) as Hid'.
      { apply idset_elem in Hin. ids_solver. }
      pose proof (Hkept _ _ Hin Hid' Hu') as Hl.
      destruct (decide (u = u')) as [<-|Hne']; [congruence|].
      by rewrite lookup_insert_ne.
    + subst q'. assert (u' = u) as -> by congruence. apply lookup_insert_eq.
  - intros _. exists (Quiz.id q). ids_solver.
  - (* no uniqueId *) ids_solver.
  - rewrite Hrem. ids_solver.
  - intros u' q' Hl. destruct (Hmap _ _ Hl) as (? & ? & ?). ids_solver.
  - intros q' u' [Hin|Hin%list_elem_of_singleton]%elem_of_app Hid Hu'.
    + apply Hkept; [done| |done]. apply idset_elem in Hin. ids_solver.
    + subst q'. congruence.
  - intros _. exists (Quiz.id q). ids_solver.
Qed.

Lemma Inv1_init : Inv1 [] (∅, ∅, []).
Proof.
  by split.
Qed.

Lemma NoDup_id_prefix (P rest : list Quiz.t) q :
  NoDup (Quiz.id <$> (P ++ q :: rest)) → NoDup (Quiz.id <$> (P ++ [q])).
Proof.
  rewrite (cons_middle q P rest), app_assoc, (fmap_app _ (P ++ [q])).
  by intros (? & _ & _)%NoDup_app.
Qed.

Lemma pass1_inv (l : list Quiz.t) : NoDup (Quiz.id <$> l) → Inv1 l (pass1 l).
Proof.
  intros Hnd. unfold pass1. apply (fold_left_prefix _ Inv1).
  - apply Inv1_init.
  - intros P q rest st -> HI. apply pass1Step_inv; [done|].
    by apply NoDup_id_prefix in Hnd.
Qed.

Lemma pass2Step_inv host l ids0 P st q :
  Inv2 host l ids0 P st →
  NoDup (Quiz.id <$> (P ++ [q])) → q ∈ l →
  Inv2 host l ids0 (P ++ [q]) (pass2Step host st q).
Proof.
  destruct st as [[m ids] removed].
  intros [Hids Hshr Hrem Hmap Hkept Hne] [Hnd Hq]%NoDup_id_snoc Hql.
  apply idset_elem in Hql.
  simpl in *. unfold pass2Step.
  destruct (decide (Quiz.id q ∈ ids)) as [Hqin|Hqin];
    [destruct (uidOf q) as [u|] eqn:Hu;
     [|destruct (m !! createContentHash host q) as [ex|] eqn:Hm;
       [destruct (keepNew q ex)|]]|];
    split; simpl; rewrite ?idset_snoc; try done.
  - (* a record with a uniqueId *)
    intros h q' Hl. destruct (Hmap _ _ Hl) as (? & ? & ? & ?).
    split; [|done]. apply elem_of_app. by left.
  - intros q' [Hin|Hin%list_elem_of_singleton]%elem_of_app Hid Hu'.
    + by apply Hkept.
    + subst q'. congruence.
  - (* the new record replaces the stored one *) ids_solver.
  - ids_solver.
  - destruct (Hmap _ _ Hm) as (Hex & _ & _ & Hexin).
    apply idset_elem in Hex. rewrite Hrem.
    apply set_eq. intros k.
    destruct (decide (k = Quiz.id ex)) as [->|]; ids_solver.
  - intros h q' Hl.
    destruct (decide (createContentHash host q = h)) as [<-|Hne'].
    + rewrite lookup_insert_eq in Hl. injection Hl as <-.
      split; [ids_solver|]. split; [done|]. split; [done|ids_solver].
    + rewrite lookup_insert_ne in Hl by done.
      destruct (Hmap _ _ Hl) as (Hin & Hu' & Hh & Hid).
      split; [ids_solver|]. split; [done|]. split; [done|].
      apply elem_of_union. right. apply elem_of_difference. split; [done|].
      intros Heq%elem_of_singleton.
      destruct (Hmap _ _ Hm) as (Hex & Huex & Hhex & Hexin).
      assert (q' = ex) as -> by by apply (NoDup_id_eq P).
      congruence.
  - intros q' [Hin|Hin%list_elem_of_singleton]%elem_of_app Hid Hu'.
    + assert (Quiz.id q' ∈ ids ∧ Quiz.id q' ≠ Quiz.id ex) as [Hid' Hneq].
      { apply idset_elem in Hin. ids_solver. }
      pose proof (Hkept _ Hin Hid' Hu') as Hl.
      destruct (decide (createContentHash host q = createContentHash host q'))
        as [Heq|Hne'].
      * rewrite <- Heq, Hm in Hl. congruence.
      * by rewrite lookup_insert_ne.
    + subst q'. apply lookup_insert_eq.
  - intros _. exists (Quiz.id q). ids_solver.
  - (* the new record is dropped *) ids_solver.
  - ids_solver.
  - rewrite Hrem. apply set_eq. intros k.
    destruct (decide (k = Quiz.id q)) as [->|]; ids_solver.
  - intros h q' Hl. destruct (Hmap _ _ Hl) as (Hin & ? & ? & ?).
    split; [ids_solver|]. split; [done|]. split; [done|].
    apply idset_elem in Hin. ids_solver.
  - intros q' [Hin|Hin%list_elem_of_singleton]%elem_of_app Hid Hu'.
    + apply Hkept; [done| |done]. ids_solver.
    + subst q'. ids_solver.
  - intros _. destruct (Hmap _ _ Hm) as (Hex & _ & _ & Hexin).
    exists (Quiz.id ex). apply idset_elem in Hex. ids_solver.
  - (* a new fingerprint *)
    intros h q' Hl.
    destruct (decide (createContentHash host q = h)) as [<-|Hne'].
    + rewrite lookup_insert_eq in Hl. injection Hl as <-.
      split; [ids_solver|]. by repeat split.
    + rewrite lookup_insert_ne in Hl by done.
      destruct (Hmap _ _ Hl) as (? & ? & ? & ?).
      split; [|done]. apply elem_of_app. by left.
  - intros q' [Hin|Hin%list_elem_of_singleton]%elem_of_app Hid Hu'.
    + pose proof (Hkept _ Hin Hid Hu') as Hl.
      destruct (decide (createContentHash host q = createContentHash host q'))
        as [Heq|Hne']; [congruence|].
      by rewrite lookup_insert_ne.
    + subst q'. apply lookup_insert_eq.
  - (* a record that the first pass removed *)
    intros h q' Hl. destruct (Hmap _ _ Hl) as (? & ? & ? & ?).
    split; [|done]. apply elem_of_app. by left.
  - intros q' [Hin|Hin%list_elem_of_singleton]%elem_of_app Hid Hu'.
    + by apply Hkept.
    + by subst q'.
Qed.

Lemma pass2_inv host (l : list Quiz.t) ids removed :
  NoDup (Quiz.id <$> l) →
  ids ⊆ idset l → idset removed = idset l ∖ ids →
  (l ≠ [] → ∃ k, k ∈ ids) →
  Inv2 host l ids l (pass2 host l ids removed).
Proof.
  intros Hnd Hids Hrem Hne. unfold pass2.
  apply (fold_left_prefix _ (Inv2 host l ids)).
  - split; simpl; try done.
    intros q Hq. by apply elem_of_nil in Hq.
  - intros P q rest st Hl HI. apply pass2Step_inv; [done| |].
    + rewrite Hl in Hnd. by apply NoDup_id_prefix in Hnd.
    + rewrite Hl. apply elem_of_app. right. left.
Qed.

Lemma Good_remove l st q :
  Good l st → Quiz.id q ∈ st.1 →
  Good l (st.1 ∖ {[Quiz.id q]}, st.2 ++ [q]).
Proof.
  destruct st as [ids removed]. intros [Hids Hrem] Hq. simpl in *.
  split; simpl; [ids_solver|].
  rewrite idset_snoc, Hrem. apply set_eq. intros k.
  destruct (decide (k = Quiz.id q)) as [->|]; ids_solver.
Qed.

Lemma pass3Inner_spec l quiz1 rest st :
  Good l st → Quiz.id quiz1 ∈ st.1 → Quiz.id quiz1 ∉ Quiz.id <$> rest →
  let st' := pass3Inner quiz1 rest st in
  Good l st' ∧ st'.1 ⊆ st.1 ∧ (∃ k, k ∈ st'.1)
  ∧ (Quiz.id quiz1 ∈ st'.1 →
     ∀ quiz2, quiz2 ∈ rest → Quiz.id quiz2 ∈ st'.1 →
              pass3Duplicate quiz1 quiz2 = false).
Proof.
  revert st. induction rest as [|quiz2 rest IH]; intros st Hgood H1 Hnotin;
    simpl.
  - split; [done|]. split; [done|]. split; [by eauto|].
    intros _ q Hq. by apply elem_of_nil in Hq.
  - rewrite fmap_cons, not_elem_of_cons in Hnotin.
    destruct Hnotin as [Hne Hnotin].
    destruct (decide (Quiz.id quiz2 ∈ st.1)) as [H2|H2].
    + destruct (distinctUniqueIds quiz1 quiz2) eqn:Hd;
        [|destruct (similarQuestions quiz1 quiz2) eqn:Hs;
          [destruct (keepNew quiz1 quiz2)|]].
      * (* distinct uniqueIds *)
        destruct (IH st Hgood H1 Hnotin) as (Hg & Hsub & Hex & Hpairs).
        split; [done|]. split; [done|]. split; [done|].
        intros H1' q [->|Hq]%elem_of_cons Hq'; [|by apply Hpairs].
        unfold pass3Duplicate. by rewrite Hd.
      * (* the second record is removed *)
        destruct (IH (st.1 ∖ {[Quiz.id quiz2]}, st.2 ++ [quiz2]))
          as (Hg & Hsub & Hex & Hpairs); simpl.
        { by apply Good_remove. }
        { apply elem_of_difference. split; [done|].
          by intros ?%elem_of_singleton. }
        { done. }
        simpl in *. split; [done|]. split; [ids_solver|]. split; [done|].
        intros H1' q [->|Hq]%elem_of_cons Hq'; [|by apply Hpairs].
        exfalso. apply Hsub in Hq'. ids_solver.
      * (* the first record is removed *)
        simpl. split; [by apply Good_remove|]. split; [ids_solver|].
        split; [exists (Quiz.id quiz2); ids_solver|].
        intros H1'. exfalso. ids_solver.
      * (* not similar *)
        destruct (IH st Hgood H1 Hnotin) as (Hg & Hsub & Hex & Hpairs).
        split; [done|]. split; [done|]. split; [done|].
        intros H1' q [->|Hq]%elem_of_cons Hq'; [|by apply Hpairs].
        unfold pass3Duplicate. rewrite Hs. apply andb_false_r.
    + destruct (IH st Hgood H1 Hnotin) as (Hg & Hsub & Hex & Hpairs).
      split; [done|]. split; [done|]. split; [done|].
      intros H1' q [->|Hq]%elem_of_cons Hq'; [|by apply Hpairs].
      exfalso. apply H2. by apply Hsub.
Qed.

Lemma pass3Outer_spec l group st :
  Good l st → NoDup (Quiz.id <$> group) → (∃ k, k ∈ st.1) →
  let st' := pass3Outer group st in
  Good l st' ∧ st'.1 ⊆ st.1 ∧ (∃ k, k ∈ st'.1)
  ∧ OrdPairs (λ a b, Quiz.id a ∈ st'.1 → Quiz.id b ∈ st'.1 →
                     pass3Duplicate a b = false) group.
Proof.
  revert st. induction group as [|quiz1 rest IH]; intros st Hgood Hnd Hex;
    simpl.
  - split; [done|]. split; [done|]. split; [done|]. constructor.
  - rewrite fmap_cons, NoDup_cons in Hnd. destruct Hnd as [Hnotin Hnd].
    destruct (decide (Quiz.id quiz1 ∈ st.1)) as [H1|H1].
    + destruct (pass3Inner_spec l quiz1 rest st Hgood H1 Hnotin)
        as (Hg1 & Hsub1 & Hex1 & Hpairs).
      destruct (IH _ Hg1 Hnd Hex1) as (Hg & Hsub & Hex' & Hord).
      split; [done|]. split; [by etrans|]. split; [done|].
      constructor; [|done].
      apply Forall_forall. intros b Hb Ha Hb'.
      apply Hpairs; [by apply Hsub|done|by apply Hsub].
    + destruct (IH _ Hgood Hnd Hex) as (Hg & Hsub & Hex' & Hord).
      split; [done|]. split; [done|]. split; [done|].
      constructor; [|done].
      apply Forall_forall. intros b Hb Ha Hb'.
      exfalso. apply H1. by apply Hsub.
Qed.

Lemma OrdPairs_mono_set (group : list Quiz.t) (ids ids' : gset Z) :
  ids' ⊆ ids →
  OrdPairs (λ a b, Quiz.id a ∈ ids → Quiz.id b ∈ ids →
                   pass3Duplicate a b = false) group →
  OrdPairs (λ a b, Quiz.id a ∈ ids' → Quiz.id b ∈ ids' →
                   pass3Duplicate a b = false) group.
Proof.
  intros Hsub Hord. eapply OrdPairs_impl; [done|].
  intros a b _ _ H Ha Hb. apply H; by apply Hsub.
Qed.

Lemma pass3_fold_spec l (entries : list (string * list Quiz.t)) st :
  Good l st → (∃ k, k ∈ st.1) →
  (∀ e, e ∈ entries → NoDup (Quiz.id <$> e.2)) →
  let st' := fold_left pass3Step entries st in
  Good l st' ∧ st'.1 ⊆ st.1 ∧ (∃ k, k ∈ st'.1)
  ∧ ∀ e, e ∈ entries →
         OrdPairs (λ a b, Quiz.id a ∈ st'.1 → Quiz.id b ∈ st'.1 →
                          pass3Duplicate a b = false) e.2.
Proof.
  revert st. induction entries as [|e entries IH]; intros st Hgood Hex Hnd;
    simpl.
  - split; [done|]. split; [done|]. split; [done|].
    intros e He. by apply elem_of_nil in He.
  - assert (let st1 := pass3Step st e in
            Good l st1 ∧ st1.1 ⊆ st.1 ∧ (∃ k, k ∈ st1.1)
            ∧ OrdPairs (λ a b, Quiz.id a ∈ st1.1 → Quiz.id b ∈ st1.1 →
                               pass3Duplicate a b = false) e.2)
      as (Hg1 & Hsub1 & Hex1 & Hord1).
    { unfold pass3Step. destruct (1 <? length e.2)%nat eqn:Hlen.
      - apply pass3Outer_spec; [done| |done]. apply Hnd. left.
      - split; [done|]. split; [done|]. split; [done|].
        apply OrdPairs_singleton.
        apply Nat.ltb_ge in Hlen. lia. }
    destruct (IH (pass3Step st e) Hg1 Hex1) as (Hg & Hsub & Hex' & Hord).
    { intros e' He'. apply Hnd. by right. }
    split; [done|]. split; [by etrans|]. split; [done|].
    intros e' [->|He']%elem_of_cons; [|by apply Hord].
    by apply (OrdPairs_mono_set _ _ _ Hsub).
Qed.

Lemma filter_none {A} (P : A → Prop) `{∀ x, Decision (P x)} (l : list A) :
  (∀ x, x ∈ l → ¬ P x) → filter P l = [].
Proof.
  induction l as [|x l IH]; intros Hl; [done|].
  rewrite filter_cons_False by (apply Hl; left).
  apply IH. intros y Hy. apply Hl. by right.
Qed.

Lemma titleStep_inv ids P titleMap q :
  TitleMap ids P titleMap → TitleMap ids (P ++ [q]) (titleStep ids titleMap q).
Proof.
  intros [Hnd Hgroup Hkey]. unfold titleStep.
  destruct (decide (Quiz.id q ∈ ids)) as [Hq|Hq].
  - set (t := normalize (Quiz.title q)).
    destruct (JsMap.get t titleMap) as [g0|] eqn:Hget.
    + destruct (JsMap_get_Some_split _ _ _ Hget) as (m1 & m2 & Htm & Ht1).
      rewrite Htm, JsMap_set_split by done.
      assert (t ∉ JsMap.keys m2) as Ht2.
      { unfold JsMap.keys in *. rewrite Htm, fmap_app, fmap_cons in Hnd.
        by apply NoDup_app in Hnd as (_ & _ & [? _]%NoDup_cons). }
      split.
      * unfold JsMap.keys in *. rewrite Htm in Hnd.
        by rewrite fmap_app, fmap_cons in *.
      * intros t' g. rewrite elem_of_app, elem_of_cons.
        rewrite !filter_app, filter_cons_True, filter_nil by done.
        intros [Hin|[[= -> ->]|Hin]].
        -- assert (t ≠ t') as Hne.
           { intros ->. apply Ht1. by apply (list_elem_of_fmap_2 fst) in Hin. }
           rewrite filter_cons_False, app_nil_r by done.
           apply Hgroup. rewrite Htm. apply elem_of_app. by left.
        -- rewrite filter_cons_True by done. f_equal.
           apply Hgroup. rewrite Htm. apply elem_of_app. right. left.
        -- assert (t ≠ t') as Hne.
           { intros ->. apply Ht2. by apply (list_elem_of_fmap_2 fst) in Hin. }
           rewrite filter_cons_False, app_nil_r by done.
           apply Hgroup. rewrite Htm. apply elem_of_app. right. by right.
      * intros q' [Hin|Hin%list_elem_of_singleton]%elem_of_app Hid.
        -- specialize (Hkey _ Hin Hid). unfold JsMap.keys in *.
           rewrite Htm in Hkey. by rewrite fmap_app, fmap_cons in *.
        -- subst q'. unfold JsMap.keys. rewrite fmap_app, fmap_cons.
           apply elem_of_app. right. left.
    + apply JsMap_get_None in Hget. rewrite JsMap_set_fresh by done.
      split.
      * unfold JsMap.keys in *. rewrite fmap_app. apply NoDup_app.
        split; [done|]. split; [|apply NoDup_singleton].
        intros t' Ht' ->%list_elem_of_singleton. done.
      * intros t' g.
        rewrite !filter_app, filter_cons_True, filter_nil by done.
        intros [Hin|[= -> ->]%list_elem_of_singleton]%elem_of_app.
        -- assert (t ≠ t') as Hne.
           { intros ->. apply Hget. by apply (list_elem_of_fmap_2 fst) in Hin. }
           rewrite filter_cons_False, app_nil_r by done. by apply Hgroup.
        -- rewrite filter_cons_True by done.
           rewrite filter_none; [done|].
           intros x [Hx Hin]%list_elem_of_filter Ht. apply Hget.
           rewrite <- Ht. by apply Hkey.
      * intros q' [Hin|Hin%list_elem_of_singleton]%elem_of_app Hid;
          unfold JsMap.keys; rewrite fmap_app, elem_of_app.
        -- left. by apply Hkey.
        -- subst q'. right. left.
  - split; [done| |].
    + intros t g Hin. rewrite filter_app, filter_cons_False, app_nil_r by done.
      by apply Hgroup.
    + intros q' [Hin|Hin%list_elem_of_singleton]%elem_of_app Hid.
      * by apply Hkey.
      * by subst q'.
Qed.

Lemma buildTitleMap_spec (l : list Quiz.t) ids :
  TitleMap ids l (buildTitleMap l ids).
Proof.
  unfold buildTitleMap. apply (fold_left_prefix _ (TitleMap ids)).
  - split; simpl.
    + apply NoDup_nil_2.
    + intros t g Hin. by apply elem_of_nil in Hin.
    + intros q Hq. by apply elem_of_nil in Hq.
  - intros P q rest tm _ Htm. by apply titleStep_inv.
Qed.

Lemma NoDup_id_filter (P : Quiz.t → Prop) `{∀ q, Decision (P q)} l :
  NoDup (Quiz.id <$> l) → NoDup (Quiz.id <$> filter P l).
Proof.
  induction l as [|q l IH]; [done|].
  rewrite fmap_cons, NoDup_cons. intros [Hq Hnd].
  rewrite filter_cons. case_decide; [|by apply IH].
  rewrite fmap_cons, NoDup_cons. split; [|by apply IH].
  intros (q' & Hid & [_ Hin]%list_elem_of_filter)%list_elem_of_fmap.
  apply Hq. rewrite Hid. by apply list_elem_of_fmap_2.
Qed.

Lemma NoDup_id_before (l1 l2 l3 : list Quiz.t) a b :
  NoDup (Quiz.id <$> (l1 ++ a :: l2 ++ b :: l3)) → Quiz.id a ≠ Quiz.id b.
Proof.
  intros [_ Ha]%NoDup_id_split Heq. apply Ha. rewrite Heq.
  apply idset_elem, elem_of_app. right. left.
Qed.

Section Dedup.
Context (host : Host).

(** The outcome of the three passes on a collection with distinct ids:
    the removed records are the records that are not kept, a record is
    kept when there is one, and no kept record is a duplicate of a kept
    record before it. *)
Lemma findDuplicates_spec (l : list Quiz.t) :
  NoDup (Quiz.id <$> l) →
  Good l (findDuplicates host l)
  ∧ (l ≠ [] → ∃ k, k ∈ (findDuplicates host l).1)
  ∧ duplicateFree host
      (filter (λ q, Quiz.id q ∈ (findDuplicates host l).1) l).
Proof.
  intros Hnd. destruct (decide (l = [])) as [->|Hne].
  { split; [by split|]. split; [done|]. constructor. }
  unfold findDuplicates.
  pose proof (pass1_inv l Hnd) as I1.
  destruct (pass1 l) as [[m1 ids1] rem1]. destruct I1 as [? ? _ Hkept1 ?].
  simpl in *.
  pose proof (pass2_inv host l ids1 rem1 Hnd) as I2.
  destruct (pass2 host l ids1 rem1) as [[hm ids2] rem2].
  destruct I2 as [? Hshr ? _ Hkept2 ?]; [done..|]. simpl in *.
  pose proof (buildTitleMap_spec l ids2) as [_ Hgroup Hkey].
  unfold pass3.
  destruct (pass3_fold_spec l (buildTitleMap l ids2) (ids2, rem2))
    as (Hgood & Hsub & Hex & Hord); [by split|by auto| |].
  { intros [t g] Hin. simpl. rewrite (Hgroup _ _ Hin).
    by do 2 apply NoDup_id_filter. }
  set (st := fold_left pass3Step (buildTitleMap l ids2) (ids2, rem2)) in *.
  simpl in Hsub.
  split; [done|]. split; [done|].
  apply OrdPairs_filter, OrdPairs_intro.
  intros l1 a l2 b l3 Hl Ha Hb Hdup.
  assert (a ∈ l ∧ b ∈ l) as [Hal Hbl].
  { rewrite Hl. split.
    - apply elem_of_app. right. left.
    - apply elem_of_app. right. right. apply elem_of_app. right. left. }
  assert (Quiz.id a ≠ Quiz.id b) as Hab.
  { rewrite Hl in Hnd. by apply NoDup_id_before in Hnd. }
  destruct Hdup as [(u & Hua & Hub)|[(Hua & Hub & Hh)|(Ht & Hp3)]].
  - assert (m1 !! u = Some a) by (apply Hkept1; [done| |done]; ids_solver).
    assert (m1 !! u = Some b) by (apply Hkept1; [done| |done]; ids_solver).
    congruence.
  - assert (hm !! createContentHash host a = Some a)
      by (apply Hkept2; [done| |done]; ids_solver).
    assert (hm !! createContentHash host b = Some b)
      by (apply Hkept2; [done| |done]; ids_solver).
    congruence.
  - assert (Quiz.id a ∈ ids2 ∧ Quiz.id b ∈ ids2) as [Ha2 Hb2]
      by (split; by apply Hsub).
    specialize (Hkey a Hal Ha2).
    apply list_elem_of_fmap in Hkey as ([t g] & Ht' & Hin). simpl in Ht'.
    specialize (Hord _ Hin). simpl in Hord.
    rewrite (Hgroup _ _ Hin), Hl in Hord.
    rewrite !filter_app, !filter_cons_True, !filter_app, !filter_cons_True
      in Hord by (done || congruence).
    apply OrdPairs_split in Hord. rewrite Hord in Hp3; done.
Qed.
End Dedup.

Lemma OrdPairs_before {A} (R : A → A → Prop) (P rest : list A) (q p : A) :
  OrdPairs R (P ++ q :: rest) → p ∈ P → R p q.
Proof.
  intros Hord (l1 & l2 & ->)%list_elem_of_split.
  rewrite <- app_assoc in Hord. simpl in Hord. by apply OrdPairs_split in Hord.
Qed.

Lemma OrdPairs_sub_filter {A} (R : A → A → Prop) (P : A → Prop)
    `{∀ x, Decision (P x)} l :
  OrdPairs R l → OrdPairs R (filter P l).
Proof.
  intros Hord. apply OrdPairs_filter.
  eapply OrdPairs_impl; [done|]. auto.
Qed.

Lemma pass3Inner_noop quiz1 rest st :
  Forall (λ quiz2, pass3Duplicate quiz1 quiz2 = false) rest →
  pass3Inner quiz1 rest st = st.
Proof.
  induction 1 as [|quiz2 rest Hd _ IH]; simpl; [done|].
  unfold pass3Duplicate in Hd.
  destruct (decide _); [|done].
  destruct (distinctUniqueIds quiz1 quiz2); [done|].
  simpl in Hd. by rewrite Hd.
Qed.

Lemma pass3Outer_noop group st :
  OrdPairs (λ a b, pass3Duplicate a b = false) group →
  pass3Outer group st = st.
Proof.
  induction 1 as [|quiz1 rest Hall _ IH]; simpl; [done|].
  rewrite pass3Inner_noop by done. by destruct (decide _).
Qed.

Section DuplicateFree.
Context (host : Host).

Lemma pass1_duplicateFree (l : list Quiz.t) :
  NoDup (Quiz.id <$> l) → duplicateFree host l →
  (pass1 l).1.2 = idset l ∧ (pass1 l).2 = [].
Proof.
  intros Hnd Hfree.
  assert (Inv1 l (pass1 l) ∧ (pass1 l).2 = []) as [[Hids Hrem _ _ _] Hnil].
  { unfold pass1.
    apply (fold_left_prefix _ (λ P st, Inv1 P st ∧ st.2 = [])).
    - split; [apply Inv1_init|done].
    - intros P q rest [[m ids] removed] Hl [HI Hnil]. split.
      + apply pass1Step_inv; [done|]. rewrite Hl in Hnd.
        by apply NoDup_id_prefix in Hnd.
      + simpl in *. subst removed. unfold pass1Step.
        destruct (uidOf q) as [u|] eqn:Hu; [|done].
        destruct (m !! u) as [ex|] eqn:Hm; [|done].
        exfalso. destruct (inv1_map _ _ HI _ _ Hm) as (Hex & Huex & _).
        rewrite Hl in Hfree.
        apply (OrdPairs_before _ _ _ _ _ Hfree Hex). left. eauto. }
  split; [|done]. rewrite Hnil in Hrem.
  apply set_eq. intros k. split; [by apply Hids|].
  intros Hk. destruct (decide (k ∈ (pass1 l).1.2)) as [|Hn]; [done|].
  assert (k ∈ idset (@nil Quiz.t)) as Hk' by (rewrite Hrem; set_solver).
  by rewrite idset_nil in Hk'.
Qed.

Lemma pass2_duplicateFree (l : list Quiz.t) :
  NoDup (Quiz.id <$> l) → duplicateFree host l →
  (pass2 host l (idset l) []).1.2 = idset l
  ∧ (pass2 host l (idset l) []).2 = [].
Proof.
  intros Hnd Hfree. unfold pass2.
  refine (proj2 (fold_left_prefix _
    (λ P st, (∀ h q, st.1.1 !! h = Some q →
                     q ∈ P ∧ uidOf q = None ∧ createContentHash host q = h)
             ∧ st.1.2 = idset l ∧ st.2 = []) l _ _ _)).
  - split; [|done]. intros h q Hl. simpl in Hl.
    by rewrite lookup_empty in Hl.
  - intros P q rest [[m ids] removed] Hl (Hmap & Hids & Hrem). simpl in *.
    subst ids removed. unfold pass2Step.
    destruct (decide _) as [_|]; [|split; [|done]].
    + destruct (uidOf q) as [u|] eqn:Hu; [split; [|done]|].
      * intros h q' Hq'. destruct (Hmap _ _ Hq') as (? & ? & ?).
        split; [|done]. apply elem_of_app. by left.
      * destruct (m !! createContentHash host q) as [ex|] eqn:Hm.
        -- exfalso. destruct (Hmap _ _ Hm) as (Hex & Huex & Hh).
           rewrite Hl in Hfree.
           apply (OrdPairs_before _ _ _ _ _ Hfree Hex). right. by left.
        -- split; [|done]. intros h q' Hq'. simpl in *.
           destruct (decide (createContentHash host q = h)) as [<-|Hne].
           ++ rewrite lookup_insert_eq in Hq'. injection Hq' as <-.
              split; [|done]. apply elem_of_app. right. left.
           ++ rewrite lookup_insert_ne in Hq' by done.
              destruct (Hmap _ _ Hq') as (? & ? & ?).
              split; [|done]. apply elem_of_app. by left.
    + intros h q' Hq'. destruct (Hmap _ _ Hq') as (? & ? & ?).
      split; [|done]. apply elem_of_app. by left.
Qed.

Lemma pass3_duplicateFree (l : list Quiz.t) ids :
  duplicateFree host l → pass3 l ids [] = (ids, []).
Proof.
  intros Hfree. unfold pass3.
  pose proof (buildTitleMap_spec l ids) as [_ Hgroup _].
  apply (fold_left_preserves_mem pass3Step (λ st, st = (ids, [])));
    [done|].
  intros st [t g] Hin ->. unfold pass3Step.
  destruct (1 <? length _)%nat; [|done]. simpl.
  apply pass3Outer_noop. rewrite (Hgroup _ _ Hin).
  eapply OrdPairs_impl.
  - apply OrdPairs_sub_filter, OrdPairs_sub_filter, Hfree.
  - intros a b [Ha _]%list_elem_of_filter [Hb _]%list_elem_of_filter Hn.
    destruct (pass3Duplicate a b) eqn:Hp; [|done].
    exfalso. apply Hn. right. right. split; [congruence|done].
Qed.

(** Nothing is removed from a collection in which no record is a
    duplicate of a record before it. *)
Lemma findDuplicates_duplicateFree (l : list Quiz.t) :
  NoDup (Quiz.id <$> l) → duplicateFree host l →
  (findDuplicates host l).2 = [].
Proof.
  intros Hnd Hfree. unfold findDuplicates.
  destruct (pass1_duplicateFree l Hnd Hfree) as [Hi1 Hr1].
  destruct (pass1 l) as [[m1 ids1] rem1]. simpl in *. subst.
  destruct (pass2_duplicateFree l Hnd Hfree) as [Hi2 Hr2].
  destruct (pass2 host l (idset l) []) as [[hm ids2] rem2]. simpl in *. subst.
  by rewrite pass3_duplicateFree.
Qed.
End DuplicateFree.

(** ** removeDuplicateQuizzes on a store *)

Section RemoveDuplicates.
Context (host : Host).

Lemma removeDuplicateQuizzes_spec (s : MemStorage) :
  wf s →
  let kept := (findDuplicates host (getAllQuizzes s)).1 in
  let r := removeDuplicateQuizzes host s in
  r.1 = {| quizCollection := filter (λ p, p.1 ∈ kept) (quizCollection s);
           quizCurrentId := quizCurrentId s |}
  ∧ getAllQuizzes r.1 = filter (λ q, Quiz.id q ∈ kept) (getAllQuizzes s)
  ∧ r.2 = Z.of_nat (length (getAllQuizzes s))
          - Z.of_nat (length (getAllQuizzes r.1)).
Proof.
  intros Hwf kept r.
  pose proof (findDuplicates_spec host _ (NoDup_values_id s Hwf))
    as [[Hids Hrem] _].
  unfold getAllQuizzes in *. fold kept in Hids, Hrem.
  assert (r.1 = {| quizCollection :=
                     filter (λ p, p.1 ∈ kept) (quizCollection s);
                   quizCurrentId := quizCurrentId s |}) as Hr.
  { unfold r, removeDuplicateQuizzes.
    destruct (findDuplicates host _) as [F R]. simpl in *.
    rewrite (proj1 (deleteEach_spec R s)). f_equal.
    apply filter_ext_elem. intros [k q] Hin. simpl.
    assert (k ∈ idset (JsMap.values (quizCollection s))) as Hk.
    { rewrite <- (wf_key _ Hwf _ _ Hin).
      apply idset_elem. by apply (list_elem_of_fmap_2 snd) in Hin. }
    assert (k ∈ Quiz.id <$> R ↔ k ∈ idset R) as ->.
    { unfold idset. by rewrite elem_of_list_to_set. }
    rewrite Hrem, elem_of_difference. split.
    - intros Hn. destruct (decide (k ∈ kept)); [done|]. by destruct Hn.
    - by intros ? [_ ?]. }
  split; [done|]. split.
  - rewrite Hr. simpl. apply values_filter.
    intros [k q] Hin. simpl. by rewrite (wf_key _ Hwf _ _ Hin).
  - unfold r, removeDuplicateQuizzes in *.
    destruct (findDuplicates host _) as [F R].
    rewrite (proj2 (deleteEach_spec R s)) by by destruct Hwf.
    unfold JsMap.values. by rewrite !length_fmap.
Qed.

Lemma wf_removeDuplicateQuizzes s : wf s → wf (removeDuplicateQuizzes host s).1.
Proof.
  intros Hwf. rewrite (proj1 (removeDuplicateQuizzes_spec s Hwf)).
  by apply wf_filter.
Qed.

Lemma removeDuplicateQuizzes_duplicateFree (s : MemStorage) :
  wf s → duplicateFree host (getAllQuizzes s) →
  removeDuplicateQuizzes host s = (s, 0).
Proof.
  intros Hwf Hfree. unfold removeDuplicateQuizzes.
  pose proof (findDuplicates_duplicateFree host _
                (NoDup_values_id s Hwf) Hfree) as Hnil.
  unfold getAllQuizzes in *.
  destruct (findDuplicates host _) as [F R]. simpl in Hnil. by subst R.
Qed.

(** C6.  A second run of [removeDuplicateQuizzes] removes nothing: it
    returns 0 and leaves the store as the first run left it. *)
Theorem removeDuplicateQuizzes_idempotent (s : MemStorage) :
  wf s →
  removeDuplicateQuizzes host (removeDuplicateQuizzes host s).1
  = ((removeDuplicateQuizzes host s).1, 0).
Proof.
  intros Hwf. apply removeDuplicateQuizzes_duplicateFree.
  - by apply wf_removeDuplicateQuizzes.
  - destruct (removeDuplicateQuizzes_spec s Hwf) as (_ & -> & _).
    by apply findDuplicates_spec, NoDup_values_id.
Qed.

Lemma createContentHash_title (a b : Quiz.t) :
  createContentHash host a = createContentHash host b →
  normalize (Quiz.title a) = normalize (Quiz.title b).
Proof. unfold createContentHash. apply HashFacts.fingerprint_title. Qed.

Lemma NoDup_fmap_before {A B} (f : A → B) (l1 l2 l3 : list A) a b :
  NoDup (f <$> (l1 ++ a :: l2 ++ b :: l3)) → f a ≠ f b.
Proof.
  rewrite fmap_app, fmap_cons, fmap_app, fmap_cons.
  intros (_ & _ & [Ha _]%NoDup_cons)%NoDup_app Heq.
  apply Ha. rewrite Heq. apply elem_of_app. right. left.
Qed.

(** C10.  When the records that have a [uniqueId] have distinct ones and
    all normalized titles are distinct, [removeDuplicateQuizzes] returns
    0 and leaves the store as it is. *)
Theorem removeDuplicateQuizzes_distinct (s : MemStorage) :
  wf s →
  NoDup (omap uidOf (getAllQuizzes s)) →
  NoDup ((λ q, normalize (Quiz.title q)) <$> getAllQuizzes s) →
  removeDuplicateQuizzes host s = (s, 0).
Proof.
  intros Hwf Huid Htitle. apply removeDuplicateQuizzes_duplicateFree; [done|].
  apply OrdPairs_intro. intros l1 a l2 b l3 Hl Hdup.
  rewrite Hl in Huid, Htitle.
  apply NoDup_fmap_before in Htitle.
  destruct Hdup as [(u & Hua & Hub)|[(_ & _ & Hh)|(Ht & _)]]; [|auto using createContentHash_title..].
  rewrite omap_app in Huid. simpl in Huid. rewrite Hua, omap_app in Huid.
  simpl in Huid. rewrite Hub in Huid.
  apply NoDup_app in Huid as (_ & _ & [Hu _]%NoDup_cons).
  apply Hu, elem_of_app. right. left.
Qed.
End RemoveDuplicates.

(** ** Two records with the same title *)

Lemma agreeCount_le_filter (pre qs1 qs2 : list Question.t) :
  (agreeCount qs1 qs2
   ≤ length (filter (λ q1, existsb (questionMatches q1) (pre ++ qs2) = true)
                    qs1))%nat.
Proof.
  revert pre qs2. induction qs1 as [|q1 qs1 IH]; intros pre [|q2 qs2];
    simpl; try lia.
  specialize (IH (pre ++ [q2]) qs2). rewrite <- app_assoc in IH. simpl in IH.
  rewrite filter_cons. case_bool_decide as Heq.
  - rewrite decide_True; [simpl; lia|].
    rewrite existsb_app. simpl. unfold questionMatches at 2.
    rewrite (bool_decide_eq_true_2 _ Heq). by rewrite !orb_true_r.
  - case_decide; simpl; lia.
Qed.

Lemma agreeCount_le_matchCount (qs1 qs2 : list Question.t) :
  Z.of_nat (agreeCount qs1 qs2) ≤ matchCount qs1 qs2.
Proof.
  rewrite matchCount_filter.
  pose proof (agreeCount_le_filter [] qs1 qs2). simpl in *. lia.
Qed.

Lemma similarQuestions_five (a b : Quiz.t) (qs1 qs2 : list Question.t) :
  Quiz.questions a = Some qs1 → Quiz.questions b = Some qs2 →
  length qs1 = 5%nat → length qs2 = 5%nat →
  similarQuestions a b = true ↔ 4 ≤ matchCount qs1 qs2.
Proof.
  intros Ha Hb H1 H2. unfold similarQuestions, reachesThreshold.
  rewrite Ha, Hb, H1, H2. simpl. rewrite Z.leb_le. lia.
Qed.

Section FuzzyMatch.
Context (host : Host).

(** C1 (as amended).  The store holds two records with the same normalized
    title and five questions each.  When the normalized correct answers
    agree at four of the five positions at least, and the two records do
    not both carry a [uniqueId] that differs from the other's,
    [removeDuplicateQuizzes] removes one of the two and keeps the other.
    When fewer than four questions of the first record match a question
    of the second by prompt or by correct answer, and the two records
    share neither a [uniqueId] nor, both without [uniqueId], a
    fingerprint, it removes neither. *)
Theorem fuzzy_match_pair (s : MemStorage) (a b : Quiz.t)
    (qs1 qs2 : list Question.t) :
  wf s → getAllQuizzes s = [a; b] →
  normalize (Quiz.title a) = normalize (Quiz.title b) →
  Quiz.questions a = Some qs1 → Quiz.questions b = Some qs2 →
  length qs1 = 5%nat → length qs2 = 5%nat →
  ((4 ≤ agreeCount qs1 qs2)%nat → distinctUniqueIds a b = false →
   (removeDuplicateQuizzes host s).2 = 1
   ∧ (getAllQuizzes (removeDuplicateQuizzes host s).1 = [a]
      ∨ getAllQuizzes (removeDuplicateQuizzes host s).1 = [b]))
  ∧ (matchCount qs1 qs2 < 4 →
     (∀ u, uidOf a = Some u → uidOf b ≠ Some u) →
     (uidOf a = None → uidOf b = None →
      createContentHash host a ≠ createContentHash host b) →
     removeDuplicateQuizzes host s = (s, 0)).
Proof.
  intros Hwf Hall Ht Ha Hb H1 H2.
  pose proof (similarQuestions_five a b qs1 qs2 Ha Hb H1 H2) as Hsim.
  split.
  - intros Hagree Hd.
    assert (duplicates host a b) as Hdup.
    { right. right. split; [done|]. unfold pass3Duplicate. rewrite Hd. simpl.
      apply Hsim. pose proof (agreeCount_le_matchCount qs1 qs2). lia. }
    destruct (removeDuplicateQuizzes_spec host s Hwf) as (_ & Hvals & Hcount).
    pose proof (NoDup_values_id s Hwf) as Hnd.
    destruct (findDuplicates_spec host _ Hnd) as ([Hids _] & Hne & Hfree).
    unfold getAllQuizzes in *. rewrite Hall in *.
    set (kept := (findDuplicates host [a; b]).1) in *.
    rewrite Hcount, Hvals. clear Hcount Hvals.
    rewrite !filter_cons, filter_nil in *.
    destruct (decide (Quiz.id a ∈ kept)) as [Hka|Hka],
             (decide (Quiz.id b ∈ kept)) as [Hkb|Hkb]; simpl.
    + exfalso. inversion Hfree as [|? ? Hall' _]; subst.
      by apply Forall_cons in Hall' as [? _].
    + split; [done|by left].
    + split; [done|by right].
    + exfalso. destruct Hne as [k Hk]; [done|].
      pose proof (Hids _ Hk) as Hk'.
      apply elem_of_idset in Hk' as (q & Hq & <-).
      apply elem_of_cons in Hq as [->|Hq]; [done|].
      by apply list_elem_of_singleton in Hq as ->.
  - intros Hmc Huid Hhash.
    apply removeDuplicateQuizzes_duplicateFree; [done|].
    rewrite Hall. constructor; [|repeat constructor].
    constructor; [|constructor].
    intros [(u & Hua & Hub)|[(Hua & Hub & Hh)|(_ & Hp3)]].
    + by apply (Huid u).
    + by apply Hhash.
    + unfold pass3Duplicate in Hp3. apply andb_true_iff in Hp3 as [_ Hs].
      apply Hsim in Hs. lia.
Qed.
End FuzzyMatch.

(** ** The theorems at concrete stores *)

Lemma wfb_wf (s : MemStorage) : wfb s = true → wf s.
Proof.
  unfold wfb. rewrite andb_true_iff, bool_decide_eq_true, forallb_forall.
  intros [Hnd Hall]. split; [done| |].
  - intros k q Hin. apply list_elem_of_In, Hall in Hin. simpl in Hin. lia.
  - intros k ([k' q] & -> & Hin)%list_elem_of_fmap.
    apply list_elem_of_In, Hall in Hin. simpl in *. lia.
Qed.

(** C4, the claim as it is written fails on a record whose version is 0:
    both records have a version and that of the first is the greater, and
    the test does not keep the first.  Such a pair is stored when a quiz
    is created with version 2, a second with version -1, and the second is
    updated (its [uniqueId] emptied): the versions are 2 and 0, and
    [removeDuplicateQuizzes] removes the record with version 2. *)
Lemma recency_zero_version_counterexample :
  let a := Examples.quiz 1 None "t" [] (Some 2) None in
  let b := Examples.quiz 2 None "t" [] (Some 0) None in
  let s1 := (createQuiz Examples.host newMemStorage
               (Examples.withVersion 2
                  (Examples.submitted (Some "a") "Quiz" Examples.five true))).1 in
  let s2 := (createQuiz Examples.host s1
               (Examples.withVersion (-1)
                  (Examples.submitted (Some "b") "Quiz" Examples.five true))).1 in
  let s3 := (updateQuiz s2 2 Examples.emptyUniqueId).1 in
  (∃ v v', Quiz.version a = Some v ∧ Quiz.version b = Some v' ∧ v' < v)
  ∧ keepNew a b = false
  ∧ Quiz.version <$> getAllQuizzes s3 = [Some 2; Some 0]
  ∧ Quiz.version <$> getAllQuizzes (removeDuplicateQuizzes Examples.host s3).1
    = [Some 0].
Proof.
  split; [exists 2, 0; repeat split; lia|]. vm_compute. by repeat split.
Qed.

Lemma recency_tie_break_witness :
  let a := Examples.quiz 2 (Some "u1") "t" [] (Some 2) (Some 1002) in
  let b := Examples.quiz 1 (Some "u1") "t" [] (Some 1) (Some 1001) in
  keepNew a b = true
  ∧ (pass1Step ({[ "u1" := b ]}, {[1]}, []) a).2 = [b]
  ∧ (pass3Inner a [b] ({[1; 2]}, [])).2 = [b].
Proof.
  intros a b.
  destruct (recency_tie_break a b) as (Hiff & H1 & _ & H3).
  split; [|split].
  - apply Hiff. left. exists 2, 1. repeat split; (done || lia).
  - apply (H1 {[ "u1" := b ]} {[1]} [] "u1"); [done|].
    apply lookup_singleton_eq.
  - apply (H3 {[1; 2]} []); [vm_compute; set_solver|done|done].
Defined.

Lemma fuzzy_match_pair_witness :
  let s4 := Examples.mathQuizzes Examples.five Examples.fiveAgree4 in
  let s3 := Examples.mathQuizzes Examples.five Examples.fiveAgree3 in
  (removeDuplicateQuizzes Examples.host s4).2 = 1
  ∧ removeDuplicateQuizzes Examples.host s3 = (s3, 0).
Proof.
  intros s4 s3. split.
  - refine (proj1 (proj1 (fuzzy_match_pair Examples.host s4 _ _
        Examples.five Examples.fiveAgree4 _ eq_refl eq_refl eq_refl eq_refl
        eq_refl eq_refl) _ _)).
    + apply wfb_wf. by vm_compute.
    + vm_compute. lia.
    + by vm_compute.
  - refine (proj2 (fuzzy_match_pair Examples.host s3 _ _
        Examples.five Examples.fiveAgree3 _ eq_refl eq_refl eq_refl eq_refl
        eq_refl eq_refl) _ _ _).
    + apply wfb_wf. by vm_compute.
    + by vm_compute.
    + intros u. by vm_compute.
    + intros _ _. by vm_compute.
Defined.

(** C1, the claim as it is written fails in its second half: the correct
    answers agree at three of the five positions, no prompt of one quiz is
    a prompt of the other and the [uniqueId] of both records is empty; the
    two questions left of the first quiz have the correct answer of its
    first question, all five match, and the first record is removed. *)
Lemma fuzzy_match_three_counterexample :
  let s := Examples.mathQuizzes Examples.fiveRepeated Examples.fiveAgree3 in
  Quiz.uniqueId <$> getAllQuizzes s = [Some EmptyString; Some EmptyString]
  ∧ agreeCount Examples.fiveRepeated Examples.fiveAgree3 = 3%nat
  ∧ matchCount Examples.fiveRepeated Examples.fiveAgree3 = 5
  ∧ (removeDuplicateQuizzes Examples.host s).2 = 1
  ∧ Quiz.id <$> getAllQuizzes (removeDuplicateQuizzes Examples.host s).1 = [2].
Proof. vm_compute. by repeat split. Qed.

Lemma removeDuplicateQuizzes_idempotent_witness :
  let s := Examples.mathQuizzes Examples.five Examples.fiveAgree4 in
  let s' := (removeDuplicateQuizzes Examples.host s).1 in
  removeDuplicateQuizzes Examples.host s' = (s', 0).
Proof.
  intros s s'.
  apply (removeDuplicateQuizzes_idempotent Examples.host s).
  apply wfb_wf. by vm_compute.
Defined.

Lemma removeDuplicateQuizzes_distinct_witness :
  let s := Examples.store
             [Examples.quiz 1 (Some "u1") "Math Quiz" Examples.five
                (Some 1) (Some 1001);
              Examples.quiz 2 (Some "u2") "History Quiz" Examples.five
                (Some 1) (Some 1002)] 3 in
  removeDuplicateQuizzes Examples.host s = (s, 0).
Proof.
  intros s. apply (removeDuplicateQuizzes_distinct Examples.host s).
  - apply wfb_wf. by vm_compute.
  - apply (bool_decide_unpack _). by vm_compute.
  - apply (bool_decide_unpack _). by vm_compute.
Defined.

(** * Further properties of the storage layer and of the handlers *)

(** ** Lookups in insertion-ordered maps *)
Section JsMapLookups.
Context {K V : Type} `{EqDecision K}.
Implicit Types (k : K) (v : V) (m : list (K * V)).

Lemma JsMap_get_set_eq k v m : JsMap.get k (JsMap.set k v m) = Some v.
Proof.
  induction m as [|p m IH]; simpl.
  - unfold JsMap.get. simpl. by rewrite bool_decide_true.
  - destruct (decide (p.1 = k)) as [Hp|Hp].
    + unfold JsMap.get. simpl. by rewrite bool_decide_true.
    + unfold JsMap.get in *. simpl. by rewrite bool_decide_false.
Qed.

Lemma JsMap_get_set_ne k k' v m :
  k' ≠ k → JsMap.get k' (JsMap.set k v m) = JsMap.get k' m.
Proof.
  intros Hne. induction m as [|p m IH]; simpl.
  - unfold JsMap.get. simpl. by rewrite bool_decide_false.
  - destruct (decide (p.1 = k)) as [Hp|Hp].
    + unfold JsMap.get. simpl.
      rewrite !bool_decide_false; [done|congruence|done].
    + unfold JsMap.get in *. simpl.
      destruct (bool_decide (p.1 = k')); [done|apply IH].
Qed.

Lemma JsMap_keys_set_present k v m :
  k ∈ JsMap.keys m → JsMap.keys (JsMap.set k v m) = JsMap.keys m.
Proof.
  unfold JsMap.keys. induction m as [|p m IH]; simpl.
  - by intros ?%elem_of_nil.
  - intros Hk. destruct (decide (p.1 = k)) as [Hp|Hp]; simpl.
    + by rewrite Hp.
    + f_equal. apply IH. apply elem_of_cons in Hk as [Hk|Hk]; [congruence|done].
Qed.

Lemma JsMap_get_filter_ne k k' m :
  JsMap.get k' (filter (λ p, p.1 ≠ k) m)
  = if decide (k' = k) then None else JsMap.get k' m.
Proof.
  unfold JsMap.get. induction m as [|p m IH]; simpl.
  - by destruct (decide (k' = k)).
  - rewrite filter_cons. destruct (decide (p.1 ≠ k)) as [Hp|Hp]; simpl.
    + destruct (bool_decide_reflect (p.1 = k')) as [Hp'|Hp'].
      * rewrite decide_False by congruence. done.
      * apply IH.
    + rewrite IH. destruct (decide (k' = k)) as [->|Hne]; [done|].
      rewrite bool_decide_false; [done|]. intros Hp'. apply Hp. intros Hk.
      congruence.
Qed.
End JsMapLookups.

(** ** Creating, updating and deleting one record *)

Lemma getQuizByUniqueId_app s s' u m :
  quizCollection s' = quizCollection s ++ m →
  getQuizByUniqueId s' u
  = match getQuizByUniqueId s u with
    | Some quiz => Some quiz
    | None => find (λ quiz, bool_decide (Quiz.uniqueId quiz = Some u))
                   (JsMap.values m)
    end.
Proof.
  intros Hs'. unfold getQuizByUniqueId, JsMap.values. rewrite Hs', fmap_app.
  generalize ((quizCollection s).*2). intros l.
  induction l as [|q l IH]; simpl; [done|].
  by destruct (bool_decide (Quiz.uniqueId q = Some u)).
Qed.

(** X1.  [createQuiz] stores the new record under an id that no record had:
    a lookup of that id gives the record, every other id is looked up as
    before, the record is the last of [getAllQuizzes], and a [uniqueId] is
    looked up to the record that had it first. *)
Theorem createQuiz_stored (host : Host) (s : MemStorage) (quiz : InsertQuiz.t) :
  wf s →
  let r := createQuiz host s quiz in
  getQuiz s (Quiz.id r.2) = None
  ∧ getQuiz r.1 (Quiz.id r.2) = Some r.2
  ∧ (∀ id, id ≠ Quiz.id r.2 → getQuiz r.1 id = getQuiz s id)
  ∧ getAllQuizzes r.1 = getAllQuizzes s ++ [r.2]
  ∧ (∀ u, getQuizByUniqueId r.1 u
          = match getQuizByUniqueId s u with
            | Some existingQuiz => Some existingQuiz
            | None => if decide (Quiz.uniqueId r.2 = Some u)
                      then Some r.2 else None
            end).
Proof.
  intros Hwf r.
  pose proof (createQuiz_collection host s quiz Hwf) as Hcoll.
  pose proof (createQuiz_id host s quiz) as [Hid _].
  fold r in Hcoll, Hid.
  split; [|split; [|split; [|split]]].
  - rewrite Hid. unfold getQuiz. apply JsMap_get_None. intros Hk.
    apply (wf_fresh _ Hwf) in Hk. lia.
  - rewrite Hid. unfold getQuiz, r. simpl. apply JsMap_get_set_eq.
  - intros id Hne. rewrite Hid in Hne. unfold getQuiz, r. simpl.
    by apply JsMap_get_set_ne.
  - unfold getAllQuizzes, JsMap.values. rewrite Hcoll, fmap_app. done.
  - intros u. rewrite (getQuizByUniqueId_app s r.1 u _ Hcoll).
    clearbody r. simpl.
    destruct (getQuizByUniqueId s u); [done|].
    destruct (decide (Quiz.uniqueId r.2 = Some u)) as [Hu|Hu].
    + by rewrite bool_decide_true.
    + by rewrite bool_decide_false.
Qed.

(** X2.  [updateQuiz] on an id that is not stored returns nothing and
    leaves the store as it is.  On a stored id it returns the record that a
    lookup of the id now gives: the id is the same, the version is one more
    than the stored version (1 when that was missing or 0), whatever
    version the update carries; the other records, the order of the records
    and [quizCurrentId] do not change. *)
Theorem updateQuiz_stored (s : MemStorage) (id : Z) (quizUpdate : QuizUpdate.t) :
  let r := updateQuiz s id quizUpdate in
  match getQuiz s id with
  | None => r = (s, None)
  | Some existingQuiz =>
      ∃ updatedQuiz,
        r.2 = Some updatedQuiz
        ∧ getQuiz r.1 id = Some updatedQuiz
        ∧ Quiz.id updatedQuiz = Quiz.id existingQuiz
        ∧ Quiz.version updatedQuiz
          = Some (nextVersion (Quiz.version existingQuiz))
        ∧ (∀ id', id' ≠ id → getQuiz r.1 id' = getQuiz s id')
        ∧ JsMap.keys (quizCollection r.1) = JsMap.keys (quizCollection s)
        ∧ quizCurrentId r.1 = quizCurrentId s
  end.
Proof.
  intros r. subst r. unfold updateQuiz, getQuiz.
  destruct (JsMap.get id (quizCollection s)) as [existingQuiz|] eqn:Hget;
    [|done].
  exists (updated existingQuiz quizUpdate). simpl.
  split; [done|]. split; [apply JsMap_get_set_eq|]. split; [done|].
  split.
  { unfold nextVersion, Js.truthyNum.
    destruct (Quiz.version existingQuiz) as [v|]; simpl; [|done].
    by destruct (v =? 0). }
  split; [intros id' Hne; by apply JsMap_get_set_ne|].
  split; [|done].
  apply JsMap_keys_set_present. apply JsMap_get_elem_of in Hget.
  unfold JsMap.keys. by apply (list_elem_of_fmap_2 fst) in Hget.
Qed.

(** X3.  [deleteQuiz] returns [true] exactly when a record with the id was
    stored.  Afterwards the id is not stored and every other id is looked up
    as before; when it returns [false] the store is as it was, and a second
    [deleteQuiz] of the same id returns [false]. *)
Theorem deleteQuiz_stored (s : MemStorage) (id : Z) :
  let r := deleteQuiz s id in
  (r.2 = true ↔ is_Some (getQuiz s id))
  ∧ getQuiz r.1 id = None
  ∧ (∀ id', id' ≠ id → getQuiz r.1 id' = getQuiz s id')
  ∧ (r.2 = false → r.1 = s)
  ∧ deleteQuiz r.1 id = (r.1, false).
Proof.
  intros r. subst r.
  assert (Hget : ∀ id', getQuiz (deleteQuiz s id).1 id'
                        = if decide (id' = id) then None else getQuiz s id').
  { intros id'. rewrite deleteQuiz_collection. unfold getQuiz. simpl.
    apply JsMap_get_filter_ne. }
  split; [|split; [|split; [|split]]].
  - unfold deleteQuiz, JsMap.delete, JsMap.has, getQuiz. simpl.
    apply bool_decide_eq_true.
  - rewrite Hget. by rewrite decide_True.
  - intros id' Hne. rewrite Hget. by rewrite decide_False.
  - unfold deleteQuiz, JsMap.delete. simpl. intros Hhas.
    destruct s as [m next]. simpl in *. f_equal.
    apply JsMap_filter_absent. apply JsMap_get_None.
    unfold JsMap.has in Hhas. apply bool_decide_eq_false in Hhas.
    destruct (JsMap.get id m) eqn:E; [|done]. destruct Hhas. eauto.
  - rewrite deleteQuiz_collection. unfold deleteQuiz, JsMap.delete. simpl.
    f_equal.
    + f_equal. rewrite list_filter_filter. apply list_filter_iff. tauto.
    + unfold JsMap.has. apply bool_decide_eq_false. intros [v Hv].
      rewrite JsMap_get_filter_ne in Hv. by rewrite decide_True in Hv.
Qed.

Lemma getAllQuizzes_deletePrivateQuizzes s :
  wf s → getAllQuizzes (deletePrivateQuizzes s).1 = getPublicQuizzes s.
Proof.
  intros Hwf. rewrite (deletePrivateQuizzes_spec s Hwf).
  unfold getAllQuizzes, getPublicQuizzes. simpl.
  rewrite (values_filter _ (λ quiz, Quiz.isPublic quiz = Some true)).
  - done.
  - intros p _. destruct (Quiz.isPublic p.2) as [[]|]; simpl; naive_solver.
Qed.

(** X4.  [deletePrivateQuizzes] leaves the public records, in their order,
    and returns the number of the records that were not public; a second
    run deletes nothing and returns 0. *)
Theorem deletePrivateQuizzes_stored (s : MemStorage) :
  wf s →
  let r := deletePrivateQuizzes s in
  getAllQuizzes r.1 = getPublicQuizzes s
  ∧ quizCurrentId r.1 = quizCurrentId s
  ∧ r.2 = Z.of_nat (length (getAllQuizzes s))
          - Z.of_nat (length (getPublicQuizzes s))
  ∧ deletePrivateQuizzes r.1 = (r.1, 0).
Proof.
  intros Hwf r.
  pose proof getAllQuizzes_deletePrivateQuizzes as Hall.
  assert (Hcount : ∀ s, wf s →
            (deletePrivateQuizzes s).2
            = Z.of_nat (length (getAllQuizzes s))
              - Z.of_nat (length (getPublicQuizzes s))).
  { intros s0 Hwf0. rewrite <- (Hall s0 Hwf0).
    unfold deletePrivateQuizzes.
    pose proof (deleteEach_spec
      (filter (λ quiz, Js.truthyBool (Quiz.isPublic quiz) = false)
              (JsMap.values (quizCollection s0))) s0) as [_ Hn].
    rewrite (Hn (wf_nodup _ Hwf0)).
    unfold getAllQuizzes, JsMap.values. by rewrite !length_fmap. }
  split; [by apply Hall|]. split.
  { unfold r. by rewrite (deletePrivateQuizzes_spec s Hwf). }
  split; [by apply Hcount|].
  pose proof (wf_deletePrivateQuizzes s Hwf) as Hwf'. fold r in Hwf'.
  apply injective_projections.
  - rewrite (deletePrivateQuizzes_spec r.1 Hwf'). simpl.
    unfold r at 3. rewrite (deletePrivateQuizzes_spec s Hwf). simpl.
    destruct r.1 as [m next] eqn:Er. simpl. f_equal.
    + assert (m = quizCollection r.1) as -> by (by rewrite Er).
      unfold r. rewrite (deletePrivateQuizzes_spec s Hwf). simpl.
      rewrite list_filter_filter. apply list_filter_iff. tauto.
    + assert (next = quizCurrentId r.1) as -> by (by rewrite Er).
      unfold r. by rewrite (deletePrivateQuizzes_spec s Hwf).
  - rewrite (Hcount r.1 Hwf'). simpl.
    assert (getPublicQuizzes r.1 = getAllQuizzes r.1) as ->; [|lia].
    unfold getPublicQuizzes. fold (getAllQuizzes r.1). unfold r.
    rewrite (Hall s Hwf). unfold getPublicQuizzes.
    rewrite list_filter_filter. apply list_filter_iff. tauto.
Qed.

(** ** Every store that is reached *)

Section ReachableFacts.
Variable host : Host.

Lemma filledIn_createQuiz s quiz : filledIn (createQuiz host s quiz).2.
Proof.
  unfold filledIn, createQuiz. simpl. split; [|split].
  - destruct (Js.truthyStr (InsertQuiz.uniqueId quiz)) eqn:E; [|eauto].
    destruct (InsertQuiz.uniqueId quiz); [eauto|done].
  - destruct (Js.truthyNum (InsertQuiz.version quiz)) eqn:E; [|eauto].
    destruct (InsertQuiz.version quiz); [eauto|done].
  - destruct (InsertQuiz.createdAt quiz); eauto.
Qed.

Lemma filledIn_updated existingQuiz quizUpdate :
  filledIn existingQuiz → filledIn (updated existingQuiz quizUpdate).
Proof.
  intros ([u Hu] & [v Hv] & [d Hd]). unfold filledIn, updated. simpl.
  rewrite Hu, Hv, Hd. split; [|split].
  - destruct (QuizUpdate.uniqueId quizUpdate); simpl; eauto.
  - destruct (Js.truthyNum (Some v)); simpl; eauto.
  - destruct (QuizUpdate.createdAt quizUpdate); simpl; eauto.
Qed.

Lemma elem_of_values_filter (P : Z * Quiz.t → Prop) `{∀ p, Decision (P p)}
    (m : list (Z * Quiz.t)) quiz :
  quiz ∈ JsMap.values (filter P m) → quiz ∈ JsMap.values m.
Proof.
  unfold JsMap.values. intros (p & -> & Hp)%list_elem_of_fmap.
  apply list_elem_of_filter in Hp as [_ Hp]. by apply list_elem_of_fmap_2.
Qed.

Lemma records_createQuiz (I : Quiz.t → Prop) s quiz :
  wf s → I (createQuiz host s quiz).2 →
  (∀ q, q ∈ getAllQuizzes s → I q) →
  ∀ q, q ∈ getAllQuizzes (createQuiz host s quiz).1 → I q.
Proof.
  intros Hwf Hnew Hold q. unfold getAllQuizzes, JsMap.values.
  rewrite (createQuiz_collection host s quiz Hwf), fmap_app.
  intros [Hq|Hq]%elem_of_app; [by apply Hold|].
  simpl in Hq. apply list_elem_of_singleton in Hq. by subst q.
Qed.

Lemma records_updateQuiz (I : Quiz.t → Prop) s id quizUpdate :
  (∀ existingQuiz, I existingQuiz → I (updated existingQuiz quizUpdate)) →
  (∀ q, q ∈ getAllQuizzes s → I q) →
  ∀ q, q ∈ getAllQuizzes (updateQuiz s id quizUpdate).1 → I q.
Proof.
  intros Hupd Hold q. unfold updateQuiz.
  destruct (JsMap.get id (quizCollection s)) as [existingQuiz|] eqn:Hget;
    [|by apply Hold].
  destruct (JsMap_get_Some_split _ _ _ Hget) as (m1 & m2 & Hm & Hk).
  simpl. unfold getAllQuizzes in *. simpl. rewrite Hm in Hold |- *.
  rewrite (JsMap_set_split _ _ _ _ _ Hk). unfold JsMap.values in *.
  rewrite fmap_app, fmap_cons in Hold |- *. simpl in *.
  intros [Hq|[->|Hq]%elem_of_cons]%elem_of_app.
  - apply Hold. apply elem_of_app. by left.
  - apply Hupd, Hold. apply elem_of_app. right. by left.
  - apply Hold. apply elem_of_app. right. by right.
Qed.

Lemma records_deleteQuiz (I : Quiz.t → Prop) s id :
  (∀ q, q ∈ getAllQuizzes s → I q) →
  ∀ q, q ∈ getAllQuizzes (deleteQuiz s id).1 → I q.
Proof.
  intros Hold q. rewrite deleteQuiz_collection. unfold getAllQuizzes. simpl.
  intros Hq%elem_of_values_filter. by apply Hold.
Qed.

Lemma records_deleteEach (I : Quiz.t → Prop) l s :
  (∀ q, q ∈ getAllQuizzes s → I q) →
  ∀ q, q ∈ getAllQuizzes (deleteEach l s).1 → I q.
Proof.
  intros Hold q. destruct (deleteEach_spec l s) as [-> _].
  unfold getAllQuizzes. simpl.
  intros Hq%elem_of_values_filter. by apply Hold.
Qed.

Lemma records_syncQuizzes (I : Quiz.t → Prop) s batch :
  wf s → 1 ≤ quizCurrentId s →
  (∀ s quiz, 1 ≤ quizCurrentId s → I (createQuiz host s quiz).2) →
  (∀ existingQuiz quizUpdate,
     I existingQuiz → I (updated existingQuiz quizUpdate)) →
  (∀ q, q ∈ getAllQuizzes s → I q) →
  ∀ q, q ∈ getAllQuizzes (syncQuizzes host s batch).1 → I q.
Proof.
  intros Hwf Hnext Hnew Hupd Hold. unfold syncQuizzes. cbn [fst].
  apply records_deleteEach.
  set (J := λ s, wf s ∧ 1 ≤ quizCurrentId s
                 ∧ ∀ q, q ∈ getAllQuizzes s → I q).
  enough (J (fold_left syncPrivateStep batch
               (fold_left (syncPublicStep host)
                  (filter (λ quiz, InsertQuiz.isPublic quiz = Some true) batch)
                  s))) as (_ & _ & HJ) by exact HJ.
  apply fold_left_preserves.
  - apply fold_left_preserves; [by split|].
    intros s0 quiz (Hwf0 & Hnext0 & H0).
    split; [by apply wf_syncPublicStep|].
    unfold syncPublicStep.
    destruct (Js.whenTruthy (InsertQuiz.uniqueId quiz)) as [u|]; [|done].
    destruct (getQuizByUniqueId s0 u) as [existingQuiz|].
    + split; [unfold updateQuiz; by destruct (JsMap.get _ _)|].
      apply records_updateQuiz; [|done]. intros e. apply Hupd.
    + split; [simpl; lia|]. apply records_createQuiz; auto.
  - intros s0 quiz (Hwf0 & Hnext0 & H0).
    split; [by apply wf_syncPrivateStep|].
    unfold syncPrivateStep.
    destruct (negb (Js.truthyBool (InsertQuiz.isPublic quiz))); [|done].
    destruct (Js.whenTruthy (InsertQuiz.uniqueId quiz)) as [u|]; [|done].
    destruct (getQuizByUniqueId s0 u) as [existingQuiz|]; [|done].
    split; [by rewrite deleteQuiz_collection|].
    by apply records_deleteQuiz.
Qed.

Lemma quizCurrentId_syncQuizzes s batch :
  quizCurrentId s ≤ quizCurrentId (syncQuizzes host s batch).1.
Proof.
  unfold syncQuizzes. cbn [fst]. unfold deletePrivateQuizzes.
  match goal with |- _ ≤ quizCurrentId (deleteEach ?l ?s').1 =>
    destruct (deleteEach_spec l s') as [-> _] end.
  cbn [quizCurrentId].
  apply (fold_left_preserves _ (λ s', quizCurrentId s ≤ quizCurrentId s')).
  - apply (fold_left_preserves _ (λ s', quizCurrentId s ≤ quizCurrentId s'));
      [lia|].
    intros s0 quiz H0. unfold syncPublicStep.
    destruct (Js.whenTruthy (InsertQuiz.uniqueId quiz)) as [u|]; [|done].
    destruct (getQuizByUniqueId s0 u) as [existingQuiz|].
    + unfold updateQuiz. by destruct (JsMap.get _ _).
    + simpl. lia.
  - intros s0 quiz H0. unfold syncPrivateStep.
    destruct (negb (Js.truthyBool (InsertQuiz.isPublic quiz))); [|done].
    destruct (Js.whenTruthy (InsertQuiz.uniqueId quiz)) as [u|]; [|done].
    destruct (getQuizByUniqueId s0 u) as [existingQuiz|]; [|done].
    by rewrite deleteQuiz_collection.
Qed.

End ReachableFacts.

(** ** Synchronisation: the whole batch *)

Lemma fold_left_filter_noop {A S} (step : S → A → S) (P : A → Prop)
    `{∀ x, Decision (P x)} (l : list A) (s : S) :
  (∀ s x, ¬ P x → step s x = s) →
  fold_left step (filter P l) s = fold_left step l s.
Proof.
  intros Hskip. revert s. induction l as [|x l IH]; intros s; [done|].
  rewrite filter_cons. destruct (decide (P x)) as [Hx|Hx]; simpl.
  - apply IH.
  - rewrite (Hskip s x Hx). apply IH.
Qed.

Lemma NoDup_omap_count {A B} (f : A → option B) `{EqDecision B} (l : list A) :
  NoDup (omap f l) ↔ ∀ b, (length (filter (λ x, f x = Some b) l) ≤ 1)%nat.
Proof.
  induction l as [|x l IH]; simpl.
  - split; [intros _ b; simpl; lia|intros _; constructor].
  - destruct (f x) as [b0|] eqn:Hx.
    + rewrite NoDup_cons, IH. split.
      * intros [Hnotin Hle] b. rewrite filter_cons.
        destruct (decide (f x = Some b)) as [Hb|Hb]; [|apply Hle].
        assert (b0 = b) as -> by congruence. simpl.
        enough (filter (λ x, f x = Some b) l = []) as -> by (simpl; lia).
        apply filter_none. intros y Hy Hfy. apply Hnotin.
        apply list_elem_of_omap. eauto.
      * intros Hle. split.
        -- intros (y & Hy & Hfy)%list_elem_of_omap.
           specialize (Hle b0). rewrite filter_cons, decide_True in Hle by done.
           simpl in Hle.
           assert (y ∈ filter (λ x, f x = Some b0) l) as Hin
             by (by apply list_elem_of_filter).
           destruct (filter (λ x, f x = Some b0) l); [by apply elem_of_nil in Hin|].
           simpl in Hle. lia.
        -- intros b. specialize (Hle b). rewrite filter_cons in Hle.
           destruct (decide (f x = Some b)); simpl in Hle; lia.
    + rewrite IH. split; intros Hle b; specialize (Hle b).
      * rewrite filter_cons, decide_False by congruence. done.
      * rewrite filter_cons, decide_False in Hle by congruence. done.
Qed.

Lemma uidCount_values u m :
  uidCount u m
  = length (filter (λ quiz, Quiz.uniqueId quiz = Some u) (JsMap.values m)).
Proof.
  unfold uidCount, JsMap.values. induction m as [|p m IH]; [done|].
  rewrite fmap_cons, !filter_cons. simpl.
  destruct (decide (Quiz.uniqueId p.2 = Some u)); simpl; by rewrite IH.
Qed.

Lemma NoDup_uniqueId_count s :
  NoDup (omap Quiz.uniqueId (getAllQuizzes s))
  ↔ ∀ u, (uidCount u (quizCollection s) ≤ 1)%nat.
Proof.
  rewrite NoDup_omap_count. unfold getAllQuizzes.
  split; intros Hle u; specialize (Hle u); by rewrite uidCount_values in *.
Qed.

Section SyncBatch.
Variable host : Host.

(** X6.  What [syncQuizzes] returns is the whole of the store that it
    leaves. *)
Theorem syncQuizzes_returns_store (s : MemStorage) (batch : list InsertQuiz.t) :
  wf s →
  (syncQuizzes host s batch).2 = getAllQuizzes (syncQuizzes host s batch).1.
Proof.
  intros Hwf. unfold syncQuizzes. cbn [fst snd].
  set (s2 := fold_left syncPrivateStep batch _).
  assert (wf s2) as Hwf2.
  { apply fold_left_preserves; [|intros; by apply wf_syncPrivateStep].
    apply fold_left_preserves; [done|intros; by apply wf_syncPublicStep]. }
  pose proof (getAllQuizzes_deletePrivateQuizzes s2 Hwf2) as Hall.
  unfold getPublicQuizzes at 1. fold (getAllQuizzes (deletePrivateQuizzes s2).1).
  rewrite Hall. unfold getPublicQuizzes.
  rewrite list_filter_filter. apply list_filter_iff. tauto.
Qed.

(** X7.  The quizzes of a batch that have no [uniqueId] have no effect:
    [syncQuizzes] on the batch without them gives the same store and the
    same result. *)
Theorem syncQuizzes_identified (s : MemStorage) (batch : list InsertQuiz.t) :
  syncQuizzes host s (identified batch) = syncQuizzes host s batch.
Proof.
  assert (Hskip : ∀ quiz, Js.truthyStr (InsertQuiz.uniqueId quiz) ≠ true →
                          Js.whenTruthy (InsertQuiz.uniqueId quiz) = None).
  { intros quiz Hq. unfold Js.whenTruthy.
    destruct (InsertQuiz.uniqueId quiz) as [u|]; [|done].
    by destruct (Js.truthyStr (Some u)). }
  unfold syncQuizzes, identified.
  assert (filter (λ quiz, InsertQuiz.isPublic quiz = Some true)
            (filter (λ quiz, Js.truthyStr (InsertQuiz.uniqueId quiz) = true) batch)
          = filter (λ quiz, Js.truthyStr (InsertQuiz.uniqueId quiz) = true)
              (filter (λ quiz, InsertQuiz.isPublic quiz = Some true) batch))
    as ->.
  { rewrite !list_filter_filter. apply list_filter_iff. tauto. }
  rewrite (fold_left_filter_noop (syncPublicStep host)).
  2:{ intros s0 quiz Hq. unfold syncPublicStep. by rewrite (Hskip quiz Hq). }
  rewrite (fold_left_filter_noop syncPrivateStep).
  2:{ intros s0 quiz Hq. unfold syncPrivateStep. rewrite (Hskip quiz Hq).
      by destruct (negb _). }
  done.
Qed.

(** X8.  When no two stored records have the same [uniqueId], no two have
    after [syncQuizzes]. *)
Theorem syncQuizzes_uniqueIds (s : MemStorage) (batch : list InsertQuiz.t) :
  wf s →
  NoDup (omap Quiz.uniqueId (getAllQuizzes s)) →
  NoDup (omap Quiz.uniqueId (getAllQuizzes (syncQuizzes host s batch).1)).
Proof.
  intros Hwf Hnodup. apply NoDup_uniqueId_count. intros u.
  apply NoDup_uniqueId_count with (u := u) in Hnodup.
  unfold syncQuizzes. cbn [fst].
  set (s1 := fold_left (syncPublicStep host) _ s).
  set (s2 := fold_left syncPrivateStep batch s1).
  assert (wf s1 ∧ (uidCount u (quizCollection s1) ≤ 1)%nat) as [Hwf1 H1].
  { apply (fold_left_preserves _
             (λ s, wf s ∧ (uidCount u (quizCollection s) ≤ 1)%nat));
      [done|].
    intros s0 quiz [Hwf0 H0]. split; [by apply wf_syncPublicStep|].
    by apply uidCount_syncPublicStep. }
  assert (wf s2 ∧ (uidCount u (quizCollection s2) ≤ 1)%nat) as [Hwf2 H2].
  { apply (fold_left_preserves _
             (λ s, wf s ∧ (uidCount u (quizCollection s) ≤ 1)%nat));
      [done|].
    intros s0 quiz [Hwf0 H0]. split; [by apply wf_syncPrivateStep|].
    pose proof (uidCount_syncPrivateStep u s0 quiz). lia. }
  rewrite (deletePrivateQuizzes_spec s2 Hwf2). simpl.
  pose proof (uidCount_filter u
    (λ p, Js.truthyBool (Quiz.isPublic p.2) = true) (quizCollection s2)).
  lia.
Qed.
End SyncBatch.

(** ** Synchronisation: what stays and what arrives *)

Section SyncFrame.
Variable host : Host.

Lemma syncPublicStep_frame s quizToSync quiz :
  wf s → quiz ∈ getAllQuizzes s →
  (∀ u, Js.whenTruthy (InsertQuiz.uniqueId quizToSync) = Some u →
        Quiz.uniqueId quiz ≠ Some u) →
  quiz ∈ getAllQuizzes (syncPublicStep host s quizToSync).
Proof.
  intros Hwf Hq Hu. unfold syncPublicStep.
  destruct (Js.whenTruthy (InsertQuiz.uniqueId quizToSync)) as [u|]; [|done].
  specialize (Hu u eq_refl).
  destruct (getQuizByUniqueId s u) as [existingQuiz|] eqn:Hfind.
  - destruct (getQuizByUniqueId_Some s u existingQuiz Hwf Hfind)
      as (m1 & m2 & Hm & Hue & _ & Hk).
    rewrite (updateQuiz_split s _ _ existingQuiz m1 m2 Hm Hk).
    unfold getAllQuizzes, JsMap.values in *. simpl. rewrite Hm in Hq.
    rewrite fmap_app, fmap_cons in Hq |- *. simpl in *.
    apply elem_of_app in Hq as [Hq|[->|Hq]%elem_of_cons].
    + apply elem_of_app. by left.
    + congruence.
    + apply elem_of_app. right. by right.
  - unfold getAllQuizzes, JsMap.values in *.
    rewrite (createQuiz_collection host s quizToSync Hwf), fmap_app.
    apply elem_of_app. by left.
Qed.

Lemma deleteQuiz_frame s existingQuiz quiz :
  wf s → quiz ∈ getAllQuizzes s → existingQuiz ∈ getAllQuizzes s →
  quiz ≠ existingQuiz →
  quiz ∈ getAllQuizzes (deleteQuiz s (Quiz.id existingQuiz)).1.
Proof.
  intros Hwf Hq He Hne. rewrite deleteQuiz_collection.
  unfold getAllQuizzes in *. simpl.
  apply (elem_of_values _ _ Hwf) in Hq, He.
  unfold JsMap.values. apply (list_elem_of_fmap_2 snd (_ : list (Z * Quiz.t)) (Quiz.id quiz, quiz)).
  apply list_elem_of_filter. split; [|done]. simpl. intros Hid.
  apply Hne. rewrite Hid in Hq. by apply (wf_lookup_unique s _ _ _ Hwf Hq He).
Qed.

Lemma getQuizByUniqueId_elem s u quiz :
  getQuizByUniqueId s u = Some quiz →
  quiz ∈ getAllQuizzes s ∧ Quiz.uniqueId quiz = Some u.
Proof.
  unfold getQuizByUniqueId, getAllQuizzes.
  intros (l1 & l2 & -> & _ & Hu)%find_Some_split.
  split; [|by apply bool_decide_eq_true in Hu].
  apply elem_of_app. right. by left.
Qed.

Lemma syncPrivateStep_frame s quizToSync quiz :
  wf s → quiz ∈ getAllQuizzes s →
  (∀ u, Js.whenTruthy (InsertQuiz.uniqueId quizToSync) = Some u →
        Js.truthyBool (InsertQuiz.isPublic quizToSync) = false →
        Quiz.uniqueId quiz ≠ Some u) →
  quiz ∈ getAllQuizzes (syncPrivateStep s quizToSync).
Proof.
  intros Hwf Hq Hu. unfold syncPrivateStep.
  destruct (Js.truthyBool (InsertQuiz.isPublic quizToSync)) eqn:Hpub;
    [done|]. simpl.
  destruct (Js.whenTruthy (InsertQuiz.uniqueId quizToSync)) as [u|]; [|done].
  specialize (Hu u eq_refl eq_refl).
  destruct (getQuizByUniqueId s u) as [existingQuiz|] eqn:Hfind; [|done].
  apply getQuizByUniqueId_elem in Hfind as [He Hue].
  apply deleteQuiz_frame; [done..|]. congruence.
Qed.

Lemma deletePrivateQuizzes_frame s quiz :
  wf s → quiz ∈ getAllQuizzes s → Quiz.isPublic quiz = Some true →
  quiz ∈ getAllQuizzes (deletePrivateQuizzes s).1.
Proof.
  intros Hwf Hq Hpub.
  rewrite (getAllQuizzes_deletePrivateQuizzes s Hwf).
  unfold getPublicQuizzes. by apply list_elem_of_filter.
Qed.

(** X9.  A stored public record whose [uniqueId] no quiz of the batch has
    is in the store after [syncQuizzes], as it was. *)
Theorem syncQuizzes_frame (s : MemStorage) (batch : list InsertQuiz.t)
    (quiz : Quiz.t) :
  wf s →
  quiz ∈ getAllQuizzes s →
  Quiz.isPublic quiz = Some true →
  (∀ quizToSync u, quizToSync ∈ batch →
     Js.whenTruthy (InsertQuiz.uniqueId quizToSync) = Some u →
     Quiz.uniqueId quiz ≠ Some u) →
  quiz ∈ getAllQuizzes (syncQuizzes host s batch).1.
Proof.
  intros Hwf Hq Hpub Hu. unfold syncQuizzes. cbn [fst].
  set (J := λ s, wf s ∧ quiz ∈ getAllQuizzes s).
  enough (J (fold_left syncPrivateStep batch
               (fold_left (syncPublicStep host)
                  (filter (λ quiz, InsertQuiz.isPublic quiz = Some true) batch)
                  s))) as [Hwf2 Hq2]
    by (by apply deletePrivateQuizzes_frame).
  apply fold_left_preserves_mem.
  - apply fold_left_preserves_mem; [done|].
    intros s0 quizToSync [_ Hin]%list_elem_of_filter [Hwf0 Hq0].
    split; [by apply wf_syncPublicStep|].
    apply syncPublicStep_frame; [done..|]. intros u. by apply Hu.
  - intros s0 quizToSync Hin [Hwf0 Hq0].
    split; [by apply wf_syncPrivateStep|].
    apply syncPrivateStep_frame; [done..|]. intros u Hw _. by apply (Hu quizToSync).
Qed.

Lemma syncPublicStep_stores s quizToSync u :
  wf s →
  InsertQuiz.isPublic quizToSync = Some true →
  Js.whenTruthy (InsertQuiz.uniqueId quizToSync) = Some u →
  ∃ quiz, quiz ∈ getAllQuizzes (syncPublicStep host s quizToSync)
          ∧ Quiz.uniqueId quiz = Some u ∧ Quiz.isPublic quiz = Some true.
Proof.
  intros Hwf Hpub Hu. unfold syncPublicStep. rewrite Hu.
  apply whenTruthy_Some in Hu as [Hu Hne].
  destruct (getQuizByUniqueId s u) as [existingQuiz|] eqn:Hfind.
  - destruct (getQuizByUniqueId_Some s u existingQuiz Hwf Hfind)
      as (m1 & m2 & Hm & Hue & _ & Hk).
    rewrite (updateQuiz_split s _ _ existingQuiz m1 m2 Hm Hk).
    exists (updated existingQuiz (QuizUpdate.ofInsert quizToSync)).
    split; [|split].
    + unfold getAllQuizzes, JsMap.values. simpl.
      rewrite fmap_app, fmap_cons. apply elem_of_app. right. by left.
    + simpl. by rewrite Hu.
    + simpl. by rewrite Hpub.
  - exists (createQuiz host s quizToSync).2. split; [|split].
    + unfold getAllQuizzes, JsMap.values.
      rewrite (createQuiz_collection host s quizToSync Hwf), fmap_app.
      apply elem_of_app. right. by left.
    + simpl. rewrite Hu. simpl. by rewrite bool_decide_false.
    + done.
Qed.

(** X10.  A public quiz of the batch with a [uniqueId] is stored after
    [syncQuizzes]: a lookup of its [uniqueId] gives a public record, provided
    that every quiz of the batch with that [uniqueId] is public. *)
Theorem syncQuizzes_public_stored (s : MemStorage)
    (batch : list InsertQuiz.t) (quizToSync : InsertQuiz.t) (u : string) :
  wf s →
  quizToSync ∈ batch →
  InsertQuiz.isPublic quizToSync = Some true →
  Js.whenTruthy (InsertQuiz.uniqueId quizToSync) = Some u →
  (∀ other, other ∈ batch →
     Js.whenTruthy (InsertQuiz.uniqueId other) = Some u →
     Js.truthyBool (InsertQuiz.isPublic other) = true) →
  ∃ quiz, getQuizByUniqueId (syncQuizzes host s batch).1 u = Some quiz
          ∧ Quiz.uniqueId quiz = Some u
          ∧ Quiz.isPublic quiz = Some true.
Proof.
  intros Hwf Hin Hpub Hu Hothers.
  set (E := λ s, ∃ quiz, quiz ∈ getAllQuizzes s
                         ∧ Quiz.uniqueId quiz = Some u
                         ∧ Quiz.isPublic quiz = Some true).
  assert (Hkeep : ∀ s0 other, wf s0 → E s0 →
            InsertQuiz.isPublic other = Some true →
            E (syncPublicStep host s0 other)).
  { intros s0 other Hwf0 (quiz & Hq & Hqu & Hqp) Hop.
    destruct (Js.whenTruthy (InsertQuiz.uniqueId other)) as [u'|] eqn:Hou.
    - destruct (decide (u' = u)) as [->|Hne].
      + by apply syncPublicStep_stores.
      + exists quiz. split; [|done]. apply syncPublicStep_frame; [done..|].
        intros u0. rewrite Hou. congruence.
    - exists quiz. split; [|done]. apply syncPublicStep_frame; [done..|].
      intros u0. by rewrite Hou. }
  assert (Hpublic : ∀ l s0, wf s0 →
            Forall (λ q, InsertQuiz.isPublic q = Some true) l →
            E s0 ∨ quizToSync ∈ l →
            wf (fold_left (syncPublicStep host) l s0)
            ∧ E (fold_left (syncPublicStep host) l s0)).
  { induction l as [|other l IH]; intros s0 Hwf0 Hall Hor.
    - destruct Hor as [HE|Hnil]; [done|by apply elem_of_nil in Hnil].
    - apply Forall_cons in Hall as [Hop Hall]. simpl.
      apply IH; [by apply wf_syncPublicStep|done|].
      destruct Hor as [HE|[<-|Hl]%elem_of_cons].
      + left. by apply Hkeep.
      + left. by apply syncPublicStep_stores.
      + by right. }
  unfold syncQuizzes. cbn [fst].
  set (s1 := fold_left (syncPublicStep host) _ s).
  assert (wf s1 ∧ E s1) as [Hwf1 HE1].
  { apply Hpublic; [done| |].
    - apply Forall_forall. by intros q [? _]%list_elem_of_filter.
    - right. by apply list_elem_of_filter. }
  set (s2 := fold_left syncPrivateStep batch s1).
  assert (wf s2 ∧ E s2) as [Hwf2 (quiz & Hq & Hqu & Hqp)].
  { apply (fold_left_preserves_mem _ (λ s, wf s ∧ E s)); [done|].
    intros s0 other Hoin [Hwf0 (quiz & Hq & Hqu & Hqp)].
    split; [by apply wf_syncPrivateStep|].
    exists quiz. split; [|done]. apply syncPrivateStep_frame; [done..|].
    intros u' Hou Hprivate Hqu'. assert (u' = u) as -> by congruence.
    rewrite (Hothers other Hoin Hou) in Hprivate. done. }
  pose proof (deletePrivateQuizzes_frame s2 quiz Hwf2 Hq Hqp) as Hq3.
  pose proof (wf_deletePrivateQuizzes s2 Hwf2) as Hwf3.
  set (s3 := (deletePrivateQuizzes s2).1) in *.
  destruct (getQuizByUniqueId s3 u) as [found|] eqn:Hfind.
  - exists found. split; [done|].
    apply getQuizByUniqueId_elem in Hfind as [Hf Hfu]. split; [done|].
    pose proof (getAllQuizzes_deletePrivateQuizzes s2 Hwf2) as Hall.
    fold s3 in Hall. rewrite Hall in Hf. unfold getPublicQuizzes in Hf.
    by apply list_elem_of_filter in Hf as [? _].
  - exfalso. apply getQuizByUniqueId_None, uidCount_zero in Hfind.
    rewrite Forall_forall in Hfind.
    apply (elem_of_values _ _ Hwf3) in Hq3.
    by apply (Hfind _ Hq3).
Qed.
End SyncFrame.

(** ** What removeDuplicateQuizzes leaves *)

Lemma filter_all {A} (P : A → Prop) `{∀ x, Decision (P x)} (l : list A) :
  (∀ x, x ∈ l → P x) → filter P l = l.
Proof.
  induction l as [|x l IH]; intros Hall; [done|].
  rewrite filter_cons, decide_True by (apply Hall; by left).
  f_equal. apply IH. intros y Hy. apply Hall. by right.
Qed.

Lemma filter_length_eq {A} (P : A → Prop) `{∀ x, Decision (P x)} (l : list A) :
  length (filter P l) = length l → filter P l = l.
Proof.
  induction l as [|x l IH]; [done|]. rewrite filter_cons.
  destruct (decide (P x)); simpl.
  - intros Hlen. f_equal. apply IH. lia.
  - pose proof (length_filter P l). lia.
Qed.

Lemma NoDup_omap_before {A B} (f : A → option B) (l1 l2 l3 : list A) a b u u' :
  NoDup (omap f (l1 ++ a :: l2 ++ b :: l3)) →
  f a = Some u → f b = Some u' → u ≠ u'.
Proof.
  intros Hnodup Ha Hb ->.
  rewrite omap_app in Hnodup. simpl in Hnodup. rewrite Ha, omap_app in Hnodup.
  simpl in Hnodup. rewrite Hb in Hnodup.
  apply NoDup_app in Hnodup as (_ & _ & Hnodup).
  apply NoDup_cons in Hnodup as [Hnotin _]. apply Hnotin.
  apply elem_of_app. right. by left.
Qed.

Lemma duplicateFree_uniqueIds host (l : list Quiz.t) :
  duplicateFree host l → NoDup (uniqueIds l).
Proof.
  unfold duplicateFree, uniqueIds. induction 1 as [|a l Ha _ IH]; simpl.
  - constructor.
  - destruct (uidOf a) as [u|] eqn:Hu; [|done].
    apply NoDup_cons. split; [|done].
    intros (b & Hb & Hbu)%list_elem_of_omap.
    rewrite Forall_forall in Ha. apply (Ha b Hb). left. eauto.
Qed.

Lemma questionMatches_refl q : questionMatches q q = true.
Proof. unfold questionMatches. by rewrite bool_decide_true. Qed.

Lemma matchCount_refl (questions : list Question.t) :
  matchCount questions questions = Z.of_nat (length questions).
Proof.
  rewrite matchCount_filter. do 2 f_equal. apply filter_all.
  intros q Hq. apply existsb_exists. exists q.
  split; [by apply list_elem_of_In|apply questionMatches_refl].
Qed.

Section DedupResult.
Variable host : Host.

Lemma removeDuplicateQuizzes_filter (s : MemStorage) :
  wf s →
  let r := removeDuplicateQuizzes host s in
  ∃ kept : gset Z,
    getAllQuizzes r.1 = filter (λ q, Quiz.id q ∈ kept) (getAllQuizzes s)
    ∧ duplicateFree host (getAllQuizzes r.1)
    ∧ (getAllQuizzes s ≠ [] → getAllQuizzes r.1 ≠ [])
    ∧ r.2 = Z.of_nat (length (getAllQuizzes s))
            - Z.of_nat (length (getAllQuizzes r.1))
    ∧ quizCurrentId r.1 = quizCurrentId s.
Proof.
  intros Hwf r.
  destruct (removeDuplicateQuizzes_spec host s Hwf) as (Hr & Hall & Hcount).
  destruct (findDuplicates_spec host (getAllQuizzes s) (NoDup_values_id s Hwf))
    as (Hgood & Hne & Hfree).
  fold r in Hr, Hall, Hcount.
  exists (findDuplicates host (getAllQuizzes s)).1.
  split; [done|]. split; [by rewrite Hall|]. split; [|split; [done|]].
  - intros Hnil. destruct (Hne Hnil) as [k Hk].
    pose proof (good_ids _ _ Hgood k Hk) as (q & Hq & <-)%elem_of_idset.
    rewrite Hall. intros Hempty.
    assert (q ∈ filter (λ q, Quiz.id q ∈ (findDuplicates host (getAllQuizzes s)).1)
                  (getAllQuizzes s)) as Hin
      by (by apply list_elem_of_filter).
    rewrite Hempty in Hin. by apply elem_of_nil in Hin.
  - by rewrite Hr.
Qed.


(** X12.  After [removeDuplicateQuizzes] no two records have the same
    [uniqueId]. *)
Theorem removeDuplicateQuizzes_uniqueIds (s : MemStorage) :
  wf s →
  NoDup (uniqueIds (getAllQuizzes (removeDuplicateQuizzes host s).1)).
Proof.
  intros Hwf.
  destruct (removeDuplicateQuizzes_filter s Hwf) as (kept & _ & Hfree & _).
  by apply (duplicateFree_uniqueIds host).
Qed.

(** X13.  [removeDuplicateQuizzes] does not empty a store: when there was a
    record, there is one afterwards. *)
Theorem removeDuplicateQuizzes_nonempty (s : MemStorage) :
  wf s →
  getAllQuizzes s ≠ [] →
  getAllQuizzes (removeDuplicateQuizzes host s).1 ≠ [].
Proof.
  intros Hwf.
  by destruct (removeDuplicateQuizzes_filter s Hwf) as (kept & _ & _ & Hne & _).
Qed.

Lemma zero_removed_duplicateFree (s : MemStorage) :
  wf s → (removeDuplicateQuizzes host s).2 = 0 →
  duplicateFree host (getAllQuizzes s).
Proof.
  intros Hwf Hzero.
  destruct (removeDuplicateQuizzes_filter s Hwf)
    as (kept & Hall & Hfree & _ & Hcount & _).
  rewrite Hzero in Hcount.
  assert (getAllQuizzes (removeDuplicateQuizzes host s).1 = getAllQuizzes s)
    as <-; [|done].
  rewrite Hall. apply filter_length_eq. rewrite <- Hall. lia.
Qed.

(** X14.  [removeDuplicateQuizzes] returns 0 exactly when no record of the
    store is a duplicate of an earlier one. *)
Theorem removeDuplicateQuizzes_zero (s : MemStorage) :
  wf s →
  (removeDuplicateQuizzes host s).2 = 0 ↔ duplicateFree host (getAllQuizzes s).
Proof.
  intros Hwf. split; [by apply zero_removed_duplicateFree|].
  intros Hfree. by rewrite (removeDuplicateQuizzes_duplicateFree host s Hwf Hfree).
Qed.

(** X15.  When every record has a [uniqueId] and no two records have the
    same one, [removeDuplicateQuizzes] removes nothing, whatever the titles
    and the questions are. *)
Theorem removeDuplicateQuizzes_identified (s : MemStorage) :
  wf s →
  Forall (λ quiz, is_Some (uidOf quiz)) (getAllQuizzes s) →
  NoDup (uniqueIds (getAllQuizzes s)) →
  removeDuplicateQuizzes host s = (s, 0).
Proof.
  intros Hwf Hall Hnodup. apply removeDuplicateQuizzes_duplicateFree; [done|].
  apply OrdPairs_intro. intros l1 a l2 b l3 Hl Hdup.
  rewrite Hl in Hall, Hnodup. unfold uniqueIds in Hnodup.
  rewrite Forall_app, Forall_cons, Forall_app, Forall_cons in Hall.
  destruct Hall as (_ & [ua Hua] & _ & [ub Hub] & _).
  pose proof (NoDup_omap_before uidOf l1 l2 l3 a b ua ub Hnodup Hua Hub) as Hne.
  destruct Hdup as [(u & Hua' & Hub')|[(Hnone & _)|(_ & Hp3)]].
  - congruence.
  - congruence.
  - unfold pass3Duplicate, distinctUniqueIds in Hp3. rewrite Hua, Hub in Hp3.
    rewrite bool_decide_false in Hp3 by done. done.
Qed.

(** X16.  Of two records with the same questions and the same normalized
    title, whose [uniqueId]s do not tell them apart, at most one is left by
    [removeDuplicateQuizzes], which returns at least 1. *)
Theorem removeDuplicateQuizzes_copies (s : MemStorage)
    (l1 l2 l3 : list Quiz.t) (a b : Quiz.t) :
  wf s →
  getAllQuizzes s = l1 ++ a :: l2 ++ b :: l3 →
  normalize (Quiz.title a) = normalize (Quiz.title b) →
  is_Some (Quiz.questions a) →
  Quiz.questions a = Quiz.questions b →
  distinctUniqueIds a b = false →
  let r := removeDuplicateQuizzes host s in
  1 ≤ r.2 ∧ ¬ (a ∈ getAllQuizzes r.1 ∧ b ∈ getAllQuizzes r.1).
Proof.
  intros Hwf Hl Htitle [questions Hqa] Hqb Hdistinct r.
  assert (duplicates host a b) as Hdup.
  { right. right. split; [done|]. unfold pass3Duplicate. rewrite Hdistinct.
    simpl. unfold similarQuestions. rewrite <- Hqb, Hqa.
    rewrite Z.sub_diag. simpl. rewrite matchCount_refl.
    unfold reachesThreshold. apply Z.leb_le. lia. }
  destruct (removeDuplicateQuizzes_filter s Hwf)
    as (kept & Hall & Hfree & _ & Hcount & _).
  fold r in Hall, Hfree, Hcount.
  assert (Hboth : ¬ (a ∈ getAllQuizzes r.1 ∧ b ∈ getAllQuizzes r.1)).
  { intros [Ha Hb]. rewrite Hall in Ha, Hb.
    apply list_elem_of_filter in Ha as [Ha _], Hb as [Hb _].
    rewrite Hall, Hl in Hfree.
    rewrite filter_app, filter_cons, decide_True in Hfree by done.
    rewrite filter_app, filter_cons, decide_True in Hfree by done.
    by apply OrdPairs_split in Hfree. }
  split; [|done].
  destruct (decide (r.2 = 0)) as [Hzero|Hnz].
  - apply (zero_removed_duplicateFree s Hwf) in Hzero.
    rewrite Hl in Hzero. by apply OrdPairs_split in Hzero.
  - rewrite Hall in Hcount.
    pose proof (length_filter (λ q, Quiz.id q ∈ kept) (getAllQuizzes s)). lia.
Qed.
End DedupResult.

(** ** Only duplicates are removed *)

Section OnlyDuplicates.
Variable host : Host.

Lemma hasDuplicate_pair (l : list Quiz.t) a b :
  a ∈ l → b ∈ l → Quiz.id a ≠ Quiz.id b → duplicates host a b →
  (a ∈ l ∧ hasDuplicate host l a) ∧ (b ∈ l ∧ hasDuplicate host l b).
Proof.
  intros Ha Hb Hne Hdup. split; (split; [done|]).
  - exists b. split; [done|]. split; [done|]. by right.
  - exists a. split; [done|]. split; [done|]. by left.
Qed.

Lemma pass1_removed (l : list Quiz.t) :
  NoDup (Quiz.id <$> l) →
  Forall (λ q, q ∈ l ∧ hasDuplicate host l q) (pass1 l).2.
Proof.
  intros Hnd. unfold pass1.
  enough (Inv1 l (fold_left pass1Step l (∅, ∅, []))
          ∧ Forall (λ q, q ∈ l ∧ hasDuplicate host l q)
                   (fold_left pass1Step l (∅, ∅, [])).2) as [_ H] by done.
  apply (fold_left_prefix pass1Step
           (λ P st, Inv1 P st
                    ∧ Forall (λ q, q ∈ l ∧ hasDuplicate host l q) st.2)).
  - split; [apply Inv1_init|constructor].
  - intros P q rest st Hl [HI Hrem].
    assert (NoDup (Quiz.id <$> (P ++ [q]))) as Hnd'
      by (rewrite Hl in Hnd; by apply NoDup_id_prefix in Hnd).
    split; [by apply pass1Step_inv|].
    destruct st as [[m ids] removed]. simpl in Hrem. unfold pass1Step.
    destruct (uidOf q) as [u|] eqn:Hu; [|done].
    destruct (m !! u) as [e|] eqn:Hm; [|done].
    destruct (inv1_map _ _ HI u e Hm) as (HeP & Heu & _). simpl in *.
    assert (e ∈ l) as Hel by (rewrite Hl; apply elem_of_app; by left).
    assert (q ∈ l) as Hql
      by (rewrite Hl; apply elem_of_app; right; by left).
    assert (Quiz.id e ≠ Quiz.id q) as Hne.
    { apply NoDup_id_snoc in Hnd' as [_ Hq]. intros Heq. apply Hq.
      rewrite <- Heq. by apply idset_elem. }
    assert (duplicates host e q) as Hdup by (left; eauto).
    destruct (hasDuplicate_pair l e q Hel Hql Hne Hdup) as [He Hq].
    destruct (keepNew q e); simpl; apply Forall_app; split; try done;
      by apply Forall_singleton.
Qed.

Lemma pass2_removed (l : list Quiz.t) ids removed :
  NoDup (Quiz.id <$> l) →
  ids ⊆ idset l → idset removed = idset l ∖ ids →
  (l ≠ [] → ∃ k, k ∈ ids) →
  Forall (λ q, q ∈ l ∧ hasDuplicate host l q) removed →
  Forall (λ q, q ∈ l ∧ hasDuplicate host l q) (pass2 host l ids removed).2.
Proof.
  intros Hnd Hids Hrem Hne Hremoved. unfold pass2.
  enough (Inv2 host l ids l (fold_left (pass2Step host) l (∅, ids, removed))
          ∧ Forall (λ q, q ∈ l ∧ hasDuplicate host l q)
                   (fold_left (pass2Step host) l (∅, ids, removed)).2)
    as [_ H] by done.
  apply (fold_left_prefix (pass2Step host)
           (λ P st, Inv2 host l ids P st
                    ∧ Forall (λ q, q ∈ l ∧ hasDuplicate host l q) st.2)).
  - split; [|done]. split; simpl; try done.
    intros q Hq. by apply elem_of_nil in Hq.
  - intros P q rest st Hl [HI Hrem'].
    assert (NoDup (Quiz.id <$> (P ++ [q]))) as Hnd'
      by (rewrite Hl in Hnd; by apply NoDup_id_prefix in Hnd).
    assert (q ∈ l) as Hql
      by (rewrite Hl; apply elem_of_app; right; by left).
    split; [by apply pass2Step_inv|].
    destruct st as [[m ids'] removed']. simpl in Hrem'. unfold pass2Step.
    destruct (decide (Quiz.id q ∈ ids')) as [Hkept|]; [|done].
    destruct (uidOf q) as [u|] eqn:Hu; [done|].
    destruct (m !! createContentHash host q) as [e|] eqn:Hm; [|done].
    destruct (inv2_map _ _ _ _ _ HI _ e Hm) as (HeP & Heu & Heh & _).
    simpl in *.
    assert (e ∈ l) as Hel by (rewrite Hl; apply elem_of_app; by left).
    assert (Quiz.id e ≠ Quiz.id q) as Hne'.
    { apply NoDup_id_snoc in Hnd' as [_ Hq]. intros Heq. apply Hq.
      rewrite <- Heq. by apply idset_elem. }
    assert (duplicates host e q) as Hdup by (right; left; eauto).
    destruct (hasDuplicate_pair l e q Hel Hql Hne' Hdup) as [He Hq].
    destruct (keepNew q e); simpl; apply Forall_app; split; try done;
      by apply Forall_singleton.
Qed.

Lemma pass3Inner_removed (l : list Quiz.t) quiz1 rest st :
  quiz1 ∈ l →
  Forall (λ quiz2, quiz2 ∈ l ∧ Quiz.id quiz1 ≠ Quiz.id quiz2
                   ∧ normalize (Quiz.title quiz1)
                     = normalize (Quiz.title quiz2)) rest →
  Forall (λ q, q ∈ l ∧ hasDuplicate host l q) st.2 →
  Forall (λ q, q ∈ l ∧ hasDuplicate host l q) (pass3Inner quiz1 rest st).2.
Proof.
  intros H1. revert st. induction rest as [|quiz2 rest IH];
    intros st Hrest Hrem; [done|].
  apply Forall_cons in Hrest as [(H2 & Hne & Htitle) Hrest].
  cbn [pass3Inner].
  destruct (decide (Quiz.id quiz2 ∈ st.1)) as [Hkept|]; [|by apply IH].
  destruct (distinctUniqueIds quiz1 quiz2) eqn:Hdistinct; [by apply IH|].
  destruct (similarQuestions quiz1 quiz2) eqn:Hsimilar; [|by apply IH].
  assert (duplicates host quiz1 quiz2) as Hdup.
  { right. right. split; [done|]. unfold pass3Duplicate.
    by rewrite Hdistinct, Hsimilar. }
  destruct (hasDuplicate_pair l quiz1 quiz2 H1 H2 Hne Hdup) as [Hq1 Hq2].
  destruct (keepNew quiz1 quiz2).
  - apply IH; [done|]. simpl. apply Forall_app. split; [done|].
    by apply Forall_singleton.
  - simpl. apply Forall_app. split; [done|]. by apply Forall_singleton.
Qed.

Lemma pass3Outer_removed (l : list Quiz.t) t group st :
  NoDup (Quiz.id <$> group) →
  Forall (λ q, q ∈ l ∧ normalize (Quiz.title q) = t) group →
  Forall (λ q, q ∈ l ∧ hasDuplicate host l q) st.2 →
  Forall (λ q, q ∈ l ∧ hasDuplicate host l q) (pass3Outer group st).2.
Proof.
  revert st. induction group as [|quiz1 rest IH]; intros st Hnd Hgroup Hrem;
    [done|].
  apply Forall_cons in Hgroup as [[H1 Ht1] Hrest].
  rewrite fmap_cons in Hnd. apply NoDup_cons in Hnd as [Hnotin Hnd].
  cbn [pass3Outer]. apply IH; [done|done|].
  destruct (decide (Quiz.id quiz1 ∈ st.1)) as [Hkept|]; [|done].
  apply pass3Inner_removed; [done| |done].
  apply Forall_forall. intros quiz2 Hq2.
  rewrite Forall_forall in Hrest. destruct (Hrest quiz2 Hq2) as [H2 Ht2].
  split; [done|]. split; [|congruence].
  intros Heq. apply Hnotin. rewrite Heq. by apply list_elem_of_fmap_2.
Qed.

Lemma pass3_removed (l : list Quiz.t) ids removed :
  NoDup (Quiz.id <$> l) →
  Forall (λ q, q ∈ l ∧ hasDuplicate host l q) removed →
  Forall (λ q, q ∈ l ∧ hasDuplicate host l q) (pass3 l ids removed).2.
Proof.
  intros Hnd Hrem. unfold pass3.
  pose proof (buildTitleMap_spec l ids) as [_ Hgroup _].
  revert Hgroup. generalize (buildTitleMap l ids). intros entries Hgroup.
  apply (fold_left_preserves_mem pass3Step
           (λ st, Forall (λ q, q ∈ l ∧ hasDuplicate host l q) st.2));
    [done|].
  intros st [t g] Hin Hst. unfold pass3Step. simpl.
  destruct (1 <? length g)%nat; [|done].
  pose proof (Hgroup t g Hin) as Hg.
  apply (pass3Outer_removed l t); [| |done].
  - rewrite Hg. by do 2 apply NoDup_id_filter.
  - apply Forall_forall. intros q Hq. rewrite Hg in Hq.
    apply list_elem_of_filter in Hq as [Ht Hq].
    by apply list_elem_of_filter in Hq as [_ Hq].
Qed.

Lemma findDuplicates_removed (l : list Quiz.t) :
  NoDup (Quiz.id <$> l) →
  Forall (λ q, q ∈ l ∧ hasDuplicate host l q) (findDuplicates host l).2.
Proof.
  intros Hnd. unfold findDuplicates.
  pose proof (pass1_inv l Hnd) as I1.
  pose proof (pass1_removed l Hnd) as R1.
  destruct (pass1 l) as [[m1 ids1] rem1]. destruct I1 as [? ? _ _ ?].
  simpl in *.
  pose proof (pass2_removed l ids1 rem1 Hnd) as R2.
  destruct (pass2 host l ids1 rem1) as [[hm ids2] rem2]. simpl in *.
  apply pass3_removed; [done|]. by apply R2.
Qed.

(** X17.  [removeDuplicateQuizzes] removes duplicates only: a record that it
    deletes has a duplicate among the other records of the store. *)
Theorem removeDuplicateQuizzes_only_duplicates (s : MemStorage)
    (quiz : Quiz.t) :
  wf s →
  quiz ∈ getAllQuizzes s →
  quiz ∉ getAllQuizzes (removeDuplicateQuizzes host s).1 →
  hasDuplicate host (getAllQuizzes s) quiz.
Proof.
  intros Hwf Hq Hgone.
  pose proof (NoDup_values_id s Hwf) as Hnd.
  destruct (removeDuplicateQuizzes_spec host s Hwf) as (_ & Hall & _).
  destruct (findDuplicates_spec host (getAllQuizzes s) Hnd) as (Hgood & _).
  pose proof (findDuplicates_removed (getAllQuizzes s) Hnd) as Hrem.
  rewrite Hall in Hgone.
  assert (Quiz.id quiz ∉ (findDuplicates host (getAllQuizzes s)).1) as Hk.
  { intros Hk. apply Hgone. by apply list_elem_of_filter. }
  assert (Quiz.id quiz ∈ idset (findDuplicates host (getAllQuizzes s)).2)
    as Hin.
  { rewrite (good_removed _ _ Hgood). apply elem_of_difference.
    split; [by apply idset_elem|done]. }
  apply elem_of_idset in Hin as (quiz' & Hin & Hid).
  rewrite Forall_forall in Hrem. destruct (Hrem quiz' Hin) as [Hq' Hdup].
  by rewrite <- (NoDup_id_eq _ _ _ Hnd Hq' Hq Hid).
Qed.
End OnlyDuplicates.

Lemma removeDuplicateQuizzes_only_duplicates_witness :
  let s := Examples.store
             [Examples.quiz 1 (Some "u1") "A" [] (Some 1) (Some 7);
              Examples.quiz 2 (Some "u1") "B" [] (Some 2) (Some 8)] 3 in
  hasDuplicate Examples.host (getAllQuizzes s)
    (Examples.quiz 1 (Some "u1") "A" [] (Some 1) (Some 7)).
Proof.
  intros s.
  apply (removeDuplicateQuizzes_only_duplicates Examples.host s).
  - apply wfb_wf. by vm_compute.
  - by left.
  - vm_compute. intros Hin. apply list_elem_of_singleton in Hin. discriminate.
Defined.

(** ** The fingerprint and the order of options and questions *)

Section SortFacts.
Context {A : Type} (cmp : A → A → comparison).

Lemma sortInsert_perm x l : sortInsert cmp x l ≡ₚ x :: l.
Proof.
  induction l as [|y l IH]; simpl; [done|].
  destruct (cmp x y); [done|done|].
  rewrite IH. apply Permutation_swap.
Qed.

Lemma sort_perm l : sort cmp l ≡ₚ l.
Proof.
  induction l as [|x l IH]; simpl; [done|].
  by rewrite sortInsert_perm, IH.
Qed.

Lemma sort_length l : length (sort cmp l) = length l.
Proof. by rewrite sort_perm. Qed.

Hypothesis total : ∀ a b, cmp a b = Gt → cmp b a ≠ Gt.

Lemma sortInsert_Sorted x l :
  Sorted (λ a b, cmp a b ≠ Gt) l →
  Sorted (λ a b, cmp a b ≠ Gt) (sortInsert cmp x l).
Proof.
  induction l as [|y l IH]; simpl; intros Hl.
  - by repeat constructor.
  - destruct (cmp x y) eqn:Hxy.
    + constructor; [done|]. constructor. by rewrite Hxy.
    + constructor; [done|]. constructor. by rewrite Hxy.
    + apply Sorted_inv in Hl as [Hl Hhd]. constructor; [by apply IH|].
      destruct l as [|z l]; simpl.
      * constructor. by apply total.
      * apply HdRel_inv in Hhd. destruct (cmp x z); constructor;
          first [done|by apply total].
Qed.

Lemma sort_Sorted l : Sorted (λ a b, cmp a b ≠ Gt) (sort cmp l).
Proof.
  induction l as [|x l IH]; simpl; [constructor|by apply sortInsert_Sorted].
Qed.

Hypothesis trans : ∀ a b c, cmp a b ≠ Gt → cmp b c ≠ Gt → cmp a c ≠ Gt.

Lemma sort_perm_eq l1 l2 :
  (∀ x1 x2, x1 ∈ l1 → x2 ∈ l1 → cmp x1 x2 ≠ Gt → cmp x2 x1 ≠ Gt → x1 = x2) →
  l1 ≡ₚ l2 → sort cmp l1 = sort cmp l2.
Proof.
  intros Hanti Hperm.
  assert (Transitive (λ a b, cmp a b ≠ Gt)) by (intros a b c; apply trans).
  apply (Sorted_unique_strong (λ a b, cmp a b ≠ Gt)).
  - intros x1 x2 H1 H2. apply Hanti.
    + by rewrite sort_perm in H1.
    + by rewrite sort_perm, <- Hperm in H2.
  - apply sort_Sorted.
  - apply sort_Sorted.
  - by rewrite !sort_perm.
Qed.
End SortFacts.

(** The code-unit order is a collation. *)
Lemma codeUnit_inj c1 c2 : JsString.codeUnit c1 = JsString.codeUnit c2 → c1 = c2.
Proof.
  unfold JsString.codeUnit. intros Heq.
  by rewrite <- (ascii_nat_embedding c1), <- (ascii_nat_embedding c2), Heq.
Qed.

Lemma compareChars_Gt a b :
  JsString.compareChars a b = Gt → JsString.compareChars b a = Lt.
Proof.
  revert b. induction a as [|x a IH]; intros [|y b]; simpl; try done.
  rewrite (Nat.compare_antisym (JsString.codeUnit x) (JsString.codeUnit y)).
  destruct (JsString.codeUnit x ?= JsString.codeUnit y)%nat; simpl;
    [apply IH|done|done].
Qed.

Lemma compareChars_antisym a b :
  JsString.compareChars a b ≠ Gt → JsString.compareChars b a ≠ Gt → a = b.
Proof.
  revert b. induction a as [|x a IH]; intros [|y b]; simpl; try done.
  rewrite (Nat.compare_antisym (JsString.codeUnit x) (JsString.codeUnit y)).
  destruct (JsString.codeUnit x ?= JsString.codeUnit y)%nat eqn:Hxy; simpl;
    [|done|done].
  apply Nat.compare_eq in Hxy. apply codeUnit_inj in Hxy as ->.
  intros H1 H2. f_equal. by apply IH.
Qed.

Lemma compareChars_trans a b c :
  JsString.compareChars a b ≠ Gt → JsString.compareChars b c ≠ Gt →
  JsString.compareChars a c ≠ Gt.
Proof.
  revert b c. induction a as [|x a IH]; intros [|y b] [|z c]; simpl; try done.
  destruct (Nat.compare_spec (JsString.codeUnit x) (JsString.codeUnit y));
    destruct (Nat.compare_spec (JsString.codeUnit y) (JsString.codeUnit z));
    destruct (Nat.compare_spec (JsString.codeUnit x) (JsString.codeUnit z));
    try done; try lia.
  apply IH.
Qed.

Lemma Collation_compare : Collation JsString.compare.
Proof.
  unfold JsString.compare. split.
  - intros a b Hab. by rewrite (compareChars_Gt _ _ Hab).
  - intros a b c. apply compareChars_trans.
  - intros a b Hab Hba. apply HashFacts.chars_inj.
    by apply compareChars_antisym.
Qed.

Lemma questionData_normalized q1 q2 :
  sameNormalized q1 q2 → questionData q1 = questionData q2.
Proof.
  intros (Hq & Hopts & Ha). unfold questionData. rewrite Hq, Ha.
  f_equal. f_equal.
  destruct Collation_compare as [Htotal Htrans Hanti].
  apply sort_perm_eq; [done|done| |done].
  intros x1 x2 _ _. apply Hanti.
Qed.

Lemma fingerprint_length t1 t2 l1 l2 :
  t1 +:+ ":" +:+ JsString.ofNat (length l1) +:+ ":" +:+ Stringify.array l1
  = t2 +:+ ":" +:+ JsString.ofNat (length l2) +:+ ":" +:+ Stringify.array l2 →
  length l1 = length l2.
Proof.
  intros Heq. apply (f_equal JsString.chars) in Heq.
  unfold Stringify.array in Heq.
  rewrite !HashFacts.chars_app, !HashFacts.chars_ofChars in Heq.
  apply (f_equal (@rev ascii)) in Heq.
  rewrite !rev_app_distr, <- !app_assoc in Heq.
  by apply HashFacts.arrayChars_inj in Heq as [Hlen _].
Qed.

Section Fingerprint.
Variable host : Host.

(** X18.  Two records with the same fingerprint have the same normalized
    title and the same number of questions. *)
Theorem createContentHash_title_count (a b : Quiz.t) :
  createContentHash host a = createContentHash host b →
  normalize (Quiz.title a) = normalize (Quiz.title b)
  ∧ length (default [] (Quiz.questions a))
    = length (default [] (Quiz.questions b)).
Proof.
  intros Heq. split; [by apply (createContentHash_title host)|].
  unfold createContentHash in Heq. apply fingerprint_length in Heq.
  assert (Hlen : ∀ (cmp : QuestionData.t → QuestionData.t → comparison) l,
            length (if (0 <? length l)%nat then sort cmp l else l) = length l).
  { intros cmp l. destruct (0 <? length l)%nat; by rewrite ?sort_length. }
  rewrite !Hlen in Heq.
  destruct (Quiz.questions a), (Quiz.questions b); simpl;
    by rewrite ?length_map in Heq.
Qed.

(** X19.  The fingerprint does not change with the case or the surrounding
    white space of the title, of the questions, of the options and of the
    answers, nor with the order of the options of a question. *)
Theorem createContentHash_normalized (a b : Quiz.t)
    (questions1 questions2 : list Question.t) :
  normalize (Quiz.title a) = normalize (Quiz.title b) →
  Quiz.questions a = Some questions1 →
  Quiz.questions b = Some questions2 →
  Forall2 sameNormalized questions1 questions2 →
  createContentHash host a = createContentHash host b.
Proof.
  intros Htitle Ha Hb Hsame. unfold createContentHash.
  rewrite Htitle, Ha, Hb.
  assert (map questionData questions1 = map questionData questions2) as ->;
    [|done].
  clear Ha Hb. induction Hsame as [|q1 q2 l1 l2 Hq _ IH]; [done|].
  cbn [map]. by rewrite (questionData_normalized q1 q2 Hq), IH.
Qed.

End Fingerprint.

(** ** Normalized texts *)

Lemma lowerChar_idem c :
  JsString.lowerChar (JsString.lowerChar c) = JsString.lowerChar c.
Proof. by destruct c as [[] [] [] [] [] [] [] []]. Qed.

Lemma isWhiteSpace_lowerChar c :
  JsString.isWhiteSpace (JsString.lowerChar c) = JsString.isWhiteSpace c.
Proof. by destruct c as [[] [] [] [] [] [] [] []]. Qed.

Lemma trimStartChars_lower l :
  JsString.trimStartChars (map JsString.lowerChar l)
  = map JsString.lowerChar (JsString.trimStartChars l).
Proof.
  induction l as [|c l IH]; [done|]. cbn [map JsString.trimStartChars].
  rewrite isWhiteSpace_lowerChar.
  by destruct (JsString.isWhiteSpace c).
Qed.

Lemma trimChars_lower l :
  JsString.trimChars (map JsString.lowerChar l)
  = map JsString.lowerChar (JsString.trimChars l).
Proof.
  unfold JsString.trimChars.
  by rewrite trimStartChars_lower, <- map_rev, trimStartChars_lower, map_rev.
Qed.

Lemma trimStartChars_idem l :
  JsString.trimStartChars (JsString.trimStartChars l)
  = JsString.trimStartChars l.
Proof.
  induction l as [|c l IH]; [done|]. cbn [JsString.trimStartChars].
  destruct (JsString.isWhiteSpace c) eqn:Hc; [done|].
  cbn [JsString.trimStartChars]. by rewrite Hc.
Qed.

Lemma trimStartChars_suffix l :
  ∃ w, l = w ++ JsString.trimStartChars l.
Proof.
  induction l as [|c l [w IH]]; [by exists []|]. cbn [JsString.trimStartChars].
  destruct (JsString.isWhiteSpace c).
  - exists (c :: w). simpl. by rewrite <- IH.
  - by exists [].
Qed.

Lemma trimStartChars_prefix l1 l2 :
  JsString.trimStartChars (l1 ++ l2) = l1 ++ l2 → l1 ≠ [] →
  JsString.trimStartChars l1 = l1.
Proof.
  destruct l1 as [|c l1]; [done|]. intros Hfix _. simpl in *.
  destruct (JsString.isWhiteSpace c); [|done].
  destruct (trimStartChars_suffix (l1 ++ l2)) as [w Hw].
  rewrite Hfix in Hw. apply (f_equal length) in Hw.
  rewrite !length_app in Hw. simpl in Hw. rewrite !length_app in Hw. lia.
Qed.

Lemma trimChars_idem l :
  JsString.trimChars (JsString.trimChars l) = JsString.trimChars l.
Proof.
  unfold JsString.trimChars.
  set (t := JsString.trimStartChars l).
  set (r := JsString.trimStartChars (rev t)).
  assert (JsString.trimStartChars (rev r) = rev r) as ->.
  { destruct (trimStartChars_suffix (rev t)) as [w Hw]. fold r in Hw.
    apply (f_equal (@rev ascii)) in Hw. rewrite rev_involutive, rev_app_distr in Hw.
    destruct (decide (rev r = [])) as [->|Hne]; [done|].
    apply (trimStartChars_prefix (rev r) (rev w)); [|done].
    rewrite <- Hw. apply trimStartChars_idem. }
  rewrite rev_involutive. unfold r. by rewrite trimStartChars_idem.
Qed.

(** X21.  A normalized text is its own normal form: lower case and trimming
    a second time change nothing. *)
Theorem normalize_idempotent (s : string) :
  normalize (normalize s) = normalize s.
Proof.
  unfold normalize, JsString.trim, JsString.toLowerCase.
  rewrite !HashFacts.chars_ofChars.
  rewrite <- trimChars_lower, trimChars_idem.
  do 2 f_equal. rewrite map_map. apply map_ext. apply lowerChar_idem.
Qed.

(** ** The handlers *)

Lemma uidCount_deleteQuiz_found s u quiz :
  wf s → getQuizByUniqueId s u = Some quiz →
  (uidCount u (quizCollection s) ≤ 1)%nat →
  uidCount u (quizCollection (deleteQuiz s (Quiz.id quiz)).1) = 0%nat.
Proof.
  intros Hwf Hfind Hle.
  destruct (getQuizByUniqueId_Some s u quiz Hwf Hfind)
    as (m1 & m2 & Hm & Hu & Hm1 & _).
  rewrite deleteQuiz_collection. simpl. rewrite Hm in Hle |- *.
  rewrite uidCount_app, uidCount_cons in Hle. simpl in Hle.
  rewrite decide_True in Hle by done.
  rewrite filter_app, filter_cons, decide_False by (simpl; tauto).
  rewrite uidCount_app.
  pose proof (uidCount_filter u (λ p, p.1 ≠ Quiz.id quiz) m1).
  pose proof (uidCount_filter u (λ p, p.1 ≠ Quiz.id quiz) m2).
  lia.
Qed.

(** X22.  [DELETE /api/quizzes/unique/:uniqueId] answers 404 and changes
    nothing when no record has the [uniqueId].  Otherwise it answers 200,
    never 500, and deletes the first record that has the [uniqueId] and no
    other; when no two records had the same [uniqueId], a
    [GET /api/quizzes/unique/:uniqueId] then answers 404. *)
Theorem deleteQuizByUniqueIdRoute_response (s : MemStorage) (uniqueId : string) :
  wf s →
  let r := deleteQuizByUniqueIdRoute s uniqueId in
  match getQuizByUniqueId s uniqueId with
  | None => r = (s, Response.mk 404 (Response.Message "Quiz not found"))
  | Some quiz =>
      r.2 = Response.mk 200 Response.Success
      ∧ getQuiz s (Quiz.id quiz) = Some quiz
      ∧ getQuiz r.1 (Quiz.id quiz) = None
      ∧ (∀ id, id ≠ Quiz.id quiz → getQuiz r.1 id = getQuiz s id)
      ∧ (NoDup (omap Quiz.uniqueId (getAllQuizzes s)) →
         getQuizByUniqueIdRoute r.1 uniqueId
         = Response.mk 404 (Response.Message "Quiz not found"))
  end.
Proof.
  intros Hwf r. subst r. unfold deleteQuizByUniqueIdRoute.
  destruct (getQuizByUniqueId s uniqueId) as [quiz|] eqn:Hfind; [|done].
  pose proof Hfind as [Hq _]%getQuizByUniqueId_elem.
  apply (elem_of_values _ _ Hwf) in Hq.
  pose proof (JsMap_get_NoDup _ _ _ (wf_nodup _ Hwf) Hq) as Hget.
  assert (deleteQuiz s (Quiz.id quiz)
          = ((deleteQuiz s (Quiz.id quiz)).1, true)) as Hdel.
  { unfold deleteQuiz, JsMap.delete, JsMap.has. simpl. f_equal.
    apply bool_decide_eq_true. rewrite Hget. eauto. }
  rewrite Hdel. cbn [fst snd]. split; [done|]. split; [done|].
  rewrite deleteQuiz_collection. unfold getQuiz. cbn [quizCollection].
  split; [by rewrite JsMap_get_filter_ne, decide_True|].
  split; [intros id Hne; by rewrite JsMap_get_filter_ne, decide_False|].
  intros Hnodup. unfold getQuizByUniqueIdRoute.
  rewrite <- deleteQuiz_collection.
  assert (getQuizByUniqueId (deleteQuiz s (Quiz.id quiz)).1 uniqueId = None)
    as ->; [|done].
  apply getQuizByUniqueId_None. apply uidCount_deleteQuiz_found; [done..|].
  by apply NoDup_uniqueId_count.
Qed.

Section SyncRoute.
Variable host : Host.

End SyncRoute.

(** ** Users *)

Lemma usersReachable_fresh t :
  usersReachable t → ∀ k, k ∈ JsMap.keys (users t) → k < userCurrentId t.
Proof.
  induction 1 as [|t insertUser _ IH]; simpl.
  - by intros k ?%elem_of_nil.
  - intros k Hk.
    assert (userCurrentId t ∉ JsMap.keys (users t)) as Hfresh.
    { intros Hin. apply IH in Hin. lia. }
    rewrite (JsMap_set_fresh _ _ _ Hfresh) in Hk. unfold JsMap.keys in Hk.
    rewrite fmap_app in Hk. apply elem_of_app in Hk as [Hk|Hk].
    + apply IH in Hk. lia.
    + simpl in Hk. apply list_elem_of_singleton in Hk. lia.
Qed.

(** X24.  [createUser] stores the user under an id that was not in use and
    changes no other user; [getUserByUsername] gives the user that took the
    name first. *)
Theorem createUser_stored (t : UserTable) (insertUser : InsertUser.t) :
  usersReachable t →
  let r := createUser t insertUser in
  getUser t (User.id r.2) = None
  ∧ getUser r.1 (User.id r.2) = Some r.2
  ∧ (∀ id, id ≠ User.id r.2 → getUser r.1 id = getUser t id)
  ∧ (∀ username,
       getUserByUsername r.1 username
       = match getUserByUsername t username with
         | Some user => Some user
         | None => if decide (InsertUser.username insertUser = username)
                   then Some r.2 else None
         end).
Proof.
  intros Hreach r.
  assert (userCurrentId t ∉ JsMap.keys (users t)) as Hfresh.
  { intros Hin. apply (usersReachable_fresh t Hreach) in Hin. lia. }
  split; [|split; [|split]].
  - by apply JsMap_get_None.
  - apply JsMap_get_set_eq.
  - intros id Hne. by apply JsMap_get_set_ne.
  - intros username. unfold getUserByUsername, r, createUser. cbn [fst snd users].
    rewrite (JsMap_set_fresh _ _ _ Hfresh). unfold JsMap.values.
    rewrite fmap_app. generalize ((users t).*2). intros l.
    induction l as [|user l IH]; simpl.
    + destruct (decide (InsertUser.username insertUser = username)).
      * by rewrite bool_decide_true.
      * by rewrite bool_decide_false.
    + by destruct (bool_decide (User.username user = username)).
Qed.

(** ** The request log *)

(** X25.  A line of the request log has at most 80 code units.  It is the
    line as it was built exactly when that has at most 80; otherwise it is
    the first 79 code units of that line and the ellipsis. *)
Theorem truncated_length {A} (ellipsis : A) (logLine : list A) :
  (length (truncated ellipsis logLine) ≤ 80)%nat
  ∧ take 79 (truncated ellipsis logLine) = take 79 logLine
  ∧ (truncated ellipsis logLine = logLine ↔ (length logLine ≤ 80)%nat)
  ∧ ((80 < length logLine)%nat →
     truncated ellipsis logLine !! 79%nat = Some ellipsis
     ∧ length (truncated ellipsis logLine) = 80%nat).
Proof.
  unfold truncated.
  destruct (80 <? length logLine)%nat eqn:Hlen.
  - apply Nat.ltb_lt in Hlen.
    assert (length (take 79 logLine) = 79%nat) as Htake
      by (rewrite length_take; lia).
    split; [rewrite length_app, Htake; simpl; lia|].
    split; [by rewrite take_app_length'|].
    split.
    + split; [|lia]. intros Heq. apply (f_equal length) in Heq.
      rewrite length_app, Htake in Heq. simpl in Heq. lia.
    + intros _. split.
      * rewrite lookup_app_r by lia. by rewrite Htake.
      * rewrite length_app, Htake. simpl. lia.
  - apply Nat.ltb_ge in Hlen. split; [done|]. split; [done|].
    split; [done|]. lia.
Qed.

(** ** The further theorems at concrete stores *)

Lemma createQuiz_stored_witness :
  let r := createQuiz Examples.host newMemStorage
             (Examples.submitted (Some "u1") "Quiz" [] true) in
  getQuiz r.1 1 = Some r.2 ∧ getQuizByUniqueId r.1 "u1" = Some r.2.
Proof.
  pose proof (createQuiz_stored Examples.host newMemStorage
                (Examples.submitted (Some "u1") "Quiz" [] true)
                wf_newMemStorage) as (_ & Hget & _ & _ & Huid).
  split; [exact Hget|]. exact (Huid "u1").
Defined.

Lemma deletePrivateQuizzes_stored_witness :
  let s := (createQuiz Examples.host
              (createQuiz Examples.host newMemStorage
                 (Examples.submitted (Some "u1") "A" [] true)).1
              (Examples.submitted (Some "u2") "B" [] false)).1 in
  let r := deletePrivateQuizzes s in
  getAllQuizzes r.1 = getPublicQuizzes s
  ∧ quizCurrentId r.1 = quizCurrentId s
  ∧ r.2 = Z.of_nat (length (getAllQuizzes s))
          - Z.of_nat (length (getPublicQuizzes s))
  ∧ deletePrivateQuizzes r.1 = (r.1, 0).
Proof.
  intros s. apply (deletePrivateQuizzes_stored s).
  apply wfb_wf. by vm_compute.
Defined.


Lemma syncQuizzes_returns_store_witness :
  let batch := [Examples.submitted (Some "u1") "Quiz" [] true] in
  (syncQuizzes Examples.host newMemStorage batch).2
  = getAllQuizzes (syncQuizzes Examples.host newMemStorage batch).1.
Proof.
  intros batch.
  apply (syncQuizzes_returns_store Examples.host newMemStorage batch).
  apply wfb_wf. by vm_compute.
Defined.

Lemma syncQuizzes_uniqueIds_witness :
  let s := Examples.store
             [Examples.quiz 1 (Some "u1") "A" [] (Some 1) (Some 7)] 2 in
  let batch := [Examples.submitted (Some "u1") "A" [] true;
                Examples.submitted (Some "u2") "B" [] true] in
  NoDup (omap Quiz.uniqueId
           (getAllQuizzes (syncQuizzes Examples.host s batch).1)).
Proof.
  intros s batch. apply (syncQuizzes_uniqueIds Examples.host s batch).
  - apply wfb_wf. by vm_compute.
  - apply (bool_decide_unpack _). by vm_compute.
Defined.

Lemma syncQuizzes_frame_witness :
  let quiz := Examples.quiz 1 (Some "u1") "A" [] (Some 1) (Some 7) in
  let s := Examples.store [quiz] 2 in
  let batch := [Examples.submitted (Some "u2") "B" [] true] in
  quiz ∈ getAllQuizzes (syncQuizzes Examples.host s batch).1.
Proof.
  intros quiz s batch.
  apply (syncQuizzes_frame Examples.host s batch quiz).
  - apply wfb_wf. by vm_compute.
  - by left.
  - reflexivity.
  - intros quizToSync u ->%list_elem_of_singleton. vm_compute. congruence.
Defined.

Lemma syncQuizzes_public_stored_witness :
  let quizToSync := Examples.submitted (Some "u1") "Quiz" [] true in
  ∃ quiz,
    getQuizByUniqueId (syncQuizzes Examples.host newMemStorage [quizToSync]).1
      "u1" = Some quiz
    ∧ Quiz.uniqueId quiz = Some "u1"
    ∧ Quiz.isPublic quiz = Some true.
Proof.
  intros quizToSync.
  apply (syncQuizzes_public_stored Examples.host newMemStorage [quizToSync]
           quizToSync "u1").
  - apply wfb_wf. by vm_compute.
  - by left.
  - reflexivity.
  - reflexivity.
  - intros other ->%list_elem_of_singleton _. reflexivity.
Defined.


Lemma removeDuplicateQuizzes_uniqueIds_witness :
  let s := Examples.store
             [Examples.quiz 1 (Some "u1") "A" [] (Some 1) (Some 7);
              Examples.quiz 2 (Some "u1") "B" [] (Some 2) (Some 8)] 3 in
  NoDup (uniqueIds (getAllQuizzes (removeDuplicateQuizzes Examples.host s).1)).
Proof.
  intros s. apply (removeDuplicateQuizzes_uniqueIds Examples.host s).
  apply wfb_wf. by vm_compute.
Defined.

Lemma removeDuplicateQuizzes_nonempty_witness :
  let s := Examples.mathQuizzes Examples.five Examples.fiveAgree4 in
  getAllQuizzes (removeDuplicateQuizzes Examples.host s).1 ≠ [].
Proof.
  intros s. apply (removeDuplicateQuizzes_nonempty Examples.host s).
  - apply wfb_wf. by vm_compute.
  - vm_compute. discriminate.
Defined.

Lemma removeDuplicateQuizzes_zero_witness :
  let s := Examples.store
             [Examples.quiz 1 (Some "u1") "Math Quiz" Examples.five
                (Some 1) (Some 1001);
              Examples.quiz 2 (Some "u2") "History Quiz" Examples.five
                (Some 1) (Some 1002)] 3 in
  (removeDuplicateQuizzes Examples.host s).2 = 0
  ↔ duplicateFree Examples.host (getAllQuizzes s).
Proof.
  intros s. apply (removeDuplicateQuizzes_zero Examples.host s).
  apply wfb_wf. by vm_compute.
Defined.

Lemma removeDuplicateQuizzes_identified_witness :
  let s := Examples.store
             [Examples.quiz 1 (Some "u1") "Math Quiz" Examples.five
                (Some 1) (Some 1001);
              Examples.quiz 2 (Some "u2") "Math Quiz" Examples.five
                (Some 1) (Some 1002)] 3 in
  removeDuplicateQuizzes Examples.host s = (s, 0).
Proof.
  intros s. apply (removeDuplicateQuizzes_identified Examples.host s).
  - apply wfb_wf. by vm_compute.
  - repeat constructor; by eexists.
  - apply (bool_decide_unpack _). by vm_compute.
Defined.

Lemma removeDuplicateQuizzes_copies_witness :
  let s := Examples.mathQuizzes Examples.five Examples.five in
  1 ≤ (removeDuplicateQuizzes Examples.host s).2.
Proof.
  intros s.
  refine (proj1 (removeDuplicateQuizzes_copies Examples.host s [] [] [] _ _
                   _ _ _ _ _ _)).
  - apply wfb_wf. by vm_compute.
  - reflexivity.
  - reflexivity.
  - by eexists.
  - reflexivity.
  - reflexivity.
Defined.

Lemma createContentHash_title_count_witness :
  let a := Examples.quiz 1 None "Math Quiz" [] None None in
  let b := Examples.quiz 2 None " math quiz" [] None None in
  normalize (Quiz.title a) = normalize (Quiz.title b)
  ∧ length (default [] (Quiz.questions a))
    = length (default [] (Quiz.questions b)).
Proof.
  intros a b. apply (createContentHash_title_count Examples.host a b).
  reflexivity.
Defined.

Lemma createContentHash_normalized_witness :
  let q1 := {| Question.question := "What is 2+2?";
               Question.options := ["4"; "Five"];
               Question.correctAnswer := "4" |} in
  let q2 := {| Question.question := " what is 2+2? ";
               Question.options := ["five "; "4"];
               Question.correctAnswer := " 4" |} in
  createContentHash Examples.host
    (Examples.quiz 1 None "Math Quiz" [q1] None None)
  = createContentHash Examples.host
      (Examples.quiz 2 None " MATH quiz " [q2] None None).
Proof.
  intros q1 q2.
  apply (createContentHash_normalized Examples.host _ _ [q1] [q2]).
  - reflexivity.
  - reflexivity.
  - reflexivity.
  - constructor; [|constructor]. split; [reflexivity|]. split; [|reflexivity].
    vm_compute. apply perm_swap.
Defined.


Lemma deleteQuizByUniqueIdRoute_response_witness :
  let s := Examples.store
             [Examples.quiz 1 (Some "u1") "A" [] (Some 1) (Some 7)] 2 in
  (deleteQuizByUniqueIdRoute s "u1").2 = Response.mk 200 Response.Success.
Proof.
  intros s.
  assert (wf s) as Hwf by (apply wfb_wf; by vm_compute).
  exact (proj1 (deleteQuizByUniqueIdRoute_response s "u1" Hwf)).
Defined.


Lemma createUser_stored_witness :
  let r := createUser newUserTable
             {| InsertUser.username := "ann"; InsertUser.password := "pw" |} in
  getUser newUserTable (User.id r.2) = None
  ∧ getUser r.1 (User.id r.2) = Some r.2
  ∧ (∀ id, id ≠ User.id r.2 → getUser r.1 id = getUser newUserTable id)
  ∧ (∀ username,
       getUserByUsername r.1 username
       = match getUserByUsername newUserTable username with
         | Some user => Some user
         | None => if decide ("ann" = username) then Some r.2 else None
         end).
Proof.
  apply (createUser_stored newUserTable
           {| InsertUser.username := "ann"; InsertUser.password := "pw" |}).
  apply usersReachable_new.
Defined.
